(** * GB: a two-channel square-wave synthesizer (gb.py, 2gb.py)

    A shallow embedding of the oscillator, the channel state, the key-event
    handlers, the render callback and the capture/flush path of the two
    scripts, with the properties of the specification proved against it.

    Numbers.  Python's [float] and NumPy's [float64] are IEEE-754 binary64;
    the output block is a [float32] array.  Both are modelled bit-exactly
    with the specification of IEEE arithmetic of [SpecFloat] (round to
    nearest, ties to even).  The oscillator is written once over an
    arithmetic interface and read in two ways: in binary64, which is what
    the scripts run, and in exact real arithmetic, which is what the
    specification's formulas say when rounding is set aside. *)

From Stdlib Require Import String Ascii.
From Stdlib Require Import ZArith List Bool Lia.
From Stdlib Require Import Floats.SpecFloat.
From Stdlib Require Import Reals Lra.
Import ListNotations.

(** ** IEEE-754 binary64 and binary32 arithmetic *)

Module B64.

Definition prec : Z := 53.
Definition emax : Z := 1024.

Definition add : spec_float -> spec_float -> spec_float := SFadd prec emax.
Definition mul : spec_float -> spec_float -> spec_float := SFmul prec emax.
Definition div : spec_float -> spec_float -> spec_float := SFdiv prec emax.
Definition opp : spec_float -> spec_float := SFopp.
Definition ltb : spec_float -> spec_float -> bool := SFltb.
Definition leb : spec_float -> spec_float -> bool := SFleb.
Definition eqb : spec_float -> spec_float -> bool := SFeqb.

Definition zero : spec_float := S754_zero false.

(** [float(i)] for a Python [int]: the nearest double. *)
Definition of_Z (z : Z) : spec_float := binary_normalize prec emax z 0 false.

(** A decimal literal [n/d] of the source text, e.g. [261.63] is
    [lit 26163 100]: both integers are exact doubles, so the correctly
    rounded quotient is the double nearest to the decimal, which is what
    the Python parser produces. *)
Definition lit (n d : Z) : spec_float := div (of_Z n) (of_Z d).

Definition is_nan (x : spec_float) : bool :=
  match x with S754_nan => true | _ => false end.

(** C's [fmod]: the result has the sign of [x] and is exact.  With
    [e] the smaller exponent, both mantissas are integers in units of
    [2^e]; the remainder is below [2^53] and is shifted left to its
    canonical exponent. *)
Definition fmod (x y : spec_float) : spec_float :=
  match x, y with
  | S754_nan, _ | _, S754_nan => S754_nan
  | S754_infinity _, _ => S754_nan
  | _, S754_zero _ => S754_nan
  | S754_zero _, _ => x
  | S754_finite _ _ _, S754_infinity _ => x
  | S754_finite sx mx ex, S754_finite _ my ey =>
      let e := Z.min ex ey in
      match ((Zpos mx * 2 ^ (ex - e)) mod (Zpos my * 2 ^ (ey - e)))%Z with
      | Z0 => S754_zero sx
      | Zpos r =>
          let '(m', e') :=
            shl_align r e (fexp prec emax (Zpos (digits2_pos r) + e)) in
          S754_finite sx m' e'
      | Zneg _ => S754_nan
      end
  end.

Definition copysign (x y : spec_float) : spec_float :=
  let sy := match y with
            | S754_zero s | S754_infinity s | S754_finite s _ _ => s
            | S754_nan => false
            end in
  match x with
  | S754_zero _ => S754_zero sy
  | S754_infinity _ => S754_infinity sy
  | S754_finite _ m e => S754_finite sy m e
  | S754_nan => S754_nan
  end.

(** Python's and NumPy's [%] on floats ([float_rem], [npy_divmod]):
    [fmod], then the divisor is added when the signs differ, and a zero
    result takes the divisor's sign. *)
Definition pymod (x y : spec_float) : spec_float :=
  let m := fmod x y in
  if eqb m zero then copysign zero y
  else if xorb (ltb y zero) (ltb m zero) then add m y
  else m.

(** Rounding a double to the nearest [float32], kept in binary64 form
    (every single is a double). *)
Definition to_f32 (x : spec_float) : spec_float :=
  match x with
  | S754_finite s m e =>
      match binary_round 24 128 s m e with
      | S754_finite s' m' e' => binary_round prec emax s' m' e'
      | y => y
      end
  | _ => x
  end.

(** The integer part of a finite float, toward zero (C's cast). *)
Definition trunc (x : spec_float) : option Z :=
  match x with
  | S754_zero _ => Some 0%Z
  | S754_finite s m e =>
      let q := match e with
               | Zneg p => (Zpos m / 2 ^ Zpos p)%Z
               | _ => (Zpos m * 2 ^ e)%Z
               end in
      Some (if s then (- q)%Z else q)
  | _ => None
  end.

End B64.

(** ** The arithmetic the oscillator is written over *)

Class Arith (F : Type) : Type := {
  fadd : F -> F -> F;
  fmul : F -> F -> F;
  fdiv : F -> F -> F;
  frem : F -> F -> F;          (* Python's [%] *)
  fneg : F -> F;
  flt : F -> F -> bool;
  of_int : Z -> F;             (* an [int] operand of a float operation *)
  flit : Z -> Z -> F;          (* a decimal literal [n/d] *)
  fpi : F                      (* [np.pi] *)
}.

Declare Scope num_scope.
Delimit Scope num_scope with num.
Infix "+" := fadd : num_scope.
Infix "*" := fmul : num_scope.
Infix "/" := fdiv : num_scope.
Infix "mod" := frem : num_scope.
Infix "<?" := flt : num_scope.
Notation "- x" := (fneg x) : num_scope.

(** Binary64, as the scripts run it.  [np.pi] is the double
    [3.141592653589793]. *)
#[export] Instance binary64 : Arith spec_float := {
  fadd := B64.add;
  fmul := B64.mul;
  fdiv := B64.div;
  frem := B64.pymod;
  fneg := B64.opp;
  flt := B64.ltb;
  of_int := B64.of_Z;
  flit := B64.lit;
  fpi := B64.lit 3141592653589793 1000000000000000
}.

(** Exact real arithmetic: no rounding, [np.pi] is the real number pi and
    [%] is the floored remainder. *)
Definition Rrem (x y : R) : R := (x - IZR (Zfloor (x / y)) * y)%R.

Definition Rltb (x y : R) : bool := if Rlt_dec x y then true else false.

#[export] Instance exact : Arith R := {
  fadd := Rplus;
  fmul := Rmult;
  fdiv := Rdiv;
  frem := Rrem;
  fneg := Ropp;
  flt := Rltb;
  of_int := IZR;
  flit := fun n d => (IZR n / IZR d)%R;
  fpi := PI
}.

(** ** Configuration (gb.py and 2gb.py, lines 29-31) *)

Definition SAMPLE_RATE : Z := 44100.

(** ** The oscillator (lines 46-51 of both scripts) *)

Section Oscillator.
Context {F : Type} {A : Arith F}.
Local Open Scope num_scope.

Definition AMPLITUDE : F := flit 5 10.

Definition np_pi : F := fpi.

(** [np.arange(n)]: the integers [0 .. n-1]. *)
Definition arange (n : nat) : list Z := map Z.of_nat (seq 0 n).

Definition generate_square_wave (frequency phase : F) (n_samples : nat)
  : list F * F :=
  let phase_increment := (frequency * of_int 2 * np_pi) / of_int SAMPLE_RATE in
  let phases :=
    map (fun i => (phase + of_int i * phase_increment) mod (of_int 2 * np_pi))
        (arange n_samples) in
  let wave := map (fun p => if p <? np_pi then AMPLITUDE else - AMPLITUDE) phases in
  let new_phase :=
    (phase + of_int (Z.of_nat n_samples) * phase_increment) mod (of_int 2 * np_pi) in
  (wave, new_phase).

(** Rendering a sequence of blocks with the returned phase threaded into
    the next call, the way the render callback does for one channel. *)
Fixpoint render_blocks (frequency phase : F) (blocks : list nat) : list F * F :=
  match blocks with
  | [] => ([], phase)
  | n :: rest =>
      let '(wave, new_phase) := generate_square_wave frequency phase n in
      let '(waves, last_phase) := render_blocks frequency new_phase rest in
      (wave ++ waves, last_phase)
  end.

End Oscillator.

(** ** Note maps (lines 9-27) *)

Definition dict_get {V : Type} (d : list (string * V)) (k : string) : option V :=
  option_map snd (find (fun kv => String.eqb (fst kv) k) d).

Definition dict_in {V : Type} (k : string) (d : list (string * V)) : bool :=
  match dict_get d k with Some _ => true | None => false end.

Definition CHANNEL1_NOTES : list (string * spec_float) :=
  [ ("a", B64.lit 26163 100);   (* C4 *)
    ("s", B64.lit 29366 100);   (* D4 *)
    ("d", B64.lit 32963 100);   (* E4 *)
    ("f", B64.lit 34923 100);   (* F4 *)
    ("g", B64.lit 39200 100);   (* G4 *)
    ("h", B64.lit 44000 100);   (* A4 *)
    ("j", B64.lit 49388 100) ]%string.  (* B4 *)

Definition CHANNEL2_NOTES : list (string * spec_float) :=
  [ ("z", B64.lit 52325 100);   (* C5 *)
    ("x", B64.lit 58733 100);   (* D5 *)
    ("c", B64.lit 65926 100);   (* E5 *)
    ("v", B64.lit 69846 100);   (* F5 *)
    ("b", B64.lit 78399 100);   (* G5 *)
    ("n", B64.lit 88000 100);   (* A5 *)
    ("m", B64.lit 98777 100) ]%string.  (* B5 *)

(** ** Channel state and the globals (lines 32-44)

    The lock of a channel is not modelled: handlers and callback are run
    one at a time, each a single atomic step. *)

Record ChannelState : Type := {
  active : bool;
  frequency : spec_float;
  phase : spec_float
}.

Definition ChannelState_init : ChannelState :=
  {| active := false; frequency := B64.zero; phase := B64.zero |}.

Record Globals : Type := {
  CH1 : ChannelState;
  CH2 : ChannelState;
  WAV_BUFFER : list spec_float;
  QUIT_FLAG : bool
}.

Definition Globals_init : Globals :=
  {| CH1 := ChannelState_init; CH2 := ChannelState_init;
     WAV_BUFFER := []; QUIT_FLAG := false |}.

(** ** The render callback (lines 53-80) *)

Definition one : spec_float := B64.lit 10 10.      (* 1.0 *)
Definition minus_one : spec_float := B64.opp one.  (* -1.0 *)

(** [np.zeros(frames, dtype=np.float32)] *)
Definition np_zeros (frames : nat) : list spec_float := repeat B64.zero frames.

(** [output += wave]: a [float32] array receives the [float64] sum. *)
Definition iadd (output wave : list spec_float) : list spec_float :=
  map (fun ow => B64.to_f32 (B64.add (fst ow) (snd ow))) (combine output wave).

(** [np.clip] on floats: [min(max(x, lo), hi)], a NaN passing through. *)
Definition np_clip (lo hi x : spec_float) : spec_float :=
  let t := if B64.is_nan x then x else if B64.ltb lo x then x else lo in
  if B64.is_nan t then t else if B64.ltb t hi then t else hi.

(** The body of [with CH.lock:] (lines 62-66 for channel 1, 69-73 for
    channel 2). *)
Definition mix_channel (ch : ChannelState) (output : list spec_float)
    (frames : nat) : ChannelState * list spec_float :=
  if active ch && B64.ltb B64.zero (frequency ch) then
    let '(wave, new_phase) :=
      generate_square_wave (frequency ch) (phase ch) frames in
    ({| active := active ch; frequency := frequency ch; phase := new_phase |},
     iadd output wave)
  else (ch, output).

(** The callback returns the new globals and the block written to
    [outdata], one row of one column per frame.  The [status] message is
    only printed. *)
Definition audio_callback (g : Globals) (frames : nat)
    : Globals * list (list spec_float) :=
  let output := np_zeros frames in
  let '(ch1, output) := mix_channel (CH1 g) output frames in
  let '(ch2, output) := mix_channel (CH2 g) output frames in
  let output := map (np_clip minus_one one) output in
  ({| CH1 := ch1; CH2 := ch2;
      WAV_BUFFER := WAV_BUFFER g ++ output;
      QUIT_FLAG := QUIT_FLAG g |},
   map (fun x => [x]) output).

(** A session of render calls, one per requested block length. *)
Fixpoint render_session (g : Globals) (blocks : list nat) : Globals :=
  match blocks with
  | [] => g
  | frames :: rest => render_session (fst (audio_callback g frames)) rest
  end.

(** What one channel adds to a silent block. *)
Definition contribution (ch : ChannelState) (frames : nat) : list spec_float :=
  snd (mix_channel ch (np_zeros frames) frames).

(** ** Key events of gb.py (lines 82-96, 113-116) *)

Module Gb.

Record KeyboardEvent : Type := {
  event_type : string;
  name : string
}.

Definition handle_key_event (channel : ChannelState)
    (notes_dict : list (string * spec_float)) (event : KeyboardEvent)
    : ChannelState :=
  if String.eqb (event_type event) "down" then
    match dict_get notes_dict (name event) with
    | Some freq =>
        {| active := true; frequency := freq; phase := phase channel |}
    | None => channel
    end
  else if String.eqb (event_type event) "up" then
    if dict_in (name event) notes_dict then
      {| active := false; frequency := frequency channel;
         phase := phase channel |}
    else channel
  else channel.

(** The two hooks, called in the order they were installed. *)
Definition hooks (g : Globals) (e : KeyboardEvent) : Globals :=
  {| CH1 := handle_key_event (CH1 g) CHANNEL1_NOTES e;
     CH2 := handle_key_event (CH2 g) CHANNEL2_NOTES e;
     WAV_BUFFER := WAV_BUFFER g;
     QUIT_FLAG := QUIT_FLAG g |}.

(** One turn of the main loop; [q_pressed] is [keyboard.is_pressed('q')]. *)
Definition main_loop_step (g : Globals) (q_pressed : bool) : Globals :=
  if q_pressed then
    {| CH1 := CH1 g; CH2 := CH2 g; WAV_BUFFER := WAV_BUFFER g;
       QUIT_FLAG := true |}
  else g.

End Gb.

(** ** Key events of 2gb.py (lines 83-127) *)

Module Gb2.

(** A pynput key: a [KeyCode], whose [char] may be [None], or a member
    of the [Key] enumeration, which has no [char] attribute. *)
Inductive Key : Type :=
| KeyCode (char : option string)
| SpecialKey (name : string).

Definition lower_ascii (c : ascii) : ascii :=
  let n := nat_of_ascii c in
  if (65 <=? n)%nat && (n <=? 90)%nat then ascii_of_nat (n + 32) else c.

(** [str.lower] on ASCII text. *)
Fixpoint lower (s : string) : string :=
  match s with
  | EmptyString => EmptyString
  | String c rest => String (lower_ascii c) (lower rest)
  end.

Definition activate (ch : ChannelState) (freq : spec_float) : ChannelState :=
  {| active := true; frequency := freq; phase := phase ch |}.

Definition deactivate (ch : ChannelState) : ChannelState :=
  {| active := false; frequency := frequency ch; phase := phase ch |}.

Definition on_press (g : Globals) (key : Key) : Globals :=
  match key with
  | KeyCode (Some char) =>
      let key_char := lower char in
      match dict_get CHANNEL1_NOTES key_char with
      | Some freq =>
          {| CH1 := activate (CH1 g) freq; CH2 := CH2 g;
             WAV_BUFFER := WAV_BUFFER g; QUIT_FLAG := QUIT_FLAG g |}
      | None =>
          match dict_get CHANNEL2_NOTES key_char with
          | Some freq =>
              {| CH1 := CH1 g; CH2 := activate (CH2 g) freq;
                 WAV_BUFFER := WAV_BUFFER g; QUIT_FLAG := QUIT_FLAG g |}
          | None =>
              if String.eqb key_char "q" then
                {| CH1 := CH1 g; CH2 := CH2 g;
                   WAV_BUFFER := WAV_BUFFER g; QUIT_FLAG := true |}
              else g
          end
      end
  | KeyCode None =>
      (* [key.char.lower()] raises; the handler of the exception tests
         [key == keyboard.Key.esc], false for a [KeyCode] *)
      g
  | SpecialKey _ =>
      (* [hasattr(key, 'char')] is false *)
      g
  end.

(** [on_release] also returns [not QUIT_FLAG] to the listener. *)
Definition on_release (g : Globals) (key : Key) : Globals * bool :=
  let g' :=
    match key with
    | KeyCode (Some char) =>
        let key_char := lower char in
        if dict_in key_char CHANNEL1_NOTES then
          {| CH1 := deactivate (CH1 g); CH2 := CH2 g;
             WAV_BUFFER := WAV_BUFFER g; QUIT_FLAG := QUIT_FLAG g |}
        else if dict_in key_char CHANNEL2_NOTES then
          {| CH1 := CH1 g; CH2 := deactivate (CH2 g);
             WAV_BUFFER := WAV_BUFFER g; QUIT_FLAG := QUIT_FLAG g |}
        else g
    | _ => g
    end in
  (g', negb (QUIT_FLAG g')).

End Gb2.

(** ** Flush at shutdown (gb.py 124-131, 2gb.py 166-173) *)

(** [astype(np.int16)]: the C cast truncates toward zero; outside the
    range of [int16], or on NaN and infinities, it is undefined. *)
Definition astype_int16 (x : spec_float) : option Z :=
  match B64.trunc x with
  | Some z => if ((-32768 <=? z) && (z <=? 32767))%Z then Some z else None
  | None => None
  end.

(** What [scipy.io.wavfile.write] is called with; a one-dimensional
    [int16] array is written as a mono 16-bit PCM file. *)
Record WavFile : Type := {
  wav_filename : string;
  wav_rate : Z;
  wav_channels : Z;
  wav_bits : Z;
  wav_data : list (option Z)
}.

Definition wav_write (filename : string) (rate : Z) (data : list (option Z))
    : WavFile :=
  {| wav_filename := filename; wav_rate := rate; wav_channels := 1;
     wav_bits := 16; wav_data := data |}.

(** One sample on its way to the file (lines 125-127). *)
Definition to_pcm (x : spec_float) : option Z :=
  let x := B64.to_f32 x in                          (* np.array(.., float32) *)
  let x := np_clip minus_one one x in               (* np.clip *)
  let x := B64.to_f32 (B64.mul x (B64.of_Z 32767)) in  (* float32 product *)
  astype_int16 x.

(** The file written, if any, and the message printed. *)
Definition flush (g : Globals) : option WavFile * string :=
  match WAV_BUFFER g with
  | [] => (None, "No audio data recorded"%string)
  | _ :: _ =>
      (Some (wav_write "gameboy_audio.wav" SAMPLE_RATE
                       (map to_pcm (WAV_BUFFER g))),
       "Audio saved to gameboy_audio.wav"%string)
  end.

(** ** A session: render calls interleaved with key events *)

Inductive Action : Type :=
| Render (frames : nat)                 (* the device asks for a block *)
| KeyboardHook (event : Gb.KeyboardEvent)  (* gb.py: both hooks run *)
| Poll (q_pressed : bool)               (* gb.py: one turn of the main loop *)
| Press (key : Gb2.Key)                 (* 2gb.py: listener, key down *)
| Release (key : Gb2.Key).              (* 2gb.py: listener, key up *)

Definition perform (g : Globals) (a : Action) : Globals :=
  match a with
  | Render frames => fst (audio_callback g frames)
  | KeyboardHook event => Gb.hooks g event
  | Poll q_pressed => Gb.main_loop_step g q_pressed
  | Press key => Gb2.on_press g key
  | Release key => fst (Gb2.on_release g key)
  end.

Definition session (g : Globals) (actions : list Action) : Globals :=
  fold_left perform actions g.

(** The block lengths the device asked for during a session. *)
Definition rendered_frames (actions : list Action) : list nat :=
  flat_map (fun a => match a with Render frames => [frames] | _ => [] end)
           actions.

(** ** Vocabulary of the properties *)

(** The oscillator as section 4.1 of the specification words it: the
    phase increment, the instantaneous phase of sample [i], and the level
    of a sample.  The increment is computed in the order the scripts
    compute it, [(f * 2 * pi) / 44100]. *)
Section Reference.
Context {F : Type} {A : Arith F}.
Local Open Scope num_scope.

Definition two_pi : F := of_int 2 * np_pi.

Definition increment (frequency : F) : F :=
  (frequency * of_int 2 * np_pi) / of_int SAMPLE_RATE.

Definition phase_at (frequency phase : F) (i : Z) : F :=
  (phase + of_int i * increment frequency) mod two_pi.

Definition level (instantaneous : F) : F :=
  if instantaneous <? np_pi then AMPLITUDE else - AMPLITUDE.

End Reference.

(** The number of samples at [+AMPLITUDE] and at [-AMPLITUDE]: every
    sample is one or the other, so these are the positive and the
    negative ones. *)
Section Counting.
Context {F : Type} {A : Arith F}.
Local Open Scope num_scope.




End Counting.


(** A double that is finite and not negative. *)
Definition finite_nonneg (x : spec_float) : bool :=
  match x with
  | S754_zero _ => true
  | S754_finite false _ _ => true
  | _ => false
  end.

(** Not negative: a zero, a positive finite number or plus infinity. *)
Definition nonneg (x : spec_float) : bool :=
  match x with
  | S754_zero _ | S754_finite false _ _ | S754_infinity false => true
  | _ => false
  end.

Definition nonneg_or_nan (x : spec_float) : bool := nonneg x || B64.is_nan x.

(** The record of a right shift lost nothing. *)
Definition shr_exact (mrs : shr_record) : Prop :=
  shr_r mrs = false /\ shr_s mrs = false.

(** A magnitude [m * 2^e], with [e <= 0], that does not exceed the
    integer [B]. *)
Definition within (B m e : Z) : Prop :=
  (e <= 0 /\ 0 <= m <= B * 2 ^ (- e))%Z.

(** A float of magnitude at most the integer [B]. *)
Definition magnitude_le (B : Z) (x : spec_float) : Prop :=
  match x with
  | S754_zero _ => True
  | S754_finite _ m e => within B (Zpos m) e
  | _ => False
  end.

(** [-1.0 <= x <= 1.0], with the comparisons of binary64. *)
Definition in_unit_range (x : spec_float) : bool :=
  B64.leb minus_one x && B64.leb x one.

(** The five values a rendered sample can take. *)
Definition half : spec_float := AMPLITUDE.

Definition levels : list spec_float :=
  [B64.zero; half; B64.opp half; one; minus_one].

(** The block a render call produces: what is appended to the capture
    buffer, and what is written to [outdata]. *)
Definition rendered_block (g : Globals) (frames : nat) : list spec_float :=
  map (np_clip minus_one one)
      (snd (mix_channel (CH2 g)
              (snd (mix_channel (CH1 g) (np_zeros frames) frames)) frames)).

(** Vocabulary of the binary64 properties. *)

(** A phase as the callback stores it: [+0.0], or a positive double in
    canonical form below [2 * pi]. *)
Definition reduced_phase (p : spec_float) : bool :=
  match p with
  | S754_zero false => true
  | S754_finite false _ _ =>
      valid_binary B64.prec B64.emax p && B64.ltb p (two_pi (A := binary64))
  | _ => false
  end.

(** [+0.0], or a positive double of magnitude at most the integer [B]
    whose mantissa and exponent fit binary64. *)
Definition bounded_by (B : Z) (x : spec_float) : Prop :=
  match x with
  | S754_zero s => s = false
  | S754_finite s m e =>
      s = false /\ within B (Zpos m) e /\
      (Zpos (digits2_pos m) <= B64.prec)%Z /\
      (emin B64.prec B64.emax <= e)%Z
  | _ => False
  end.

(** The value of a finite double in units of [2^-1074], the smallest
    positive double: an integer for every exponent from [emin] up. *)
Definition ticks (x : spec_float) : Z :=
  match x with
  | S754_finite s m e => (if s then - Zpos m else Zpos m) * 2 ^ (e + 1074)
  | _ => 0
  end.

(** The phase increment of a frequency is a positive normal double of
    at most [2^D] radians per sample. *)
Definition increment_ok (D : Z) (f : spec_float) : bool :=
  match increment (A := binary64) f with
  | S754_finite false m e =>
      ((-1022 <=? e) && (e <=? 0) && (Zpos m <=? 2 ^ D * 2 ^ (- e)) &&
       (Zpos (digits2_pos m) <=? 53))%Z
  | _ => false
  end.

(** Farther than [tol] ticks from [0], [pi] and [2 pi]. *)
Definition clear_of_boundary (tol : Z) (x : spec_float) : bool :=
  (((tol <=? ticks x) && (ticks x + tol <? ticks (np_pi (A := binary64)))) ||
   ((ticks (np_pi (A := binary64)) + tol <=? ticks x) &&
    (ticks x + tol <? ticks (two_pi (A := binary64)))))%Z.

(** The bound, in ticks, on the rounding error of one unreduced phase
    [phase + i * increment] of magnitude below [2^(K + D + 2)]: two
    roundings of at most two units in the last place each, that is
    [2^(K + D - 49)] radians. *)
Definition tolerance (K D : Z) : Z := 2 ^ (K + D + 1025).




(** The five integers a rendered sample is written as. *)
Definition pcm_levels : list (option Z) :=
  [Some 0; Some 16383; Some (-16383); Some 32767; Some (-32767)]%Z.

(** Vocabulary of the further properties. *)


(** What holds of a channel's frequency in every state a session can
    reach: it is the initial [0.0] or one of the channel's notes, and a
    note whenever the channel is active. *)
Definition note_state (notes_dict : list (string * spec_float))
    (ch : ChannelState) : Prop :=
  (frequency ch = B64.zero \/ In (frequency ch) (map snd notes_dict)) /\
  (active ch = true -> In (frequency ch) (map snd notes_dict)).

(** The longest block the phase invariant is proved for. *)
Definition max_frames : Z := 2 ^ 40.

(** * Properties *)

(** ** The arithmetic on known values

    Values of CPython and NumPy on an IEEE-754 machine, against which the
    model of binary64 is checked. *)

(** [np.pi] is [0x1.921fb54442d18p+1]. *)
Example np_pi_double :
  np_pi (A := binary64) = S754_finite false 7074237752028440 (-51).
Proof. vm_compute. reflexivity. Qed.

(** [261.63] is [0x1.05a147ae147aep+8]. *)
Example note_c4_double :
  dict_get CHANNEL1_NOTES "a" = Some (S754_finite false 4602643634800558 (-44)).
Proof. vm_compute. reflexivity. Qed.

(** [1000.0 % (2 * np.pi)] is [0.9735361584457891]. *)
Example pymod_thousand :
  B64.pymod (B64.lit 1000 1) two_pi
    = S754_finite false 8768834160816320 (-53).
Proof. vm_compute. reflexivity. Qed.

(** [-1e-20 % (2 * np.pi)] is [2 * np.pi]. *)
Example pymod_tiny_negative :
  B64.pymod (B64.opp (B64.lit 1 100000000000000000000)) two_pi = two_pi.
Proof. vm_compute. reflexivity. Qed.

(** [np.float32(0.1)] is [0.10000000149011612]. *)
Example to_f32_tenth :
  B64.to_f32 (B64.lit 1 10) = S754_finite false 7205759511166976 (-56).
Proof. vm_compute. reflexivity. Qed.

(** [np.float32(-16383.5).astype(np.int16)] is [-16383]. *)
Example astype_int16_half :
  astype_int16 (B64.opp (B64.lit 163835 10)) = Some (-16383)%Z.
Proof. vm_compute. reflexivity. Qed.

(** For A4 the increment [(440.0 * 2 * np.pi) / 44100] is
    [0.06268937721449021], and [generate_square_wave(440.0, 0.0, 1024)]
    returns the phase [1.3620691958421105]. *)
Example increment_a4 :
  increment (B64.lit 44000 100) = S754_finite false 4517245693812265 (-56).
Proof. vm_compute. reflexivity. Qed.

Example new_phase_a4 :
  snd (generate_square_wave (B64.lit 44000 100) B64.zero 1024)
    = S754_finite false 6134214322847360 (-52).
Proof. vm_compute. reflexivity. Qed.

Example lower_shifted_key : Gb2.lower "G" = "g"%string.
Proof. reflexivity. Qed.

(** ** Rounding in binary64 and binary32 *)

(** *** Signs survive rounding *)

Section Rounding.
Variables prec emax : Z.

Lemma shr_1_nonneg (mrs : shr_record) :
  (0 <= shr_m mrs)%Z -> (0 <= shr_m (shr_1 mrs))%Z.
Proof.
  destruct mrs as [m r s]. cbn [shr_m].
  destruct m as [|[p|p|]|p]; cbn; lia.
Qed.

Lemma iter_pos_invariant {X : Type} (P : X -> Prop) (g : X -> X)
    (n : positive) :
  (forall x, P x -> P (g x)) -> forall x, P x -> P (SpecFloat.iter_pos g n x).
Proof.
  intros Hstep. induction n as [n IH|n IH|]; intros x Hx; cbn [SpecFloat.iter_pos].
  - apply IH, IH, Hstep, Hx.
  - apply IH, IH, Hx.
  - apply Hstep, Hx.
Qed.

Lemma shr_nonneg (mrs : shr_record) (e n : Z) :
  (0 <= shr_m mrs)%Z -> (0 <= shr_m (fst (shr mrs e n)))%Z.
Proof.
  intros Hm. unfold shr. destruct n as [|p|p]; cbn [fst]; trivial.
  now apply iter_pos_invariant; [exact shr_1_nonneg|].
Qed.

Lemma shr_fexp_nonneg (m e : Z) (l : location) :
  (0 <= m)%Z -> (0 <= shr_m (fst (shr_fexp prec emax m e l)))%Z.
Proof.
  intros Hm. unfold shr_fexp. apply shr_nonneg.
  destruct l as [|[| |]]; exact Hm.
Qed.

Lemma round_nearest_even_nonneg (m : Z) (l : location) :
  (0 <= m)%Z -> (0 <= round_nearest_even m l)%Z.
Proof.
  intros Hm. unfold round_nearest_even.
  destruct l as [|[| |]]; try destruct (Z.even m); lia.
Qed.

(** Rounding a non-negative mantissa gives a zero, a finite number or an
    infinity of the sign asked for, never a NaN. *)
Lemma binary_round_aux_sign (sx : bool) (mx ex : Z) (lx : location) :
  (0 <= mx)%Z ->
  match binary_round_aux prec emax sx mx ex lx with
  | S754_zero s | S754_infinity s | S754_finite s _ _ => s = sx
  | S754_nan => False
  end.
Proof.
  intros Hm. unfold binary_round_aux.
  pose proof (shr_fexp_nonneg mx ex lx Hm) as H1.
  destruct (shr_fexp prec emax mx ex lx) as [mrs' e'].
  cbn [fst] in H1.
  pose proof (shr_fexp_nonneg _ e' loc_Exact
                (round_nearest_even_nonneg _ (loc_of_shr_record mrs') H1))
    as H2.
  destruct (shr_fexp prec emax _ e' loc_Exact) as [mrs'' e''].
  cbn [fst] in H2.
  destruct (shr_m mrs'') as [|m|m]; [reflexivity | | lia].
  now destruct (Z.leb e'' (emax - prec)).
Qed.

Lemma binary_round_sign (sx : bool) (mx : positive) (ex : Z) :
  match binary_round prec emax sx mx ex with
  | S754_zero s | S754_infinity s | S754_finite s _ _ => s = sx
  | S754_nan => False
  end.
Proof.
  unfold binary_round. destruct (shl_align _ _ _) as [mz ez].
  apply binary_round_aux_sign. lia.
Qed.

End Rounding.

Lemma sign_nonneg (x : spec_float) :
  match x with
  | S754_zero s | S754_infinity s | S754_finite s _ _ => s = false
  | S754_nan => False
  end -> nonneg x = true.
Proof. destruct x as [s|s| |s m e]; cbn; intros H; now subst. Qed.

Lemma of_Z_nonneg (z : Z) : (0 <= z)%Z -> nonneg (B64.of_Z z) = true.
Proof.
  intros Hz. unfold B64.of_Z, binary_normalize.
  destruct z as [|m|m]; [reflexivity | | lia].
  apply sign_nonneg, binary_round_sign.
Qed.

Lemma mul_nonneg (x y : spec_float) :
  nonneg_or_nan x = true -> nonneg_or_nan y = true ->
  nonneg_or_nan (B64.mul x y) = true.
Proof.
  unfold nonneg_or_nan.
  destruct x as [sx|[|]| |[|] mx ex]; try discriminate;
    destruct y as [sy|[|]| |[|] my ey]; try discriminate;
    intros _ _; try reflexivity.
  unfold B64.mul, SFmul. cbn [xorb].
  rewrite sign_nonneg; [reflexivity|].
  apply binary_round_aux_sign. lia.
Qed.

Lemma add_nonneg (x y : spec_float) :
  nonneg_or_nan x = true -> nonneg_or_nan y = true ->
  nonneg_or_nan (B64.add x y) = true.
Proof.
  unfold nonneg_or_nan.
  destruct x as [sx|[|]| |[|] mx ex]; try discriminate;
    destruct y as [sy|[|]| |[|] my ey]; try discriminate;
    intros _ _; try reflexivity.
  - now destruct sx, sy.
  - unfold B64.add, SFadd. cbn [cond_Zopp].
    unfold binary_normalize.
    destruct (Z.pos _ + Z.pos _)%Z as [|m|m] eqn:Hsum; [reflexivity | | lia].
    rewrite sign_nonneg; [reflexivity|]. apply binary_round_sign.
Qed.

Lemma div_nonneg (x : spec_float) (my : positive) (ey : Z) :
  nonneg_or_nan x = true ->
  nonneg_or_nan (B64.div x (S754_finite false my ey)) = true.
Proof.
  unfold nonneg_or_nan.
  destruct x as [sx|[|]| |[|] mx ex]; try discriminate;
    intros _; try reflexivity.
  unfold B64.div, SFdiv.
  destruct (SFdiv_core_binary _ _ _ _ _ _) as [[mz ez] lz] eqn:Hcore.
  cbn [xorb]. rewrite sign_nonneg; [reflexivity|].
  apply binary_round_aux_sign.
  unfold SFdiv_core_binary in Hcore.
  match type of Hcore with
  | context [Z.div_eucl ?a ?b] =>
      pose proof (Z.div_eucl_eq a b ltac:(lia)) as Heq;
      pose proof (Z.mod_pos_bound a b ltac:(lia)) as Hmod;
      assert (0 <= a)%Z as Ha;
      [| unfold Z.modulo in Hmod; destruct (Z.div_eucl a b) as [q r] eqn:Hqr ]
  end.
  - destruct (_ - _ - _)%Z; [lia | | lia]. apply Z.shiftl_nonneg. lia.
  - injection Hcore as <- _ _. nia.
Qed.

(** *** Rounding keeps a bound *)

Section Shifting.
Local Open Scope Z_scope.

Lemma digits2_size (m : positive) : digits2_pos m = Pos.size m.
Proof. induction m as [m IH|m IH|]; cbn; now rewrite ?IH. Qed.

Lemma digits_gt (m : positive) : Zpos m < 2 ^ Zpos (digits2_pos m).
Proof.
  rewrite digits2_size. pose proof (Pos.size_gt m) as H.
  apply Pos2Z.pos_lt_pos in H. now rewrite Pos2Z.inj_pow in H.
Qed.

Lemma digits_le (m : positive) (k : Z) :
  0 <= k -> Zpos m < 2 ^ k -> Zpos (digits2_pos m) <= k.
Proof.
  intros Hk Hm. rewrite digits2_size.
  destruct (Z_le_gt_dec (Zpos (Pos.size m)) k) as [|Hgt]; [assumption|].
  exfalso. pose proof (Pos.size_le m) as Hle.
  apply Pos2Z.pos_le_pos in Hle.
  rewrite Pos2Z.inj_pow in Hle.
  change (Z.pos m~0) with (2 * Z.pos m) in Hle.
  assert (2 ^ (k + 1) <= 2 ^ Zpos (Pos.size m)) as Hpow
    by (apply Z.pow_le_mono_r; lia).
  assert (2 ^ (k + 1) = 2 * 2 ^ k) as Hsucc
    by (rewrite Z.pow_add_r by lia; lia).
  lia.
Qed.

Lemma Zdigits2_le (m k : Z) : 0 <= m < 2 ^ k -> 0 <= k -> Zdigits2 m <= k.
Proof.
  intros [Hlo Hhi] Hk. destruct m as [|p|p]; cbn; [lia | | lia].
  now apply digits_le.
Qed.

Lemma Zdigits2_gt (m : Z) : 0 <= m -> m < 2 ^ Zdigits2 m.
Proof.
  intros Hm. destruct m as [|p|p]; cbn; [lia | apply digits_gt | lia].
Qed.

Lemma Zdigits2_nonneg (m : Z) : 0 <= Zdigits2 m.
Proof. destruct m; cbn; lia. Qed.

Lemma iter_pos_nat {X : Type} (g : X -> X) (n : positive) (x : X) :
  SpecFloat.iter_pos g n x = Nat.iter (Pos.to_nat n) g x.
Proof.
  revert x. induction n as [n IH|n IH|]; intros x; cbn [SpecFloat.iter_pos].
  - rewrite !IH, <- Nat.iter_add, <- Nat.iter_succ_r.
    f_equal. lia.
  - rewrite !IH, <- Nat.iter_add. f_equal. lia.
  - reflexivity.
Qed.

(** [shr_1] halves the mantissa and records in its two flags whether
    anything was lost. *)
Lemma shr_1_half (mrs : shr_record) :
  0 <= shr_m mrs -> shr_m (shr_1 mrs) = shr_m mrs / 2.
Proof.
  destruct mrs as [m r s]. cbn [shr_m]. intros Hm.
  rewrite <- Z.div2_div.
  destruct m as [|[p|p|]|p]; try reflexivity. lia.
Qed.

Lemma shr_1_exact (mrs : shr_record) :
  0 <= shr_m mrs -> shr_exact mrs -> shr_m mrs mod 2 = 0 ->
  shr_exact (shr_1 mrs).
Proof.
  destruct mrs as [m r s]. unfold shr_exact. cbn [shr_m shr_r shr_s].
  intros Hm [-> ->] Heven.
  destruct m as [|[p|p|]|p]; try (split; reflexivity); try lia.
  - exfalso. change (Z.pos p~1) with (2 * Z.pos p + 1) in Heven.
    replace (2 * Z.pos p + 1) with (1 + Z.pos p * 2) in Heven by lia.
    rewrite Z.mod_add in Heven by lia. discriminate.
  - discriminate.
Qed.

Lemma shr_iter (k : nat) (mrs : shr_record) :
  0 <= shr_m mrs ->
  shr_m (Nat.iter k shr_1 mrs) = shr_m mrs / 2 ^ Z.of_nat k /\
  (shr_exact mrs -> shr_m mrs mod 2 ^ Z.of_nat k = 0 ->
   shr_exact (Nat.iter k shr_1 mrs)).
Proof.
  intros Hm. induction k as [|k [IHm IHe]].
  - change (Nat.iter 0 shr_1 mrs) with mrs.
    change (Z.of_nat 0) with 0. rewrite Z.pow_0_r, Z.div_1_r. now split.
  - change (Nat.iter (S k) shr_1 mrs) with (shr_1 (Nat.iter k shr_1 mrs)).
    assert (0 <= shr_m (Nat.iter k shr_1 mrs)) as Hk
      by (rewrite IHm; apply Z.div_pos; lia).
    rewrite Nat2Z.inj_succ, Z.pow_succ_r by lia. split.
    + rewrite shr_1_half, IHm by exact Hk.
      rewrite Z.div_div by lia. f_equal. lia.
    + intros Hex Hmod.
      assert (shr_m mrs mod 2 ^ Z.of_nat k = 0) as Hmodk.
      { apply Z.mod_divide in Hmod; [|lia]. apply Z.mod_divide; [lia|].
        destruct Hmod as [q Hq]. exists (q * 2). lia. }
      apply shr_1_exact; [exact Hk | now apply IHe |].
      rewrite IHm.
      apply Z.mod_divide in Hmod; [|lia]. destruct Hmod as [q Hq].
      rewrite Hq.
      replace (q * (2 * 2 ^ Z.of_nat k)) with (q * 2 * 2 ^ Z.of_nat k) by lia.
      rewrite Z.div_mul by lia. now rewrite Z.mod_mul by lia.
Qed.

End Shifting.

Section RoundingBound.
Local Open Scope Z_scope.

Variables prec emax : Z.
Hypothesis Hprec : 0 < prec.
Hypothesis Hemin : 3 - emax - prec <= 0.
Hypothesis Hemax : prec <= emax.

Lemma shr_spec (mrs : shr_record) (e n : Z) :
  0 <= shr_m mrs ->
  (n <= 0 -> shr mrs e n = (mrs, e)) /\
  (0 < n ->
   shr_m (fst (shr mrs e n)) = shr_m mrs / 2 ^ n /\
   snd (shr mrs e n) = e + n /\
   (shr_exact mrs -> shr_m mrs mod 2 ^ n = 0 ->
    shr_exact (fst (shr mrs e n)))).
Proof.
  intros Hm. unfold shr. split.
  - intros Hn. destruct n as [|p|p].
    + reflexivity.
    + exfalso. lia.
    + reflexivity.
  - intros Hn. destruct n as [|p|p]; [exfalso; lia | | exfalso; lia].
    cbn [fst snd]. rewrite iter_pos_nat.
    destruct (shr_iter (Pos.to_nat p) mrs Hm) as [Hdiv Hex].
    rewrite positive_nat_Z in Hdiv, Hex.
    split; [exact Hdiv|]. split; [reflexivity | exact Hex].
Qed.

(** The mantissa that [shr_fexp] leaves has at most [prec] digits. *)
Lemma shr_fexp_digits (m e : Z) (l : location) :
  0 <= m ->
  Zdigits2 (shr_m (fst (shr_fexp prec emax m e l))) <= prec.
Proof.
  intros Hm. unfold shr_fexp.
  set (mrs := shr_record_of_loc m l).
  assert (shr_m mrs = m) as Hmrs by (subst mrs; now destruct l as [|[| |]]).
  set (n := fexp prec emax (Zdigits2 m + e) - e).
  assert (Zdigits2 m - prec <= n) as Hn
    by (subst n; unfold fexp; lia).
  destruct (shr_spec mrs e n ltac:(lia)) as [Hstay Hshift].
  destruct (Z_le_gt_dec n 0) as [Hle|Hgt].
  - rewrite Hstay by exact Hle. cbn [fst]. rewrite Hmrs. lia.
  - destruct Hshift as (Hdiv & _ & _); [lia|]. rewrite Hdiv, Hmrs.
    pose proof (Zdigits2_gt m Hm) as Hlt.
    pose proof (Zdigits2_nonneg m) as Hd.
    destruct (Z_le_gt_dec n (Zdigits2 m)) as [Hsmall|Hbig].
    + apply Z.le_trans with (Zdigits2 m - n); [|lia].
      apply Zdigits2_le; [|lia]. split; [apply Z.div_pos; lia|].
      apply Z.div_lt_upper_bound; [lia|].
      rewrite <- Z.pow_add_r by lia.
      now replace (n + (Zdigits2 m - n)) with (Zdigits2 m) by lia.
    + rewrite Z.div_small; [cbn; lia|]. split; [lia|].
      apply Z.lt_le_trans with (2 ^ Zdigits2 m); [exact Hlt|].
      apply Z.pow_le_mono_r; lia.
Qed.

(** Whatever is rounded, a finite result has a mantissa of at most
    [prec] digits. *)
Lemma binary_round_aux_digits (sx : bool) (mx ex : Z) (lx : location) :
  0 <= mx ->
  match binary_round_aux prec emax sx mx ex lx with
  | S754_finite _ m _ => Zpos (digits2_pos m) <= prec
  | _ => True
  end.
Proof.
  intros Hm. unfold binary_round_aux.
  pose proof (shr_fexp_nonneg prec emax mx ex lx Hm) as H1.
  destruct (shr_fexp prec emax mx ex lx) as [mrs' e'].
  cbn [fst] in H1.
  pose proof (round_nearest_even_nonneg _ (loc_of_shr_record mrs') H1) as H2.
  pose proof (shr_fexp_digits _ e' loc_Exact H2) as Hd.
  destruct (shr_fexp prec emax _ e' loc_Exact) as [mrs'' e''].
  cbn [fst] in Hd.
  destruct (shr_m mrs'') as [|m|m]; trivial.
  now destruct (Z.leb e'' (emax - prec)).
Qed.

Lemma binary_round_digits (sx : bool) (mx : positive) (ex : Z) :
  match binary_round prec emax sx mx ex with
  | S754_finite _ m _ => Zpos (digits2_pos m) <= prec
  | _ => True
  end.
Proof.
  unfold binary_round. destruct (shl_align _ _ _) as [mz ez].
  apply binary_round_aux_digits. lia.
Qed.

Variables B k : Z.
Hypothesis HB : 0 <= B < 2 ^ k.
Hypothesis Hk : 0 <= k <= prec.

Lemma within_fexp (m e : Z) :
  within B m e -> fexp prec emax (Zdigits2 m + e) <= 0.
Proof.
  intros (He & Hm0 & Hm).
  assert (Zdigits2 m <= k - e) as Hd.
  { apply Zdigits2_le; [|lia]. split; [lia|].
    apply Z.le_lt_trans with (B * 2 ^ (- e)); [exact Hm|].
    replace (k - e) with (k + - e) by lia. rewrite Z.pow_add_r by lia.
    apply Z.mul_lt_mono_pos_r; [apply Z.pow_pos_nonneg; lia | lia]. }
  unfold fexp, emin. lia.
Qed.

Lemma round_nearest_even_bounds (m : Z) (l : location) :
  m <= round_nearest_even m l <= m + 1.
Proof.
  unfold round_nearest_even.
  destruct l as [|[| |]]; try destruct (Z.even m); lia.
Qed.

Lemma round_nearest_even_exact (mrs : shr_record) :
  shr_exact mrs ->
  round_nearest_even (shr_m mrs) (loc_of_shr_record mrs) = shr_m mrs.
Proof.
  destruct mrs as [m r s]. unfold shr_exact. cbn [shr_r shr_s shr_m].
  now intros [-> ->].
Qed.

(** One step of [binary_round_aux]: shifting to the canonical exponent
    and rounding to nearest stays within the bound, because the bound is
    itself a multiple of the unit of the new exponent. *)
Lemma shr_fexp_within (m e : Z) :
  within B m e ->
  within B (round_nearest_even
            (shr_m (fst (shr_fexp prec emax m e loc_Exact)))
            (loc_of_shr_record (fst (shr_fexp prec emax m e loc_Exact))))
         (snd (shr_fexp prec emax m e loc_Exact)).
Proof.
  intros Hin. pose proof (within_fexp m e Hin) as Hfexp.
  destruct Hin as (He & Hm0 & Hm).
  unfold shr_fexp. cbn [shr_record_of_loc].
  set (mrs := {| shr_m := m; shr_r := false; shr_s := false |}).
  set (n := fexp prec emax (Zdigits2 m + e) - e) in *.
  assert (shr_exact mrs) as Hex by now split.
  destruct (shr_spec mrs e n Hm0) as [Hstay Hshift].
  destruct (Z_le_gt_dec n 0) as [Hle|Hgt].
  - rewrite Hstay by exact Hle. cbn [fst snd].
    rewrite round_nearest_even_exact by exact Hex. now repeat split.
  - destruct Hshift as (Hdiv & Hexp & Hexact); [lia|].
    rewrite Hexp. cbn [shr_m mrs] in Hdiv, Hexact.
    set (e' := e + n) in *.
    assert (e' <= 0) as He' by (subst e' n; lia).
    assert (0 < 2 ^ n) as Hpow by (apply Z.pow_pos_nonneg; lia).
    assert (B * 2 ^ (- e) = B * 2 ^ (- e') * 2 ^ n) as Hsplit.
    { rewrite <- Z.mul_assoc, <- Z.pow_add_r by lia.
      do 2 f_equal. subst e'. lia. }
    assert (0 <= m / 2 ^ n) as Hq0 by (apply Z.div_pos; lia).
    assert (m / 2 ^ n <= B * 2 ^ (- e')) as Hq.
    { apply Z.div_le_upper_bound; [exact Hpow|].
      now rewrite Z.mul_comm, <- Hsplit. }
    pose proof (round_nearest_even_bounds
                  (shr_m (fst (shr mrs e n)))
                  (loc_of_shr_record (fst (shr mrs e n)))) as Hround.
    split; [exact He'|]. split; [lia|].
    destruct (Z.eq_dec (m mod 2 ^ n) 0) as [Hmod|Hmod].
    + rewrite round_nearest_even_exact by (apply Hexact; assumption).
      now rewrite Hdiv.
    + assert (m / 2 ^ n <> B * 2 ^ (- e')) as Hne.
      { intros Heq. apply Hmod.
        pose proof (Z.div_mod m (2 ^ n) ltac:(lia)) as Hdm.
        pose proof (Z.mod_pos_bound m (2 ^ n) Hpow) as Hmb.
        rewrite Heq in Hdm. lia. }
      lia.
Qed.

Lemma binary_round_aux_within (sx : bool) (mx ex : Z) :
  within B mx ex ->
  match binary_round_aux prec emax sx mx ex loc_Exact with
  | S754_zero s => s = sx
  | S754_finite s m e => s = sx /\ within B (Zpos m) e
  | _ => False
  end.
Proof.
  intros Hin. unfold binary_round_aux.
  pose proof (shr_fexp_within mx ex Hin) as H1.
  destruct (shr_fexp prec emax mx ex loc_Exact) as [mrs' e'].
  cbn [fst snd] in H1.
  pose proof (shr_fexp_within _ e' H1) as H2.
  pose proof (shr_fexp_nonneg prec emax _ e' loc_Exact (proj1 (proj2 H1)))
    as Hpos.
  destruct (shr_fexp prec emax _ e' loc_Exact) as [mrs'' e''].
  cbn [fst snd] in H2, Hpos.
  pose proof (round_nearest_even_bounds (shr_m mrs'')
                (loc_of_shr_record mrs'')) as Hround.
  destruct H2 as (He'' & _ & Hm'').
  destruct (shr_m mrs'') as [|m|m] eqn:Hm; [reflexivity | | lia].
  replace (Z.leb e'' (emax - prec)) with true
    by (symmetry; apply Z.leb_le; lia).
  split; [reflexivity|]. split; [exact He''|]. lia.
Qed.

Lemma shl_align_spec (m : positive) (e e' : Z) :
  snd (shl_align m e e') <= e /\
  Zpos (fst (shl_align m e e'))
    = Zpos m * 2 ^ (e - snd (shl_align m e e')).
Proof.
  unfold shl_align. destruct (e' - e) as [|d|d] eqn:Hd; cbn [fst snd].
  - rewrite Z.sub_diag. cbn. lia.
  - rewrite Z.sub_diag. cbn. lia.
  - split; [lia|]. replace (e - e') with (Zpos d) by lia.
    clear Hd. induction d as [|d IH] using Pos.peano_ind.
    + cbn [Pos.iter]. change (2 ^ 1) with 2. lia.
    + rewrite Pos.iter_succ, Pos2Z.inj_xO, IH, Pos2Z.inj_succ.
      rewrite Z.pow_succ_r by lia. lia.
Qed.

Lemma binary_round_within (sx : bool) (mx : positive) (ex : Z) :
  within B (Zpos mx) ex ->
  match binary_round prec emax sx mx ex with
  | S754_zero s => s = sx
  | S754_finite s m e => s = sx /\ within B (Zpos m) e
  | _ => False
  end.
Proof.
  intros (He & Hm0 & Hm). unfold binary_round.
  pose proof (shl_align_spec mx ex
                (fexp prec emax (Zpos (digits2_pos mx) + ex))) as [Hez Hmz].
  destruct (shl_align _ _ _) as [mz ez]. cbn [fst snd] in Hez, Hmz.
  apply binary_round_aux_within. split; [lia|]. split; [lia|].
  rewrite Hmz.
  replace (- ez) with (- ex + (ex - ez)) by lia.
  rewrite Z.pow_add_r, Z.mul_assoc by lia.
  apply Z.mul_le_mono_nonneg_r; [apply Z.pow_nonneg; lia | exact Hm].
Qed.

End RoundingBound.

(** *** Rounding keeps the exponent from [emin] up *)

Section Exponent.
Local Open Scope Z_scope.
Variables prec emax : Z.

Lemma shr_fexp_emin (m e : Z) (l : location) :
  0 <= m -> emin prec emax <= snd (shr_fexp prec emax m e l).
Proof.
  intros Hm. unfold shr_fexp.
  set (mrs := shr_record_of_loc m l).
  assert (shr_m mrs = m) as Hmrs by (subst mrs; now destruct l as [|[| |]]).
  set (n := fexp prec emax (Zdigits2 m + e) - e).
  assert (emin prec emax <= e + n) as Hn by (subst n; unfold fexp; lia).
  destruct (shr_spec mrs e n ltac:(lia)) as [Hstay Hshift].
  destruct (Z_le_gt_dec n 0) as [Hle|Hgt].
  - rewrite Hstay by exact Hle. cbn [snd]. lia.
  - destruct Hshift as (_ & -> & _); lia.
Qed.

Lemma binary_round_aux_emin (sx : bool) (mx ex : Z) (lx : location) :
  0 <= mx ->
  match binary_round_aux prec emax sx mx ex lx with
  | S754_finite _ _ e => emin prec emax <= e
  | _ => True
  end.
Proof.
  intros Hm. unfold binary_round_aux.
  pose proof (shr_fexp_nonneg prec emax mx ex lx Hm) as H1.
  destruct (shr_fexp prec emax mx ex lx) as [mrs' e'].
  cbn [fst] in H1.
  pose proof (round_nearest_even_nonneg _ (loc_of_shr_record mrs') H1) as H2.
  pose proof (shr_fexp_emin _ e' loc_Exact H2) as He.
  destruct (shr_fexp prec emax _ e' loc_Exact) as [mrs'' e''].
  cbn [snd] in He.
  destruct (shr_m mrs'') as [|m|m]; trivial.
  now destruct (Z.leb e'' (emax - prec)).
Qed.

Lemma binary_round_emin (sx : bool) (mx : positive) (ex : Z) :
  match binary_round prec emax sx mx ex with
  | S754_finite _ _ e => emin prec emax <= e
  | _ => True
  end.
Proof.
  unfold binary_round. destruct (shl_align _ _ _) as [mz ez].
  apply binary_round_aux_emin. lia.
Qed.

End Exponent.

(** *** Bounds carried through the operations *)

Section Bounded.
Local Open Scope Z_scope.

Lemma bounded_by_mono (B B' : Z) (x : spec_float) :
  B <= B' -> bounded_by B x -> bounded_by B' x.
Proof.
  intros HB. destruct x as [s|s| |s m e]; cbn; trivial.
  intros (Hs & (He & Hm0 & Hm) & Hd & Hmin). repeat split; trivial.
  apply Z.le_trans with (B * 2 ^ (- e)); [exact Hm|].
  apply Z.mul_le_mono_nonneg_r; [apply Z.pow_nonneg; lia | exact HB].
Qed.

Lemma round_aux_bounded (B k : Z) (mx ex : Z) :
  0 <= B < 2 ^ k -> 0 <= k <= 53 ->
  within B mx ex ->
  bounded_by B (binary_round_aux B64.prec B64.emax false mx ex loc_Exact).
Proof.
  intros HB Hk Hin.
  pose proof (binary_round_aux_within B64.prec B64.emax ltac:(cbv; discriminate)
                ltac:(cbv; discriminate) B k HB Hk false mx ex Hin) as Hw.
  pose proof (binary_round_aux_digits B64.prec B64.emax ltac:(reflexivity)
                false mx ex loc_Exact (proj1 (proj2 Hin))) as Hd.
  pose proof (binary_round_aux_emin B64.prec B64.emax false mx ex loc_Exact
                (proj1 (proj2 Hin))) as He.
  destruct (binary_round_aux _ _ _ _ _ _) as [s|s| |s m e];
    cbn [bounded_by]; trivial.
  destruct Hw as [Hs Hw]. split; [exact Hs|]. split; [exact Hw|].
  split; [exact Hd | exact He].
Qed.

Lemma shl_align_down (m : positive) (e e' : Z) :
  e' <= e ->
  snd (shl_align m e e') = e' /\
  Zpos (fst (shl_align m e e')) = Zpos m * 2 ^ (e - e').
Proof.
  intros Hle.
  pose proof (shl_align_spec 53 0 ltac:(lia) m e e') as [_ Hm].
  assert (snd (shl_align m e e') = e') as Hs.
  { unfold shl_align. destruct (e' - e) as [|d|d] eqn:Hd; cbn [snd]; lia. }
  rewrite Hs in Hm. now split.
Qed.

Lemma round_bounded (B k : Z) (mx : positive) (ex : Z) :
  0 <= B < 2 ^ k -> 0 <= k <= 53 ->
  within B (Zpos mx) ex ->
  bounded_by B (binary_round B64.prec B64.emax false mx ex).
Proof.
  intros HB Hk (He & Hm0 & Hm). unfold binary_round.
  pose proof (shl_align_spec 53 0 ltac:(lia) mx ex
                (fexp B64.prec B64.emax (Zpos (digits2_pos mx) + ex)))
    as [Hez Hmz].
  destruct (shl_align _ _ _) as [mz ez]. cbn [fst snd] in Hez, Hmz.
  apply round_aux_bounded with k; trivial.
  split; [lia|]. split; [lia|].
  rewrite Hmz.
  replace (- ez) with (- ex + (ex - ez)) by lia.
  rewrite Z.pow_add_r, Z.mul_assoc by lia.
  apply Z.mul_le_mono_nonneg_r; [apply Z.pow_nonneg; lia | exact Hm].
Qed.

Lemma of_Z_bounded (B k n : Z) :
  0 <= B < 2 ^ k -> 0 <= k <= 53 -> 0 <= n <= B ->
  bounded_by B (B64.of_Z n).
Proof.
  intros HB Hk Hn. unfold B64.of_Z, binary_normalize.
  destruct n as [|m|m]; [reflexivity | | lia].
  apply round_bounded with k; trivial.
  split; [lia|]. cbn. lia.
Qed.

Lemma mul_bounded (B1 B2 k : Z) (x y : spec_float) :
  0 <= B1 -> 0 <= B2 -> B1 * B2 < 2 ^ k -> 0 <= k <= 53 ->
  bounded_by B1 x -> bounded_by B2 y ->
  bounded_by (B1 * B2) (B64.mul x y).
Proof.
  intros H1 H2 HB Hk Hx Hy.
  destruct x as [sx|sx| |sx mx ex], y as [sy|sy| |sy my ey];
    cbn in Hx, Hy; try contradiction.
  - now subst.
  - destruct Hy as [-> _]. now subst.
  - destruct Hx as [-> _]. now subst.
  - destruct Hx as (-> & (Hex & _ & Hmx) & _).
    destruct Hy as (-> & (Hey & _ & Hmy) & _).
    unfold B64.mul, SFmul. cbn [xorb].
    apply round_aux_bounded with k; [nia | exact Hk |].
    split; [lia|]. split; [lia|].
    rewrite Pos2Z.inj_mul.
    replace (- (ex + ey)) with (- ex + - ey) by lia.
    rewrite Z.pow_add_r by lia.
    replace (B1 * B2 * (2 ^ (- ex) * 2 ^ (- ey)))
      with ((B1 * 2 ^ (- ex)) * (B2 * 2 ^ (- ey))) by ring.
    apply Z.mul_le_mono_nonneg; lia.
Qed.

Lemma add_bounded (B1 B2 k : Z) (x y : spec_float) :
  0 <= B1 -> 0 <= B2 -> B1 + B2 < 2 ^ k -> 0 <= k <= 53 ->
  bounded_by B1 x -> bounded_by B2 y ->
  bounded_by (B1 + B2) (B64.add x y).
Proof.
  intros H1 H2 HB Hk Hx Hy.
  destruct x as [sx|sx| |sx mx ex], y as [sy|sy| |sy my ey];
    cbn in Hx, Hy; try contradiction.
  - now subst.
  - apply bounded_by_mono with B2; [lia | exact Hy].
  - apply bounded_by_mono with B1; [lia | exact Hx].
  - destruct Hx as (-> & (Hex & _ & Hmx) & _).
    destruct Hy as (-> & (Hey & _ & Hmy) & _).
    unfold B64.add, SFadd. cbv zeta.
    change IntDef.Z.min with Z.min.
    set (ez := Z.min ex ey).
    destruct (shl_align_down mx ex ez ltac:(subst ez; lia)) as [_ Hax].
    destruct (shl_align_down my ey ez ltac:(subst ez; lia)) as [_ Hay].
    cbn [cond_Zopp Z.add binary_normalize].
    apply round_bounded with k; [lia | exact Hk |].
    assert (ez <= 0) as Hez by (subst ez; lia).
    split; [exact Hez|]. split; [lia|].
    rewrite Pos2Z.inj_add, Hax, Hay.
    assert (forall m e B, e <= 0 -> ez <= e -> m <= B * 2 ^ (- e) ->
                          m * 2 ^ (e - ez) <= B * 2 ^ (- ez)) as Hscale.
    { intros m e B He Hle Hm.
      replace (- ez) with (- e + (e - ez)) by lia.
      rewrite Z.pow_add_r, Z.mul_assoc by lia.
      apply Z.mul_le_mono_nonneg_r; [apply Z.pow_nonneg; lia | exact Hm]. }
    pose proof (Hscale _ _ _ Hex ltac:(subst ez; lia) Hmx).
    pose proof (Hscale _ _ _ Hey ltac:(subst ez; lia) Hmy).
    lia.
Qed.

End Bounded.

(** ** The oscillator's output, in any arithmetic *)

Section OscillatorFacts.
Context {F : Type} {A : Arith F}.
Local Open Scope num_scope.

Lemma arange_length (n : nat) : length (arange n) = n.
Proof. unfold arange. now rewrite length_map, length_seq. Qed.

Lemma wave_length (f p : F) (n : nat) :
  length (fst (generate_square_wave f p n)) = n.
Proof.
  unfold generate_square_wave; cbn [fst].
  now rewrite !length_map, arange_length.
Qed.

Lemma wave_amplitude (f p : F) (n : nat) (x : F) :
  In x (fst (generate_square_wave f p n)) ->
  x = AMPLITUDE \/ x = - AMPLITUDE.
Proof.
  unfold generate_square_wave; cbn [fst]. rewrite map_map.
  intros [i [<- _]]%in_map_iff.
  destruct (_ <? _); auto.
Qed.

End OscillatorFacts.

(** ** The render callback *)

Lemma iadd_length (output wave : list spec_float) :
  length (iadd output wave) = Nat.min (length output) (length wave).
Proof. unfold iadd. now rewrite length_map, length_combine. Qed.

Lemma iadd_In (output wave : list spec_float) (y : spec_float) :
  In y (iadd output wave) ->
  exists o w, In o output /\ In w wave /\ y = B64.to_f32 (B64.add o w).
Proof.
  unfold iadd. intros [[o w] [<- Hin]]%in_map_iff.
  exists o, w. split; [|split]; trivial.
  - eapply in_combine_l; eassumption.
  - eapply in_combine_r; eassumption.
Qed.

Lemma mix_channel_length (ch : ChannelState) (output : list spec_float)
    (frames : nat) :
  length output = frames ->
  length (snd (mix_channel ch output frames)) = frames.
Proof.
  intros Hlen. unfold mix_channel.
  destruct (active ch && _); [|exact Hlen].
  destruct (generate_square_wave _ _ _) as [wave new_phase] eqn:E.
  cbn [snd]. rewrite iadd_length, Hlen.
  pose proof (wave_length (frequency ch) (phase ch) frames) as Hw.
  rewrite E in Hw. cbn [fst] in Hw. rewrite Hw. apply Nat.min_id.
Qed.

Lemma level_step (o w : spec_float) :
  In o [B64.zero; half; B64.opp half] ->
  w = half \/ w = B64.opp half ->
  In (B64.to_f32 (B64.add o w)) levels.
Proof.
  intros Ho Hw. cbn [In] in Ho.
  destruct Ho as [<- | [<- | [<- | []]]], Hw as [-> | ->];
    vm_compute; tauto.
Qed.

Lemma level_first (o w : spec_float) :
  o = B64.zero ->
  w = half \/ w = B64.opp half ->
  In (B64.to_f32 (B64.add o w)) [B64.zero; half; B64.opp half].
Proof. intros -> [-> | ->]; vm_compute; tauto. Qed.

Lemma mix_channel_first (ch : ChannelState) (frames : nat) (y : spec_float) :
  In y (snd (mix_channel ch (np_zeros frames) frames)) ->
  In y [B64.zero; half; B64.opp half].
Proof.
  unfold mix_channel.
  destruct (active ch && _).
  - destruct (generate_square_wave _ _ _) as [wave new_phase] eqn:E.
    cbn [snd]. intros (o & w & Ho & Hw & ->)%iadd_In.
    apply level_first.
    + unfold np_zeros in Ho. now apply repeat_spec in Ho.
    + refine (wave_amplitude (A := binary64) (frequency ch) (phase ch) frames w _).
      now rewrite E.
  - cbn [snd]. unfold np_zeros. intros ->%repeat_spec. now left.
Qed.

Lemma mix_channel_second (ch : ChannelState) (output : list spec_float)
    (frames : nat) (y : spec_float) :
  (forall o, In o output -> In o [B64.zero; half; B64.opp half]) ->
  In y (snd (mix_channel ch output frames)) ->
  In y levels.
Proof.
  intros Hout. unfold mix_channel.
  destruct (active ch && _).
  - destruct (generate_square_wave _ _ _) as [wave new_phase] eqn:E.
    cbn [snd]. intros (o & w & Ho & Hw & ->)%iadd_In.
    apply level_step; [now apply Hout|].
    refine (wave_amplitude (A := binary64) (frequency ch) (phase ch) frames w _).
    now rewrite E.
  - cbn [snd]. intros Hy%Hout. cbn [In] in Hy. unfold levels. cbn [In]. tauto.
Qed.

Lemma clip_level (x : spec_float) :
  In x levels -> np_clip minus_one one x = x.
Proof.
  unfold levels. cbn [In].
  intros [<- | [<- | [<- | [<- | [<- | []]]]]]; reflexivity.
Qed.

Lemma level_in_unit_range (x : spec_float) :
  In x levels -> in_unit_range x = true.
Proof.
  unfold levels. cbn [In].
  intros [<- | [<- | [<- | [<- | [<- | []]]]]]; reflexivity.
Qed.

Lemma audio_callback_block (g : Globals) (frames : nat) :
  WAV_BUFFER (fst (audio_callback g frames))
    = WAV_BUFFER g ++ rendered_block g frames /\
  snd (audio_callback g frames)
    = map (fun x => [x]) (rendered_block g frames).
Proof.
  unfold audio_callback, rendered_block.
  destruct (mix_channel (CH1 g) _ _) as [ch1 out1].
  destruct (mix_channel (CH2 g) _ _) as [ch2 out2].
  now cbn.
Qed.

Lemma rendered_block_length (g : Globals) (frames : nat) :
  length (rendered_block g frames) = frames.
Proof.
  unfold rendered_block. rewrite length_map.
  apply mix_channel_length, mix_channel_length.
  unfold np_zeros. apply repeat_length.
Qed.

Lemma rendered_block_levels (g : Globals) (frames : nat) (x : spec_float) :
  In x (rendered_block g frames) -> In x levels.
Proof.
  unfold rendered_block. intros [y [<- Hy]]%in_map_iff.
  assert (In y levels) as Hl.
  { eapply mix_channel_second; [|exact Hy].
    intros o. apply mix_channel_first. }
  now rewrite clip_level.
Qed.

Lemma clip_idempotent (x : spec_float) :
  np_clip minus_one one (np_clip minus_one one x) = np_clip minus_one one x.
Proof.
  unfold np_clip.
  destruct (B64.is_nan x) eqn:Hn.
  - now rewrite !Hn.
  - destruct (B64.ltb minus_one x) eqn:Hlo.
    + rewrite Hn. destruct (B64.ltb x one) eqn:Hhi.
      * now rewrite Hn, Hlo, Hn, Hhi.
      * reflexivity.
    + reflexivity.
Qed.

(** C5.  Clipping is idempotent on every float, NaN and infinities
    included, and every sample a render call writes to the output block
    or appends to the capture buffer lies in [-1.0, 1.0], whatever the
    two channel states are. *)
Theorem clipping_invariant :
  (forall x : spec_float,
      np_clip minus_one one (np_clip minus_one one x)
        = np_clip minus_one one x) /\
  (forall (g : Globals) (frames : nat),
      Forall (Forall (fun x => in_unit_range x = true))
             (snd (audio_callback g frames)) /\
      exists block,
        WAV_BUFFER (fst (audio_callback g frames)) = WAV_BUFFER g ++ block /\
        Forall (fun x => in_unit_range x = true) block).
Proof.
  split; [exact clip_idempotent|].
  intros g frames.
  destruct (audio_callback_block g frames) as [Hbuf Hout].
  assert (Forall (fun x => in_unit_range x = true) (rendered_block g frames))
    as Hrange.
  { apply Forall_forall. intros x Hx.
    now apply level_in_unit_range, (rendered_block_levels g frames). }
  split.
  - rewrite Hout. apply Forall_forall.
    intros row [x [<- Hx]]%in_map_iff.
    constructor; [|constructor].
    rewrite Forall_forall in Hrange. now apply Hrange.
  - now exists (rendered_block g frames).
Qed.

Lemma render_session_buffer (blocks : list nat) (g : Globals) :
  exists captured,
    WAV_BUFFER (render_session g blocks) = WAV_BUFFER g ++ captured /\
    length captured = list_sum blocks /\
    (forall x, In x captured -> In x levels).
Proof.
  revert g. induction blocks as [|frames rest IH]; intros g.
  - exists []. cbn. now rewrite app_nil_r.
  - cbn [render_session list_sum].
    destruct (IH (fst (audio_callback g frames))) as (tl & Htl & Hlen & Hlev).
    destruct (audio_callback_block g frames) as [Hbuf _].
    exists (rendered_block g frames ++ tl). repeat split.
    + now rewrite Htl, Hbuf, app_assoc.
    + now rewrite length_app, rendered_block_length, Hlen.
    + intros x [Hx | Hx]%in_app_or; [|now apply Hlev].
      now apply (rendered_block_levels g frames).
Qed.

Lemma key_event_buffer (g : Globals) (a : Action) :
  (forall frames, a <> Render frames) ->
  WAV_BUFFER (perform g a) = WAV_BUFFER g.
Proof.
  intros Hkey. destruct a as [frames|event|q|key|key]; cbn [perform].
  - now elim (Hkey frames).
  - reflexivity.
  - unfold Gb.main_loop_step. now destruct q.
  - unfold Gb2.on_press. destruct key as [[char|]|special]; trivial.
    destruct (dict_get CHANNEL1_NOTES _); trivial.
    destruct (dict_get CHANNEL2_NOTES _); trivial.
    now destruct (String.eqb _ _).
  - unfold Gb2.on_release. cbn [fst].
    destruct key as [[char|]|special]; trivial.
    destruct (dict_in _ CHANNEL1_NOTES); trivial.
    now destruct (dict_in _ CHANNEL2_NOTES).
Qed.

Lemma session_buffer (actions : list Action) (g : Globals) :
  exists captured,
    WAV_BUFFER (session g actions) = WAV_BUFFER g ++ captured /\
    length captured = list_sum (rendered_frames actions) /\
    (forall x, In x captured -> In x levels).
Proof.
  revert g. induction actions as [|a rest IH]; intros g.
  - exists []. cbn. now rewrite app_nil_r.
  - cbn [session fold_left]. fold (session (perform g a) rest).
    destruct (IH (perform g a)) as (tl & Htl & Hlen & Hlev).
    destruct a as [frames|event|q|key|key].
    + destruct (audio_callback_block g frames) as [Hbuf _].
      exists (rendered_block g frames ++ tl). repeat split.
      * rewrite Htl. cbn [perform]. now rewrite Hbuf, app_assoc.
      * cbn [rendered_frames flat_map app list_sum].
        fold (rendered_frames rest).
        now rewrite length_app, rendered_block_length, Hlen.
      * intros x [Hx | Hx]%in_app_or; [|now apply Hlev].
        now apply (rendered_block_levels g frames).
    + exists tl. rewrite Htl, key_event_buffer by discriminate. now repeat split.
    + exists tl. rewrite Htl, key_event_buffer by discriminate. now repeat split.
    + exists tl. rewrite Htl, key_event_buffer by discriminate. now repeat split.
    + exists tl. rewrite Htl, key_event_buffer by discriminate. now repeat split.
Qed.

(** C6.  Every render call appends exactly [frames] samples to the
    capture buffer, silent blocks included; key events append nothing; so
    after any session of render calls and key events the buffer has grown
    by the sum of the rendered block lengths. *)
Theorem capture_completeness :
  (forall (g : Globals) (frames : nat),
      exists block,
        WAV_BUFFER (fst (audio_callback g frames)) = WAV_BUFFER g ++ block /\
        length block = frames) /\
  (forall (g : Globals) (blocks : list nat),
      length (WAV_BUFFER (render_session g blocks))
        = length (WAV_BUFFER g) + list_sum blocks) /\
  (forall (g : Globals) (actions : list Action),
      length (WAV_BUFFER (session g actions))
        = length (WAV_BUFFER g) + list_sum (rendered_frames actions)) /\
  (forall actions : list Action,
      length (WAV_BUFFER (session Globals_init actions))
        = list_sum (rendered_frames actions)).
Proof.
  assert (forall g actions,
             length (WAV_BUFFER (session g actions))
               = length (WAV_BUFFER g) + list_sum (rendered_frames actions))
    as Hsession.
  { intros g actions.
    destruct (session_buffer actions g) as (tl & -> & Hlen & _).
    now rewrite length_app, Hlen. }
  split; [|split; [|split]].
  - intros g frames. exists (rendered_block g frames). split.
    + apply audio_callback_block.
    + apply rendered_block_length.
  - intros g blocks.
    destruct (render_session_buffer blocks g) as (tl & -> & Hlen & _).
    now rewrite length_app, Hlen.
  - exact Hsession.
  - intros actions. now rewrite Hsession.
Qed.

(** ** Key events *)

Lemma dict_in_get {V : Type} (d : list (string * V)) (k : string) :
  dict_in k d = true <-> exists v, dict_get d k = Some v.
Proof.
  unfold dict_in. destruct (dict_get d k) as [v|].
  - split; [now exists v | trivial].
  - split; [discriminate | now intros [v Hv]].
Qed.

Lemma dict_get_key {V : Type} (d : list (string * V)) (k : string) (v : V) :
  dict_get d k = Some v -> In k (map fst d).
Proof.
  unfold dict_get. destruct (find _ d) as [[k' v']|] eqn:Hfind; [|discriminate].
  intros _. apply find_some in Hfind as [Hin Heq].
  cbn [fst] in Heq. apply String.eqb_eq in Heq. subst k'.
  apply in_map_iff. now exists (k, v').
Qed.

(** The two note maps share no key. *)
Lemma notes_disjoint (k : string) (v : spec_float) :
  dict_get CHANNEL2_NOTES k = Some v -> dict_get CHANNEL1_NOTES k = None.
Proof.
  intros Hk%dict_get_key. cbn in Hk.
  repeat (destruct Hk as [<- | Hk]; [reflexivity|]). contradiction.
Qed.

Lemma silent_channel (ch : ChannelState) :
  active ch = false ->
  (forall output frames, mix_channel ch output frames = (ch, output)) /\
  (forall frames, contribution ch frames = np_zeros frames).
Proof.
  intros Hoff.
  assert (forall output frames, mix_channel ch output frames = (ch, output))
    as Hmix.
  { intros output frames. unfold mix_channel. now rewrite Hoff. }
  split; [exact Hmix|].
  intros frames. unfold contribution. now rewrite Hmix.
Qed.

(** C3.  A key-down event whose key is in a channel's note map makes the
    channel active with the mapped frequency and keeps its phase; a
    second mapped key pressed while the first is held overwrites the
    frequency and leaves the channel active.  Stated for
    [handle_key_event] of gb.py and for [on_press] of 2gb.py. *)
Theorem press_handling :
  (forall channel notes_dict event freq,
      Gb.event_type event = "down"%string ->
      dict_get notes_dict (Gb.name event) = Some freq ->
      Gb.handle_key_event channel notes_dict event
        = {| active := true; frequency := freq; phase := phase channel |}) /\
  (forall channel notes_dict first second freq1 freq2,
      Gb.event_type first = "down"%string ->
      Gb.event_type second = "down"%string ->
      dict_get notes_dict (Gb.name first) = Some freq1 ->
      dict_get notes_dict (Gb.name second) = Some freq2 ->
      Gb.handle_key_event (Gb.handle_key_event channel notes_dict first)
                          notes_dict second
        = {| active := true; frequency := freq2; phase := phase channel |}) /\
  (forall g char freq,
      dict_get CHANNEL1_NOTES (Gb2.lower char) = Some freq ->
      Gb2.on_press g (Gb2.KeyCode (Some char))
        = {| CH1 := {| active := true; frequency := freq;
                       phase := phase (CH1 g) |};
             CH2 := CH2 g; WAV_BUFFER := WAV_BUFFER g;
             QUIT_FLAG := QUIT_FLAG g |}) /\
  (forall g char freq,
      dict_get CHANNEL2_NOTES (Gb2.lower char) = Some freq ->
      Gb2.on_press g (Gb2.KeyCode (Some char))
        = {| CH1 := CH1 g;
             CH2 := {| active := true; frequency := freq;
                       phase := phase (CH2 g) |};
             WAV_BUFFER := WAV_BUFFER g; QUIT_FLAG := QUIT_FLAG g |}) /\
  (forall g first second freq1 freq2,
      dict_get CHANNEL1_NOTES (Gb2.lower first) = Some freq1 ->
      dict_get CHANNEL1_NOTES (Gb2.lower second) = Some freq2 ->
      CH1 (Gb2.on_press (Gb2.on_press g (Gb2.KeyCode (Some first)))
                        (Gb2.KeyCode (Some second)))
        = {| active := true; frequency := freq2; phase := phase (CH1 g) |}).
Proof.
  assert (forall channel notes_dict event freq,
      Gb.event_type event = "down"%string ->
      dict_get notes_dict (Gb.name event) = Some freq ->
      Gb.handle_key_event channel notes_dict event
        = {| active := true; frequency := freq; phase := phase channel |})
    as Hdown.
  { intros channel notes_dict event freq Hty Hget.
    unfold Gb.handle_key_event. now rewrite Hty, Hget. }
  repeat split.
  - exact Hdown.
  - intros channel notes_dict first second freq1 freq2 Hty1 Hty2 Hget1 Hget2.
    rewrite (Hdown _ _ second freq2 Hty2 Hget2).
    now rewrite (Hdown _ _ first freq1 Hty1 Hget1).
  - intros g char freq Hget. unfold Gb2.on_press. now rewrite Hget.
  - intros g char freq Hget. unfold Gb2.on_press.
    now rewrite (notes_disjoint _ _ Hget), Hget.
  - intros g first second freq1 freq2 Hget1 Hget2. unfold Gb2.on_press.
    now rewrite Hget1, Hget2.
Qed.

Lemma press_handling_witness :
  let event := {| Gb.event_type := "down"; Gb.name := "a" |} in
  Gb.event_type event = "down"%string /\
  dict_get CHANNEL1_NOTES (Gb.name event) = Some (B64.lit 26163 100) /\
  Gb.handle_key_event ChannelState_init CHANNEL1_NOTES event
    = {| active := true; frequency := B64.lit 26163 100;
         phase := phase ChannelState_init |}.
Proof.
  cbv zeta. split; [reflexivity|]. split; [reflexivity|].
  apply (proj1 press_handling); reflexivity.
Defined.

(** C4.  A key-up event whose key is in a channel's note map switches
    the channel off, whatever frequency is stored (the released key need
    not be the sounding one); frequency and phase are kept, and the
    channel then adds nothing to the next block: its contribution is all
    zeros.  Stated for gb.py and 2gb.py.  The block rendered next is the
    other channel's contribution alone, and silence when the other
    channel is off as well. *)
Theorem release_quirk :
  (forall channel notes_dict event,
      Gb.event_type event = "up"%string ->
      dict_in (Gb.name event) notes_dict = true ->
      let channel' := Gb.handle_key_event channel notes_dict event in
      channel' = {| active := false; frequency := frequency channel;
                    phase := phase channel |} /\
      (forall output frames,
          mix_channel channel' output frames = (channel', output)) /\
      (forall frames, contribution channel' frames = np_zeros frames)) /\
  (forall g char,
      dict_in (Gb2.lower char) CHANNEL1_NOTES = true ->
      let g' := fst (Gb2.on_release g (Gb2.KeyCode (Some char))) in
      CH1 g' = {| active := false; frequency := frequency (CH1 g);
                  phase := phase (CH1 g) |} /\
      (forall frames, contribution (CH1 g') frames = np_zeros frames)) /\
  (forall g char,
      dict_in (Gb2.lower char) CHANNEL2_NOTES = true ->
      let g' := fst (Gb2.on_release g (Gb2.KeyCode (Some char))) in
      CH2 g' = {| active := false; frequency := frequency (CH2 g);
                  phase := phase (CH2 g) |} /\
      (forall frames, contribution (CH2 g') frames = np_zeros frames)) /\
  (forall g frames,
      (active (CH1 g) = false ->
       rendered_block g frames
         = map (np_clip minus_one one) (contribution (CH2 g) frames)) /\
      (active (CH2 g) = false ->
       rendered_block g frames
         = map (np_clip minus_one one) (contribution (CH1 g) frames)) /\
      (active (CH1 g) = false -> active (CH2 g) = false ->
       rendered_block g frames = np_zeros frames)).
Proof.
  split; [|split; [|split]].
  - intros channel notes_dict event Hty Hin channel'.
    assert (channel' = {| active := false; frequency := frequency channel;
                          phase := phase channel |}) as ->.
    { subst channel'. unfold Gb.handle_key_event. now rewrite Hty, Hin. }
    split; [reflexivity|]. now apply silent_channel.
  - intros g char Hin g'.
    assert (CH1 g' = Gb2.deactivate (CH1 g)) as ->.
    { subst g'. unfold Gb2.on_release. cbn [fst]. now rewrite Hin. }
    split; [reflexivity|]. now apply silent_channel.
  - intros g char Hin g'.
    assert (dict_in (Gb2.lower char) CHANNEL1_NOTES = false) as Hout.
    { apply dict_in_get in Hin as [v Hv].
      unfold dict_in. now rewrite (notes_disjoint _ _ Hv). }
    assert (CH2 g' = Gb2.deactivate (CH2 g)) as ->.
    { subst g'. unfold Gb2.on_release. cbn [fst]. now rewrite Hout, Hin. }
    split; [reflexivity|]. now apply silent_channel.
  - intros g frames. unfold rendered_block, contribution. split; [|split].
    + intros Hoff. now rewrite (proj1 (silent_channel (CH1 g) Hoff)).
    + intros Hoff. now rewrite (proj1 (silent_channel (CH2 g) Hoff)).
    + intros Hoff1 Hoff2.
      rewrite (proj1 (silent_channel (CH1 g) Hoff1)).
      rewrite (proj1 (silent_channel (CH2 g) Hoff2)). cbn [snd].
      unfold np_zeros. induction frames as [|frames IH]; [reflexivity|].
      cbn [repeat map]. now rewrite IH.
Qed.

(** The key [a] is released while the frequency of [s] is the stored
    one: the channel falls silent all the same. *)
Lemma release_quirk_witness :
  let sounding := {| active := true; frequency := B64.lit 29366 100;
                     phase := B64.zero |} in
  let event := {| Gb.event_type := "up"; Gb.name := "a" |} in
  Gb.event_type event = "up"%string /\
  dict_in (Gb.name event) CHANNEL1_NOTES = true /\
  Gb.handle_key_event sounding CHANNEL1_NOTES event
    = {| active := false; frequency := B64.lit 29366 100;
         phase := B64.zero |}.
Proof.
  cbv zeta. split; [reflexivity|]. split; [reflexivity|].
  apply (proj1 release_quirk); reflexivity.
Defined.

Lemma dict_in_false {V : Type} (d : list (string * V)) (k : string) :
  dict_in k d = false -> dict_get d k = None.
Proof. unfold dict_in. now destruct (dict_get d k). Qed.

Lemma handle_key_event_unmapped (channel : ChannelState)
    (notes_dict : list (string * spec_float)) (event : Gb.KeyboardEvent) :
  dict_get notes_dict (Gb.name event) = None ->
  Gb.handle_key_event channel notes_dict event = channel.
Proof.
  intros Hget. unfold Gb.handle_key_event, dict_in. rewrite Hget.
  destruct (String.eqb _ "down"%string); [reflexivity|].
  now destruct (String.eqb _ "up"%string).
Qed.

(** C8.  An event whose key is in neither note map leaves both channel
    states as they were, field for field.  In gb.py the two hooks return
    the globals unchanged, for any event type, and the quit key is only
    polled by the main loop, which sets the quit flag alone.  In 2gb.py
    [on_press] and [on_release] change nothing for such a key, except
    that pressing [q] sets the quit flag; keys without a character are
    ignored. *)
Theorem unmapped_key_frame :
  (forall g event,
      dict_in (Gb.name event) CHANNEL1_NOTES = false ->
      dict_in (Gb.name event) CHANNEL2_NOTES = false ->
      Gb.hooks g event = g) /\
  (forall g q_pressed,
      CH1 (Gb.main_loop_step g q_pressed) = CH1 g /\
      CH2 (Gb.main_loop_step g q_pressed) = CH2 g) /\
  (forall g char,
      dict_in (Gb2.lower char) CHANNEL1_NOTES = false ->
      dict_in (Gb2.lower char) CHANNEL2_NOTES = false ->
      CH1 (Gb2.on_press g (Gb2.KeyCode (Some char))) = CH1 g /\
      CH2 (Gb2.on_press g (Gb2.KeyCode (Some char))) = CH2 g /\
      WAV_BUFFER (Gb2.on_press g (Gb2.KeyCode (Some char))) = WAV_BUFFER g /\
      QUIT_FLAG (Gb2.on_press g (Gb2.KeyCode (Some char)))
        = (String.eqb (Gb2.lower char) "q"%string || QUIT_FLAG g) /\
      fst (Gb2.on_release g (Gb2.KeyCode (Some char))) = g) /\
  (forall g key,
      (forall char, key <> Gb2.KeyCode (Some char)) ->
      Gb2.on_press g key = g /\ fst (Gb2.on_release g key) = g).
Proof.
  split; [|split; [|split]].
  - intros [ch1 ch2 buffer quit] event H1%dict_in_false H2%dict_in_false.
    unfold Gb.hooks. cbn [CH1 CH2 WAV_BUFFER QUIT_FLAG].
    now rewrite !handle_key_event_unmapped.
  - intros g q_pressed. unfold Gb.main_loop_step. now destruct q_pressed.
  - intros g char H1 H2.
    unfold Gb2.on_release, Gb2.on_press. cbn [fst]. rewrite H1, H2.
    apply dict_in_false in H1, H2. rewrite H1, H2.
    destruct (String.eqb _ "q"%string); now destruct g.
  - intros g key Hkey.
    destruct key as [[char|]|special]; [now elim (Hkey char) | |]; now split.
Qed.

Lemma unmapped_key_frame_witness :
  let event := {| Gb.event_type := "down"; Gb.name := "q" |} in
  dict_in (Gb.name event) CHANNEL1_NOTES = false /\
  dict_in (Gb.name event) CHANNEL2_NOTES = false /\
  Gb.hooks Globals_init event = Globals_init.
Proof.
  cbv zeta. split; [reflexivity|]. split; [reflexivity|].
  apply (proj1 unmapped_key_frame); reflexivity.
Defined.

(** ** Flush *)

Lemma ltb_leb (x y : spec_float) : B64.ltb x y = true -> B64.leb x y = true.
Proof.
  unfold B64.ltb, B64.leb, SFltb, SFleb.
  now destruct (SFcompare x y) as [[]|].
Qed.

(** Whatever is not a NaN is clipped into [-1.0, 1.0]. *)
Lemma clip_in_unit_range (x : spec_float) :
  B64.is_nan x = false -> in_unit_range (np_clip minus_one one x) = true.
Proof.
  intros Hn. unfold np_clip. rewrite Hn.
  destruct (B64.ltb minus_one x) eqn:Hlo; [|reflexivity].
  rewrite Hn. destruct (B64.ltb x one) eqn:Hhi; [|reflexivity].
  unfold in_unit_range. now rewrite !ltb_leb.
Qed.

Lemma astype_int16_trunc (x : spec_float) (z : Z) :
  astype_int16 x = Some z ->
  B64.trunc x = Some z /\ (-32768 <= z <= 32767)%Z.
Proof.
  unfold astype_int16. destruct (B64.trunc x) as [t|]; [|discriminate].
  destruct (andb _ _) eqn:Hrange; [|discriminate].
  intros [= <-]. split; [reflexivity|]. lia.
Qed.

(** *** Every sample that is not a NaN converts *)

Section Conversion.
Local Open Scope Z_scope.

Lemma one_double : one = S754_finite false 4503599627370496 (-52).
Proof. vm_compute. reflexivity. Qed.

Lemma minus_one_double :
  minus_one = S754_finite true 4503599627370496 (-52).
Proof. vm_compute. reflexivity. Qed.

Lemma scale_double :
  B64.of_Z 32767 = S754_finite false 9006924376834048 (-38).
Proof. vm_compute. reflexivity. Qed.

Lemma to_f32_digits (x : spec_float) :
  B64.is_nan x = false ->
  match B64.to_f32 x with
  | S754_finite _ m _ => Zpos (digits2_pos m) <= 53
  | S754_nan => False
  | _ => True
  end.
Proof.
  intros Hx. destruct x as [s|s| |s m e]; try discriminate; cbn; trivial.
  unfold B64.to_f32.
  pose proof (binary_round_sign 24 128 s m e) as H32.
  destruct (binary_round 24 128 s m e) as [s'|s'| |s' m' e']; trivial.
  pose proof (binary_round_sign B64.prec B64.emax s' m' e') as Hsign.
  pose proof (binary_round_digits B64.prec B64.emax eq_refl s' m' e')
    as Hdigits.
  destruct (binary_round B64.prec B64.emax s' m' e'); trivial.
Qed.

Lemma to_f32_within (B : Z) (x : spec_float) :
  0 <= B < 2 ^ 15 ->
  magnitude_le B x -> magnitude_le B (B64.to_f32 x).
Proof.
  intros HB Hx. destruct x as [s|s| |s m e]; try contradiction; trivial.
  unfold B64.to_f32. cbn [magnitude_le] in Hx.
  pose proof (binary_round_within 24 128 ltac:(lia) ltac:(lia)
                B 15 HB ltac:(lia) s m e Hx) as H32.
  destruct (binary_round 24 128 s m e) as [s'|s'| |s' m' e'].
  - exact I.
  - contradiction.
  - contradiction.
  - destruct H32 as [_ H32].
    pose proof (binary_round_within B64.prec B64.emax
                  ltac:(unfold B64.prec, B64.emax; lia)
                  ltac:(unfold B64.prec, B64.emax; lia)
                  B 15 HB ltac:(unfold B64.prec; lia) s' m' e' H32) as H64.
    destruct (binary_round B64.prec B64.emax s' m' e');
      cbn [magnitude_le]; trivial.
    now destruct H64.
Qed.

(** Clipping leaves a float of magnitude at most 1. *)
Lemma clip_within (x : spec_float) :
  match x with
  | S754_finite _ m _ => Zpos (digits2_pos m) <= 53
  | S754_nan => False
  | _ => True
  end ->
  magnitude_le 1 (np_clip minus_one one x).
Proof.
  intros Hx. unfold np_clip. rewrite one_double, minus_one_double.
  destruct x as [s|s| |s m e]; try contradiction.
  - now destruct s.
  - destruct s; cbn; unfold within; lia.
  - cbn [B64.is_nan].
    destruct (B64.ltb _ (S754_finite s m e)) eqn:Hlo;
      [|cbn; unfold within; lia].
    cbn [B64.is_nan].
    destruct (B64.ltb (S754_finite s m e) _) eqn:Hhi;
      [|cbn; unfold within; lia].
    cbn [magnitude_le]. unfold within.
    pose proof (digits_gt m) as Hgt.
    assert (2 ^ Zpos (digits2_pos m) <= 2 ^ 53) as Hpow
      by (apply Z.pow_le_mono_r; lia).
    destruct s.
    + (* negative: [-1.0 < x] *)
      clear Hhi. unfold B64.ltb, SFltb in Hlo. cbn [SFcompare] in Hlo.
      destruct (Z.compare_spec (-52) e) as [<-|Hlt|Hgt']; try discriminate.
      * rewrite Pos.compare_cont_spec in Hlo. cbn [Pos.switch_Eq] in Hlo.
        destruct (Pos.compare_spec 4503599627370496 m) as [|Hc|Hc];
          try discriminate.
        apply Pos2Z.pos_lt_pos in Hc. change (- -52) with 52.
        change (2 ^ 52) with 4503599627370496. lia.
      * split; [lia|]. split; [lia|].
        assert (2 ^ 53 <= 2 ^ (- e)) by (apply Z.pow_le_mono_r; lia). lia.
    + (* positive: [x < 1.0] *)
      clear Hlo. unfold B64.ltb, SFltb in Hhi. cbn [SFcompare] in Hhi.
      destruct (Z.compare_spec e (-52)) as [->|Hlt|Hgt']; try discriminate.
      * rewrite Pos.compare_cont_spec in Hhi. cbn [Pos.switch_Eq] in Hhi.
        destruct (Pos.compare_spec m 4503599627370496) as [|Hc|Hc];
          try discriminate.
        apply Pos2Z.pos_lt_pos in Hc. change (- -52) with 52.
        change (2 ^ 52) with 4503599627370496. lia.
      * split; [lia|]. split; [lia|].
        assert (2 ^ 53 <= 2 ^ (- e)) by (apply Z.pow_le_mono_r; lia). lia.
Qed.

Lemma scale_within (c : spec_float) :
  magnitude_le 1 c -> magnitude_le 32767 (B64.mul c (B64.of_Z 32767)).
Proof.
  intros Hc. rewrite scale_double.
  destruct c as [s|s| |s m e]; try contradiction; [exact I|].
  unfold B64.mul, SFmul. cbn [magnitude_le] in Hc.
  destruct Hc as (He & _ & Hm).
  assert (within 32767 (Zpos (m * 9006924376834048)) (e + -38)) as Hin.
  { unfold within. split; [lia|]. split; [lia|].
    rewrite Pos2Z.inj_mul.
    replace (- (e + -38)) with (- e + 38) by lia.
    rewrite Z.pow_add_r by lia.
    change (2 ^ 38) with 274877906944. lia. }
  pose proof (binary_round_aux_within B64.prec B64.emax
                ltac:(unfold B64.prec, B64.emax; lia)
                ltac:(unfold B64.prec, B64.emax; lia)
                32767 15 ltac:(lia) ltac:(unfold B64.prec; lia)
                (xorb s false) _ _ Hin) as Hround.
  destruct (binary_round_aux _ _ _ _ _ _);
    cbn [magnitude_le]; trivial.
  now destruct Hround.
Qed.

Lemma astype_within (x : spec_float) :
  magnitude_le 32767 x ->
  exists z, astype_int16 x = Some z /\ -32767 <= z <= 32767.
Proof.
  intros Hx. destruct x as [s|s| |s m e]; try contradiction.
  - exists 0. now split.
  - cbn [magnitude_le] in Hx. destruct Hx as (He & _ & Hm).
    unfold astype_int16, B64.trunc.
    assert (exists q, match e with
                      | Zneg p => Zpos m / 2 ^ Zpos p
                      | _ => Zpos m * 2 ^ e
                      end = q /\ 0 <= q <= 32767) as (q & -> & Hq).
    { destruct e as [|p|p]; [| lia |].
      - eexists. split; [reflexivity|]. cbn in Hm. lia.
      - eexists. split; [reflexivity|]. change (- Zneg p) with (Zpos p) in Hm.
        assert (0 < 2 ^ Zpos p) by (apply Z.pow_pos_nonneg; lia).
        split; [apply Z.div_pos; lia|].
        apply Z.div_le_upper_bound; lia. }
    destruct s.
    + exists (- q). split; [|lia].
      replace ((-32768 <=? - q) && (- q <=? 32767))%bool with true; trivial.
      symmetry. apply andb_true_iff. split; apply Z.leb_le; lia.
    + exists q. split; [|lia].
      replace ((-32768 <=? q) && (q <=? 32767))%bool with true; trivial.
      symmetry. apply andb_true_iff. split; apply Z.leb_le; lia.
Qed.

(** Whatever a sample of the capture buffer is, short of a NaN, it is
    written as an integer between -32767 and 32767. *)
Lemma to_pcm_defined (x : spec_float) :
  B64.is_nan x = false ->
  exists z, to_pcm x = Some z /\ -32767 <= z <= 32767.
Proof.
  intros Hx. unfold to_pcm. apply astype_within.
  apply to_f32_within; [lia|]. apply scale_within, clip_within.
  now apply to_f32_digits.
Qed.

End Conversion.

Lemma level_to_pcm (x : spec_float) :
  In x levels ->
  let clipped := np_clip minus_one one (B64.to_f32 x) in
  let scaled := B64.to_f32 (B64.mul clipped (B64.of_Z 32767)) in
  in_unit_range clipped = true /\
  B64.leb (B64.of_Z (-32767)) scaled = true /\
  B64.leb scaled (B64.of_Z 32767) = true /\
  exists z, B64.trunc scaled = Some z /\
            (-32767 <= z <= 32767)%Z /\
            to_pcm x = Some z.
Proof.
  unfold levels. cbn [In].
  intros [<- | [<- | [<- | [<- | [<- | []]]]]]; cbv zeta;
    (split; [reflexivity|]); (split; [reflexivity|]); (split; [reflexivity|]).
  - exists 0%Z. repeat split; try lia; reflexivity.
  - exists 16383%Z. repeat split; try lia; reflexivity.
  - exists (-16383)%Z. repeat split; try lia; reflexivity.
  - exists 32767%Z. repeat split; try lia; reflexivity.
  - exists (-32767)%Z. repeat split; try lia; reflexivity.
Qed.

(** *** The cast truncates toward zero *)

Section Cast.
Local Open Scope Z_scope.

(** The cast to an integer is the quotient toward zero of the value. *)
Lemma trunc_quot (x : spec_float) :
  match x with
  | S754_zero _ => True
  | S754_finite _ _ e => -1074 <= e
  | _ => False
  end ->
  B64.trunc x = Some (Z.quot (ticks x) (2 ^ 1074)).
Proof.
  destruct x as [s|s| |s m e]; try contradiction; [reflexivity|].
  intros He. cbn [B64.trunc ticks]. f_equal.
  assert (0 < 2 ^ 1074) as Hc by (apply Z.pow_pos_nonneg; lia).
  assert (forall q a, 0 <= q -> a = q * 2 ^ 1074 ->
             (if s then - q else q)
             = Z.quot ((if s then - a else a)) (2 ^ 1074)) as Hmul.
  { intros q a Hq ->. destruct s.
    - rewrite <- Z.mul_opp_l, Z.quot_mul by lia. reflexivity.
    - rewrite Z.quot_mul by lia. reflexivity. }
  destruct e as [|p|p].
  - replace ((if s then - Zpos m else Zpos m) * 2 ^ (0 + 1074))
      with (if s then - (Zpos m * 2 ^ 1074) else Zpos m * 2 ^ 1074)
      by (destruct s; cbn [Z.add]; ring).
    rewrite Z.pow_0_r, Z.mul_1_r. apply Hmul; lia.
  - replace ((if s then - Zpos m else Zpos m) * 2 ^ (Zpos p + 1074))
      with (if s then - (Zpos m * 2 ^ Zpos p * 2 ^ 1074)
            else Zpos m * 2 ^ Zpos p * 2 ^ 1074)
      by (rewrite Z.pow_add_r by lia; destruct s; ring).
    apply Hmul; [|reflexivity].
    apply Z.mul_nonneg_nonneg; [lia|]. apply Z.pow_nonneg. lia.
  - assert (2 ^ 1074 = 2 ^ Zpos p * 2 ^ (Zneg p + 1074)) as Hsplit.
    { rewrite <- Z.pow_add_r by lia. f_equal. lia. }
    assert (0 < 2 ^ Zpos p) by (apply Z.pow_pos_nonneg; lia).
    assert (0 < 2 ^ (Zneg p + 1074)) by (apply Z.pow_pos_nonneg; lia).
    assert (Zpos m * 2 ^ (Zneg p + 1074) / 2 ^ 1074 = Zpos m / 2 ^ Zpos p)
      as Hdiv.
    { rewrite Hsplit. apply Z.div_mul_cancel_r; lia. }
    assert (0 <= Zpos m * 2 ^ (Zneg p + 1074)) as Hnn by lia.
    destruct s.
    + rewrite Z.mul_opp_l, Z.quot_opp_l by lia.
      rewrite Z.quot_div_nonneg by lia. now rewrite Hdiv.
    + rewrite Z.quot_div_nonneg by lia. now rewrite Hdiv.
Qed.

(** Every sample that is not a NaN is written as the integer part,
    toward zero, of its clipped and scaled [float32] value. *)
Lemma to_pcm_truncates (x : spec_float) :
  B64.is_nan x = false ->
  let scaled :=
    B64.to_f32 (B64.mul (np_clip minus_one one (B64.to_f32 x))
                        (B64.of_Z 32767)) in
  to_pcm x = Some (Z.quot (ticks scaled) (2 ^ 1074)) /\
  -32767 <= Z.quot (ticks scaled) (2 ^ 1074) <= 32767.
Proof.
  intros Hx scaled.
  assert (magnitude_le 32767 scaled) as Hscale.
  { apply to_f32_within; [lia|]. apply scale_within, clip_within.
    now apply to_f32_digits. }
  destruct (astype_within _ Hscale) as (z & Hz & Hrange).
  pose proof (astype_int16_trunc _ _ Hz) as [Htrunc _].
  assert (B64.trunc scaled = Some (Z.quot (ticks scaled) (2 ^ 1074))) as Hq.
  { apply trunc_quot.
    assert (match scaled with
            | S754_finite _ _ e => -1074 <= e
            | _ => True
            end) as Hmin.
    { subst scaled. unfold B64.to_f32 at 1.
      destruct (B64.mul _ _) as [s|s| |s m e]; trivial.
      destruct (binary_round 24 128 s m e) as [s'|s'| |s' m' e']; trivial.
      exact (binary_round_emin B64.prec B64.emax s' m' e'). }
    destruct scaled; trivial; contradiction. }
  rewrite Hq in Htrunc. injection Htrunc as <-.
  split; [exact Hz | exact Hrange].
Qed.

End Cast.

Lemma level_pcm (x : spec_float) :
  In x levels -> In (to_pcm x) pcm_levels.
Proof.
  unfold levels, pcm_levels. cbn [In].
  intros [<- | [<- | [<- | [<- | [<- | []]]]]]; vm_compute; tauto.
Qed.

Lemma to_pcm_all (buffer : list spec_float) :
  Forall (fun x => B64.is_nan x = false) buffer ->
  exists samples : list Z,
    length samples = length buffer /\
    Forall (fun z => (-32767 <= z <= 32767)%Z) samples /\
    map to_pcm buffer = map Some samples.
Proof.
  induction buffer as [|x l IH]; intros Hnan.
  - exists []. repeat split. constructor.
  - inversion Hnan as [|? ? Hx Hl]; subst.
    destruct (IH Hl) as (zs & Hlen & Hrange & Hmap).
    destruct (to_pcm_defined x Hx) as (z & Hz & Hzr).
    exists (z :: zs). cbn [length map]. rewrite Hz, Hmap, Hlen.
    repeat split. now constructor.
Qed.

(** C7.  With a non-empty capture buffer, flush writes one file: mono,
    16 bits, at the sample rate 44100, whose samples are the buffer's
    samples converted to [float32], clipped to [-1.0, 1.0], multiplied by
    32767 and cast to [int16], and it reports the save.  The cast is a
    truncation toward zero: every sample that is not a NaN is written as
    the integer quotient, toward zero, of its scaled value (the value in
    ticks divided by [2^1074]), an integer between -32767 and 32767; a
    buffer without NaN is written as a list of such integers, one per
    sample.  With an empty buffer flush writes no file and reports that
    no data was recorded.  After any session of render calls and key
    events every sample is written as one of 0, 16383, -16383, 32767 and
    -32767. *)
Theorem flush_behaviour (g : Globals) :
  (WAV_BUFFER g <> [] ->
   flush g =
     (Some {| wav_filename := "gameboy_audio.wav";
              wav_rate := 44100;
              wav_channels := 1;
              wav_bits := 16;
              wav_data :=
                map (fun x =>
                       astype_int16
                         (B64.to_f32
                            (B64.mul (np_clip minus_one one (B64.to_f32 x))
                                     (B64.of_Z 32767))))
                    (WAV_BUFFER g) |},
      "Audio saved to gameboy_audio.wav"%string) /\
   (forall x, In x (WAV_BUFFER g) -> B64.is_nan (B64.to_f32 x) = false ->
      in_unit_range (np_clip minus_one one (B64.to_f32 x)) = true) /\
   (forall x z, In x (WAV_BUFFER g) -> to_pcm x = Some z ->
      B64.trunc (B64.to_f32 (B64.mul (np_clip minus_one one (B64.to_f32 x))
                                     (B64.of_Z 32767))) = Some z /\
      (-32768 <= z <= 32767)%Z) /\
   (forall x, In x (WAV_BUFFER g) -> B64.is_nan x = false ->
      let scaled :=
        B64.to_f32 (B64.mul (np_clip minus_one one (B64.to_f32 x))
                            (B64.of_Z 32767)) in
      to_pcm x = Some (Z.quot (ticks scaled) (2 ^ 1074)) /\
      (-32767 <= Z.quot (ticks scaled) (2 ^ 1074) <= 32767)%Z) /\
   (Forall (fun x => B64.is_nan x = false) (WAV_BUFFER g) ->
    exists samples : list Z,
      length samples = length (WAV_BUFFER g) /\
      Forall (fun z => (-32767 <= z <= 32767)%Z) samples /\
      option_map wav_data (fst (flush g)) = Some (map Some samples))) /\
  (WAV_BUFFER g = [] ->
   flush g = (None, "No audio data recorded"%string)) /\
  (forall actions x,
      g = session Globals_init actions ->
      In x (WAV_BUFFER g) -> In (to_pcm x) pcm_levels).
Proof.
  split; [|split].
  - intros Hne. split; [|split; [|split; [|split]]].
    + unfold flush, wav_write. destruct (WAV_BUFFER g); [contradiction|].
      reflexivity.
    + intros x _. apply clip_in_unit_range.
    + intros x z _. unfold to_pcm. apply astype_int16_trunc.
    + intros x _. apply to_pcm_truncates.
    + intros Hnan.
      destruct (to_pcm_all (WAV_BUFFER g) Hnan) as (samples & Hlen & Hrange & Hmap).
      exists samples. split; [exact Hlen|]. split; [exact Hrange|].
      unfold flush. destruct (WAV_BUFFER g) eqn:Hbuf; [contradiction|].
      cbn [fst option_map wav_write wav_data]. now rewrite Hmap.
  - intros Hnil. unfold flush. now rewrite Hnil.
  - intros actions x -> Hx. apply level_pcm.
    destruct (session_buffer actions Globals_init) as (captured & Heq & _ & Hlev).
    rewrite Heq in Hx. cbn [WAV_BUFFER Globals_init app] in Hx.
    now apply Hlev.
Qed.

(** The file written for a buffer holding the five levels and [0.75]:
    [0.5 * 32767 = 16383.5] is written as 16383 and [-16383.5] as
    -16383, toward zero; and the empty session. *)
Lemma flush_behaviour_witness :
  let g := {| CH1 := ChannelState_init; CH2 := ChannelState_init;
              WAV_BUFFER := [half; B64.opp half; one; minus_one; B64.zero;
                             B64.lit 3 4];
              QUIT_FLAG := true |} in
  WAV_BUFFER g <> [] /\
  flush g =
    (Some {| wav_filename := "gameboy_audio.wav";
             wav_rate := 44100;
             wav_channels := 1;
             wav_bits := 16;
             wav_data := [Some 16383; Some (-16383); Some 32767;
                          Some (-32767); Some 0; Some 24575]%Z |},
     "Audio saved to gameboy_audio.wav"%string) /\
  WAV_BUFFER Globals_init = [] /\
  flush Globals_init = (None, "No audio data recorded"%string).
Proof.
  cbv zeta.
  assert (WAV_BUFFER {| CH1 := ChannelState_init; CH2 := ChannelState_init;
                        WAV_BUFFER := [half; B64.opp half; one; minus_one;
                                       B64.zero; B64.lit 3 4];
                        QUIT_FLAG := true |} <> [])
    as Hne by discriminate.
  split; [exact Hne|]. split.
  - rewrite (proj1 (proj1 (flush_behaviour _) Hne)). vm_compute. reflexivity.
  - split; [reflexivity|].
    apply (proj1 (proj2 (flush_behaviour Globals_init))). reflexivity.
Defined.

(** C10.  Whatever a sample of the capture buffer is, short of a NaN,
    after the clip its magnitude is at most 1, its [float32] product with
    32767 has magnitude at most 32767, and the cast to [int16] is defined
    and yields the truncation of that product, between -32767 and 32767:
    nothing wraps.  And after any session of render calls and key events
    started with an empty buffer, whatever the channel states were, no
    sample of the buffer is a NaN: each is one of the five levels, and
    its product lies in [-32767, 32767] by the comparisons of binary64 as
    well. *)
Theorem flush_no_overflow :
  (forall x : spec_float,
      B64.is_nan x = false ->
      let clipped := np_clip minus_one one (B64.to_f32 x) in
      let scaled := B64.to_f32 (B64.mul clipped (B64.of_Z 32767)) in
      magnitude_le 1 clipped /\
      magnitude_le 32767 scaled /\
      exists z, B64.trunc scaled = Some z /\
                (-32767 <= z <= 32767)%Z /\
                to_pcm x = Some z) /\
  (forall (ch1 ch2 : ChannelState) (quit : bool) (actions : list Action),
      let g := session
                 {| CH1 := ch1; CH2 := ch2; WAV_BUFFER := [];
                    QUIT_FLAG := quit |}
                 actions in
      Forall (fun x =>
                let clipped := np_clip minus_one one (B64.to_f32 x) in
                let scaled := B64.to_f32 (B64.mul clipped (B64.of_Z 32767)) in
                B64.is_nan x = false /\
                in_unit_range clipped = true /\
                B64.leb (B64.of_Z (-32767)) scaled = true /\
                B64.leb scaled (B64.of_Z 32767) = true /\
                exists z, B64.trunc scaled = Some z /\
                          (-32767 <= z <= 32767)%Z /\
                          to_pcm x = Some z)
             (WAV_BUFFER g)).
Proof.
  split.
  - intros x Hx. cbv zeta.
    assert (magnitude_le 1 (np_clip minus_one one (B64.to_f32 x))) as Hclip
      by now apply clip_within, to_f32_digits.
    assert (magnitude_le 32767
              (B64.to_f32 (B64.mul (np_clip minus_one one (B64.to_f32 x))
                                   (B64.of_Z 32767)))) as Hscale
      by (apply to_f32_within; [lia|]; now apply scale_within).
    split; [exact Hclip|]. split; [exact Hscale|].
    destruct (astype_within _ Hscale) as (z & Hz & Hrange).
    exists z. split; [|split; [exact Hrange | exact Hz]].
    now apply astype_int16_trunc in Hz.
  - intros ch1 ch2 quit actions g. subst g.
    destruct (session_buffer actions
                {| CH1 := ch1; CH2 := ch2; WAV_BUFFER := [];
                   QUIT_FLAG := quit |}) as (captured & -> & _ & Hlev).
    cbn [WAV_BUFFER app]. apply Forall_forall.
    intros x Hx%Hlev. split; [|now apply level_to_pcm].
    unfold levels in Hx. cbn [In] in Hx.
    destruct Hx as [<- | [<- | [<- | [<- | [<- | []]]]]]; reflexivity.
Qed.

Lemma flush_no_overflow_witness :
  B64.is_nan half = false /\
  exists z, to_pcm half = Some z /\ (-32767 <= z <= 32767)%Z.
Proof.
  assert (B64.is_nan half = false) as Hx by reflexivity.
  split; [exact Hx|].
  destruct (proj1 flush_no_overflow half Hx) as (_ & _ & z & _ & Hz & Hpcm).
  exists z. now split.
Defined.

(** ** The oscillator against its reference definition *)

Section ReferenceFacts.
Context {F : Type} {A : Arith F}.
Local Open Scope num_scope.

Lemma wave_is_map (f p : F) (n : nat) :
  fst (generate_square_wave f p n)
    = map (fun i => level (phase_at f p i)) (arange n).
Proof. unfold generate_square_wave. cbn [fst]. now rewrite map_map. Qed.

Lemma new_phase_is (f p : F) (n : nat) :
  snd (generate_square_wave f p n) = phase_at f p (Z.of_nat n).
Proof. reflexivity. Qed.

Lemma wave_nth (f p : F) (n i : nat) (d : F) :
  (i < n)%nat ->
  nth i (fst (generate_square_wave f p n)) d
    = level (phase_at f p (Z.of_nat i)).
Proof.
  intros Hi. rewrite wave_is_map. unfold arange. rewrite map_map.
  rewrite (nth_indep _ d (level (phase_at f p (Z.of_nat 0))))
    by now rewrite length_map, length_seq.
  rewrite (map_nth (fun k => level (phase_at f p (Z.of_nat k))) (seq 0 n) 0%nat i).
  now rewrite seq_nth.
Qed.

End ReferenceFacts.

(** *** Binary64: the range of [%] *)

Lemma fmod_range (mx : positive) (ex : Z) (my : positive) (ey : Z) :
  let r := B64.fmod (S754_finite false mx ex) (S754_finite false my ey) in
  r = S754_zero false \/
  exists m e, r = S754_finite false m e /\
              (e < ey \/ (e = ey /\ (m < my)%positive))%Z.
Proof.
  cbv zeta. unfold B64.fmod.
  set (e := Z.min ex ey).
  assert (e <= ey)%Z as Hle by (subst e; lia).
  pose proof (Z.mod_pos_bound (Zpos mx * 2 ^ (ex - e))
                              (Zpos my * 2 ^ (ey - e))) as Hbound.
  assert (0 < Zpos my * 2 ^ (ey - e))%Z as Hpos.
  { apply Z.mul_pos_pos; [lia|]. apply Z.pow_pos_nonneg; lia. }
  specialize (Hbound Hpos).
  destruct (_ mod _)%Z as [|r|r] eqn:Hr; [now left | | lia].
  right. unfold shl_align.
  destruct (fexp B64.prec B64.emax (Z.pos (digits2_pos r) + e) - e)%Z
    as [|d|d] eqn:Hshift.
  - exists r, e. split; [reflexivity|].
    destruct (Z.eq_dec e ey) as [->|Hne]; [right | left; lia].
    split; [reflexivity|].
    rewrite Z.sub_diag, Z.pow_0_r, Z.mul_1_r in Hbound. lia.
  - exists r, e. split; [reflexivity|].
    destruct (Z.eq_dec e ey) as [->|Hne]; [right | left; lia].
    split; [reflexivity|].
    rewrite Z.sub_diag, Z.pow_0_r, Z.mul_1_r in Hbound. lia.
  - eexists _, _. split; [reflexivity|]. left. lia.
Qed.

Lemma pymod_range (x : spec_float) (my : positive) (ey : Z) :
  finite_nonneg x = true ->
  let y := S754_finite false my ey in
  B64.leb B64.zero (B64.pymod x y) = true /\
  B64.ltb (B64.pymod x y) y = true.
Proof.
  intros Hx y. destruct x as [s|s| |[|] mx ex]; try discriminate.
  - now destruct s.
  - unfold B64.pymod.
    destruct (fmod_range mx ex my ey) as [Hz | (m & e & Hr & Hlt)];
      fold y in Hz || fold y in Hr.
    + rewrite Hz. now cbn.
    + rewrite Hr. cbn.
      unfold B64.ltb, SFltb, SFcompare. subst y.
      destruct Hlt as [Hlt | [-> Hlt]].
      * apply Z.compare_lt_iff in Hlt. now rewrite Hlt.
      * rewrite Z.compare_refl.
        now rewrite Pos.compare_cont_spec, (proj2 (Pos.compare_lt_iff m my) Hlt).
Qed.

(** *** Exact arithmetic: the floored remainder *)

Section ExactRemainder.
Local Open Scope R_scope.

Lemma Rrem_range (x y : R) : 0 < y -> 0 <= Rrem x y < y.
Proof.
  intros Hy. unfold Rrem.
  destruct (Zfloor_bound (x / y)) as [Hlo Hhi].
  assert (x = x / y * y) as Hx by (field; lra).
  split.
  - apply (Rmult_le_compat_r y) in Hlo; lra.
  - apply (Rmult_lt_compat_r y) in Hhi; lra.
Qed.

Lemma Rrem_period (x y : R) (k : Z) :
  y <> 0 -> Rrem (x + IZR k * y) y = Rrem x y.
Proof.
  intros Hy. unfold Rrem.
  replace ((x + IZR k * y) / y) with (x / y + IZR k) by (field; exact Hy).
  rewrite Zfloor_addz, plus_IZR. ring.
Qed.

Lemma Rrem_add (x z y : R) :
  y <> 0 -> Rrem (Rrem x y + z) y = Rrem (x + z) y.
Proof.
  intros Hy.
  replace (Rrem x y + z) with (x + z + IZR (- Zfloor (x / y)) * y).
  - now apply Rrem_period.
  - unfold Rrem. rewrite opp_IZR. ring.
Qed.


Lemma two_pi_pos : 0 < two_pi (A := exact).
Proof. unfold two_pi, np_pi. cbn. pose proof PI_RGT_0. lra. Qed.

(** Threading: starting from the phase reached after [n] samples and
    advancing [i] more is the phase of sample [n + i]. *)
Lemma phase_at_thread (f p : R) (n i : Z) :
  phase_at f (phase_at f p n) i = phase_at f p (n + i).
Proof.
  unfold phase_at. cbn [frem fadd fmul of_int exact].
  rewrite Rrem_add by (pose proof two_pi_pos; lra).
  f_equal. rewrite plus_IZR. ring.
Qed.

End ExactRemainder.

(** ** Phase continuity *)

Section Blocks.
Context {F : Type} {A : Arith F}.

Lemma seq_offset (n m s : nat) :
  map Z.of_nat (seq (n + s) m)
    = map (fun i => (Z.of_nat n + i)%Z) (map Z.of_nat (seq s m)).
Proof.
  revert s. induction m as [|m IH]; intros s; [reflexivity|].
  cbn [seq map]. f_equal; [lia|].
  rewrite <- IH. now rewrite Nat.add_succ_r.
Qed.

Lemma arange_add (n m : nat) :
  arange (n + m) = arange n ++ map (fun i => (Z.of_nat n + i)%Z) (arange m).
Proof.
  unfold arange. rewrite seq_app, map_app. f_equal.
  cbn [Nat.add]. rewrite <- (Nat.add_0_r n) at 1. apply seq_offset.
Qed.

(** In any arithmetic the first block is a prefix of the one-block
    rendering: sample [i] depends on the starting phase and [i] only. *)
Lemma wave_prefix (f p : F) (n m : nat) :
  firstn n (fst (generate_square_wave f p (n + m)))
    = fst (generate_square_wave f p n).
Proof.
  rewrite !wave_is_map, arange_add, map_app.
  rewrite firstn_app, length_map, arange_length, Nat.sub_diag.
  cbn [firstn]. rewrite app_nil_r.
  apply firstn_all2. now rewrite length_map, arange_length.
Qed.

Lemma render_blocks_length (f : F) (blocks : list nat) (p : F) :
  length (fst (render_blocks f p blocks)) = list_sum blocks.
Proof.
  revert p. induction blocks as [|n rest IH]; intros p; [reflexivity|].
  cbn [render_blocks]. change (list_sum (n :: rest)) with (n + list_sum rest).
  pose proof (wave_length f p n) as Hn.
  destruct (generate_square_wave f p n) as [wave new_phase].
  specialize (IH new_phase).
  destruct (render_blocks f new_phase rest) as [waves last_phase].
  cbn [fst] in *. now rewrite length_app, Hn, IH.
Qed.

Lemma render_blocks_first (f p : F) (n : nat) (rest : list nat) :
  firstn n (fst (render_blocks f p (n :: rest)))
    = fst (generate_square_wave f p n).
Proof.
  cbn [render_blocks].
  pose proof (wave_length f p n) as Hn.
  destruct (generate_square_wave f p n) as [wave new_phase].
  destruct (render_blocks f new_phase rest) as [waves last_phase].
  cbn [fst] in *. rewrite firstn_app, Hn, Nat.sub_diag.
  cbn [firstn]. rewrite app_nil_r. apply firstn_all2. lia.
Qed.

End Blocks.

(** Without rounding, a block of [n + m] samples is the block of [n]
    followed by the block of [m] started at the returned phase. *)
Lemma wave_split_exact (f p : R) (n m : nat) :
  fst (generate_square_wave f p (n + m))
    = fst (generate_square_wave f p n)
      ++ fst (generate_square_wave f (snd (generate_square_wave f p n)) m).
Proof.
  rewrite new_phase_is, !wave_is_map, arange_add, map_app. f_equal.
  rewrite map_map. apply map_ext. intros i.
  now rewrite phase_at_thread.
Qed.

Lemma render_blocks_exact (f : R) (blocks : list nat) (p : R) :
  fst (render_blocks f p blocks)
    = fst (generate_square_wave f p (list_sum blocks)).
Proof.
  revert p. induction blocks as [|n rest IH]; intros p; [reflexivity|].
  cbn [render_blocks]. change (list_sum (n :: rest)) with (n + list_sum rest).
  rewrite wave_split_exact.
  destruct (generate_square_wave f p n) as [wave new_phase].
  specialize (IH new_phase).
  destruct (render_blocks f new_phase rest) as [waves last_phase].
  cbn [fst snd] in *. now rewrite IH.
Qed.

(** *** The callback threads the phase the way [render_blocks] does *)

Lemma iadd_zeros (wave : list spec_float) :
  (forall x, In x wave -> x = half \/ x = B64.opp half) ->
  iadd (np_zeros (length wave)) wave = wave.
Proof.
  induction wave as [|x wave IH]; intros Hlev; [reflexivity|].
  unfold iadd, np_zeros in *. cbn [length repeat combine map fst snd].
  rewrite IH by (intros y Hy; apply Hlev; now right).
  f_equal. destruct (Hlev x (or_introl eq_refl)) as [-> | ->]; reflexivity.
Qed.

Lemma clip_wave (wave : list spec_float) :
  (forall x, In x wave -> x = half \/ x = B64.opp half) ->
  map (np_clip minus_one one) wave = wave.
Proof.
  intros Hlev. rewrite <- (map_id wave) at 2. apply map_ext_in.
  intros x Hx. destruct (Hlev x Hx) as [-> | ->]; reflexivity.
Qed.

(** While channel 1 sounds alone, a render call captures exactly the
    oscillator's block and stores the returned phase. *)
Lemma audio_callback_single (g : Globals) (frames : nat) :
  active (CH1 g) = true ->
  B64.ltb B64.zero (frequency (CH1 g)) = true ->
  active (CH2 g) = false ->
  let rendered :=
    generate_square_wave (frequency (CH1 g)) (phase (CH1 g)) frames in
  fst (audio_callback g frames)
    = {| CH1 := {| active := true; frequency := frequency (CH1 g);
                   phase := snd rendered |};
         CH2 := CH2 g;
         WAV_BUFFER := WAV_BUFFER g ++ fst rendered;
         QUIT_FLAG := QUIT_FLAG g |}.
Proof.
  intros Hon Hfreq Hoff. cbv zeta.
  unfold audio_callback, mix_channel. rewrite Hon, Hfreq, Hoff. cbn [andb].
  pose proof (wave_length (frequency (CH1 g)) (phase (CH1 g)) frames) as Hlen.
  pose proof (wave_amplitude (A := binary64) (frequency (CH1 g))
                (phase (CH1 g)) frames) as Hlev.
  destruct (generate_square_wave _ _ _) as [wave new_phase].
  cbn [fst snd] in *. subst frames.
  now rewrite (iadd_zeros _ Hlev), (clip_wave _ Hlev).
Qed.

Lemma render_session_single (blocks : list nat) (g : Globals) :
  active (CH1 g) = true ->
  B64.ltb B64.zero (frequency (CH1 g)) = true ->
  active (CH2 g) = false ->
  WAV_BUFFER (render_session g blocks)
    = WAV_BUFFER g
      ++ fst (render_blocks (frequency (CH1 g)) (phase (CH1 g)) blocks).
Proof.
  revert g. induction blocks as [|frames rest IH]; intros g Hon Hfreq Hoff.
  - cbn. now rewrite app_nil_r.
  - cbn [render_session render_blocks].
    rewrite (audio_callback_single g frames Hon Hfreq Hoff).
    destruct (generate_square_wave _ _ _) as [wave new_phase].
    rewrite IH by (cbn; trivial).
    cbn [CH1 WAV_BUFFER frequency phase fst snd].
    destruct (render_blocks _ new_phase rest) as [waves last_phase].
    cbn [fst]. now rewrite app_assoc.
Qed.

(** *** Binary64: the note G4 in blocks of 1024 frames *)

Lemma g4_sample_threaded :
  nth 1350 (fst (render_blocks (B64.lit 39200 100) B64.zero [1024; 1024]))
      B64.zero = B64.opp half.
Proof. vm_compute. reflexivity. Qed.

Lemma g4_sample_single :
  nth 1350 (fst (generate_square_wave (B64.lit 39200 100) B64.zero 2048))
      B64.zero = half.
Proof. vm_compute. reflexivity. Qed.

(** Holding the key [g] for 2048 frames is captured differently when the
    audio device asks for two blocks of 1024 frames and when it asks for
    one block of 2048. *)
Lemma capture_depends_on_blocks :
  let g := {| CH1 := {| active := true; frequency := B64.lit 39200 100;
                        phase := B64.zero |};
              CH2 := ChannelState_init; WAV_BUFFER := [];
              QUIT_FLAG := false |} in
  WAV_BUFFER (render_session g [1024; 1024])
    <> WAV_BUFFER (render_session g [2048]).
Proof.
  cbv zeta. rewrite !render_session_single by reflexivity.
  cbn [WAV_BUFFER CH1 frequency phase app].
  intros Heq.
  apply (f_equal (fun wave => nth 1350 wave B64.zero)) in Heq.
  rewrite g4_sample_threaded in Heq.
  cbn [render_blocks] in Heq.
  destruct (generate_square_wave (B64.lit 39200 100) B64.zero 2048)
    as [wave new_phase] eqn:Hwave.
  cbn [fst] in Heq. rewrite app_nil_r in Heq.
  pose proof g4_sample_single as Hsingle. rewrite Hwave in Hsingle.
  cbn [fst] in Hsingle. rewrite Hsingle in Heq. discriminate Heq.
Qed.

(** In binary64 C1 fails on the scripts' own configuration:
    the note G4 (392 Hz, key [g]) rendered from phase 0 as two blocks of
    1024 frames differs at sample 1350 from the same 2048 samples
    rendered in one call. *)
Lemma phase_continuity_binary64_counterexample :
  let f := B64.lit 39200 100 in
  B64.ltb B64.zero f = true /\
  dict_get CHANNEL1_NOTES "g" = Some f /\
  fst (render_blocks f B64.zero [1024; 1024])
    <> fst (generate_square_wave f B64.zero (list_sum [1024; 1024])) /\
  nth 1350 (fst (render_blocks f B64.zero [1024; 1024])) B64.zero
    = B64.opp half /\
  nth 1350 (fst (generate_square_wave f B64.zero 2048)) B64.zero = half.
Proof.
  cbv zeta.
  pose proof g4_sample_threaded as Hblocks.
  pose proof g4_sample_single as Hone.
  repeat split; trivial.
  intros Heq. rewrite Heq in Hblocks.
  change (list_sum [1024; 1024]) with 2048 in Hblocks.
  rewrite Hone in Hblocks. discriminate Hblocks.
Qed.

(** ** The oscillator's reference definition *)

Lemma two_pi_binary64 :
  two_pi (A := binary64) = S754_finite false 7074237752028440 (-50).
Proof. vm_compute. reflexivity. Qed.

Lemma positive_nonneg (f : spec_float) :
  B64.ltb B64.zero f = true -> nonneg_or_nan f = true.
Proof. now destruct f as [s|[|]| |[|] m e]. Qed.

Lemma finite_nonneg_nonneg (x : spec_float) :
  finite_nonneg x = true -> nonneg_or_nan x = true.
Proof. now destruct x as [s|[|]| |[|] m e]. Qed.

Lemma increment_nonneg (f : spec_float) :
  B64.ltb B64.zero f = true ->
  nonneg_or_nan (increment (A := binary64) f) = true.
Proof.
  intros Hf. unfold increment. cbn [fmul fdiv of_int binary64].
  change (B64.of_Z SAMPLE_RATE)
    with (S754_finite false 6061057848115200 (-37)).
  apply div_nonneg, mul_nonneg; [apply mul_nonneg|]; trivial.
  now apply positive_nonneg.
Qed.

(** For a positive frequency and a phase that is not negative, the
    unreduced phase is not negative either; it is a NaN or an infinity
    only if the arithmetic overflowed. *)
Lemma unreduced_nonneg (f p : spec_float) (n : nat) :
  B64.ltb B64.zero f = true ->
  nonneg_or_nan p = true ->
  nonneg_or_nan
    (B64.add p (B64.mul (B64.of_Z (Z.of_nat n)) (increment f))) = true.
Proof.
  intros Hf Hp. apply add_nonneg; [exact Hp|].
  apply mul_nonneg; [|now apply increment_nonneg].
  unfold nonneg_or_nan. rewrite of_Z_nonneg by lia. reflexivity.
Qed.

Lemma pymod_two_pi (x : spec_float) :
  nonneg_or_nan x = true ->
  let r := B64.pymod x two_pi in
  B64.is_nan r = true \/
  (B64.leb B64.zero r = true /\ B64.ltb r two_pi = true).
Proof.
  intros Hx. cbv zeta. rewrite two_pi_binary64.
  destruct x as [s|[|]| |[|] m e]; try discriminate.
  - right. now apply pymod_range.
  - now left.
  - now left.
  - right. now apply pymod_range.
Qed.

Lemma new_phase_range_binary64 (f p : spec_float) (n : nat) :
  finite_nonneg (B64.add p (B64.mul (B64.of_Z (Z.of_nat n)) (increment f)))
    = true ->
  B64.leb B64.zero (snd (generate_square_wave f p n)) = true /\
  B64.ltb (snd (generate_square_wave f p n)) two_pi = true.
Proof.
  intros Hx. rewrite new_phase_is. unfold phase_at.
  cbn [frem fadd fmul of_int binary64].
  rewrite two_pi_binary64. now apply pymod_range.
Qed.

Lemma new_phase_closed_binary64 (f p : spec_float) (n : nat) :
  B64.ltb B64.zero f = true ->
  nonneg_or_nan p = true ->
  B64.is_nan (snd (generate_square_wave f p n)) = true \/
  (B64.leb B64.zero (snd (generate_square_wave f p n)) = true /\
   B64.ltb (snd (generate_square_wave f p n)) two_pi = true).
Proof.
  intros Hf Hp. rewrite new_phase_is. unfold phase_at.
  cbn [frem fadd fmul of_int binary64].
  now apply pymod_two_pi, unreduced_nonneg.
Qed.

Lemma new_phase_range_exact (f p : R) (n : nat) :
  (0 <= snd (generate_square_wave f p n) < 2 * PI)%R.
Proof.
  rewrite new_phase_is. unfold phase_at. cbn [frem exact].
  apply Rrem_range, two_pi_pos.
Qed.

(** In binary64 the range of C2 fails for a negative starting
    phase: with the note A4 (440 Hz), one sample, and the phase just below
    minus one increment, [phase + n * increment] is a tiny negative
    number, and Python's [%] adds [2 * pi] to it, which rounds to
    [2 * pi] itself. *)
Lemma new_phase_binary64_counterexample :
  let f := B64.lit 44000 100 in
  let p := S754_finite true 4517245693812266 (-56) in
  B64.ltb B64.zero f = true /\
  (0 < 1)%nat /\
  valid_binary B64.prec B64.emax p = true /\
  snd (generate_square_wave f p 1) = two_pi /\
  B64.ltb (snd (generate_square_wave f p 1)) two_pi = false.
Proof. cbv zeta. repeat split; try lia; vm_compute; reflexivity. Qed.

(** C2 (amended).  In any arithmetic [generate_square_wave] returns [n]
    samples, sample [i] being [+0.5] when [(phase + i * increment) mod
    2 pi < pi] and [-0.5] otherwise, and the new phase [(phase + n *
    increment) mod 2 pi], with [increment = (f * 2 * pi) / 44100].  In
    binary64, for a frequency [f > 0] and a finite starting phase that is
    not negative, the new phase lies in [0, 2 pi) or is a NaN, and it
    lies in [0, 2 pi) whenever the unreduced phase [phase + n *
    increment] is finite.  In exact arithmetic the increment is
    [2 pi f / 44100] and the new phase lies in [0, 2 pi) for every
    phase. *)
Theorem oscillator_reference (f p : spec_float) (n : nat) :
  B64.ltb B64.zero f = true ->
  finite_nonneg p = true ->
  (forall (F : Type) (A : Arith F) (freq phase0 : F) (k : nat),
      length (fst (generate_square_wave freq phase0 k)) = k /\
      (forall i d, (i < k)%nat ->
         nth i (fst (generate_square_wave freq phase0 k)) d
           = level (phase_at freq phase0 (Z.of_nat i))) /\
      snd (generate_square_wave freq phase0 k)
        = phase_at freq phase0 (Z.of_nat k)) /\
  (B64.is_nan (snd (generate_square_wave f p n)) = true \/
   (B64.leb B64.zero (snd (generate_square_wave f p n)) = true /\
    B64.ltb (snd (generate_square_wave f p n)) two_pi = true)) /\
  (finite_nonneg
     (B64.add p (B64.mul (B64.of_Z (Z.of_nat n)) (increment f))) = true ->
   B64.leb B64.zero (snd (generate_square_wave f p n)) = true /\
   B64.ltb (snd (generate_square_wave f p n)) two_pi = true) /\
  (forall (freq phase0 : R) (k : nat),
      increment freq = (2 * PI * freq / 44100)%R /\
      (0 <= snd (generate_square_wave freq phase0 k) < 2 * PI)%R).
Proof.
  intros Hf Hp. split; [|split; [|split]].
  - intros F A freq phase0 k. split; [|split].
    + apply wave_length.
    + intros i d Hi. now apply wave_nth.
    + apply new_phase_is.
  - apply new_phase_closed_binary64; [exact Hf|].
    now apply finite_nonneg_nonneg.
  - apply new_phase_range_binary64.
  - intros freq phase0 k. split.
    + unfold increment, np_pi, SAMPLE_RATE.
      cbn [fmul fdiv of_int fpi exact]. field.
    + apply new_phase_range_exact.
Qed.

Lemma oscillator_reference_witness :
  B64.ltb B64.zero (B64.lit 44000 100) = true /\
  finite_nonneg B64.zero = true /\
  B64.leb B64.zero
    (snd (generate_square_wave (B64.lit 44000 100) B64.zero 1024)) = true /\
  B64.ltb (snd (generate_square_wave (B64.lit 44000 100) B64.zero 1024))
    two_pi = true.
Proof.
  assert (B64.ltb B64.zero (B64.lit 44000 100) = true) as Hf
    by (vm_compute; reflexivity).
  assert (finite_nonneg B64.zero = true) as Hp by reflexivity.
  split; [exact Hf|]. split; [exact Hp|].
  apply (proj1 (proj2 (proj2 (oscillator_reference
                                (B64.lit 44000 100) B64.zero 1024 Hf Hp)))).
  vm_compute. reflexivity.
Defined.

(** ** Phase continuity in binary64

    Blocks rendered with the phase threaded through are compared with
    one call in the arithmetic the scripts run.  Values are measured in
    ticks of [2^-1074], in which every double is an integer, the
    remainder of Python's [%] is exact, and each rounding of an
    addition or a product errs by at most two units in the last place. *)

(** *** The remainder in canonical form *)

Section Remainder.
Local Open Scope Z_scope.

Lemma digits_shift (r d : positive) :
  Zpos (digits2_pos (Pos.iter xO r d)) = Zpos (digits2_pos r) + Zpos d.
Proof.
  induction d as [|d IH] using Pos.peano_ind.
  - cbn [Pos.iter digits2_pos]. lia.
  - rewrite Pos.iter_succ. cbn [digits2_pos]. lia.
Qed.

Lemma ltb_finite (mx : positive) (ex : Z) (my : positive) (ey : Z) :
  B64.ltb (S754_finite false mx ex) (S754_finite false my ey) = true <->
  ex < ey \/ (ex = ey /\ Zpos mx < Zpos my).
Proof.
  unfold B64.ltb, SFltb, SFcompare.
  destruct (Z.compare_spec ex ey) as [->|Hlt|Hgt].
  - rewrite Pos.compare_cont_spec. cbn [Pos.switch_Eq].
    change (mx ?= my)%positive with (Zpos mx ?= Zpos my).
    destruct (Z.compare_spec (Zpos mx) (Zpos my)) as [Hm|Hm|Hm]; split;
      try discriminate; try tauto; intros [H|[_ H]]; lia.
  - split; [intros _; now left | reflexivity].
  - split; [discriminate | intros [H|[H _]]; lia].
Qed.

(** The remainder of a positive double by a positive double is [+0.0]
    or a positive double in canonical form below the divisor. *)
Lemma fmod_valid (mx : positive) (ex : Z) (my : positive) (ey : Z) :
  Zpos (digits2_pos mx) <= 53 -> emin B64.prec B64.emax <= ex ->
  Zpos (digits2_pos my) <= 53 -> emin B64.prec B64.emax <= ey ->
  ey <= B64.emax - B64.prec ->
  let y := S754_finite false my ey in
  let r := B64.fmod (S754_finite false mx ex) y in
  r = S754_zero false \/
  exists m e, r = S754_finite false m e /\
              valid_binary B64.prec B64.emax r = true /\
              B64.ltb r y = true.
Proof.
  intros Hdx Hex Hdy Hey Hmax. cbv zeta. unfold B64.fmod.
  set (e := Z.min ex ey).
  set (X := Zpos mx * 2 ^ (ex - e)). set (Y := Zpos my * 2 ^ (ey - e)).
  assert (0 < Y) as Hpos.
  { apply Z.mul_pos_pos; [lia|]. apply Z.pow_pos_nonneg; subst e; lia. }
  pose proof (Z.mod_pos_bound X Y Hpos) as Hbound.
  assert (forall m, Zpos (digits2_pos m) <= 53 -> Zpos m < 2 ^ 53) as Hsmall.
  { intros m Hd. apply Z.lt_le_trans with (2 ^ Zpos (digits2_pos m)).
    - apply digits_gt.
    - apply Z.pow_le_mono_r; lia. }
  assert (X mod Y < 2 ^ 53) as H53.
  { destruct (Z.le_ge_cases ex ey) as [Hle|Hge].
    - assert (X = Zpos mx) as HX.
      { subst X e. rewrite Z.min_l by exact Hle.
        now rewrite Z.sub_diag, Z.pow_0_r, Z.mul_1_r. }
      apply Z.le_lt_trans with X; [apply Z.mod_le; lia|].
      rewrite HX. now apply Hsmall.
    - assert (Y = Zpos my) as HY.
      { subst Y e. rewrite Z.min_r by lia.
        now rewrite Z.sub_diag, Z.pow_0_r, Z.mul_1_r. }
      apply Z.lt_trans with Y; [lia|]. rewrite HY. now apply Hsmall. }
  destruct (X mod Y) as [|r|r] eqn:Hr; [now left | right | lia].
  assert (Zpos (digits2_pos r) <= 53) as Hdr by (apply digits_le; lia).
  set (ec := fexp B64.prec B64.emax (Zpos (digits2_pos r) + e)).
  assert (ec <= e) as Hec.
  { subst ec e. unfold fexp, B64.prec in *. lia. }
  assert (e <= ey) as Hle by (subst e; lia).
  unfold shl_align. destruct (ec - e) as [|d|d] eqn:Hd; [| lia |].
  - exists r, e. split; [reflexivity|]. split.
    + cbn [valid_binary]. unfold SpecFloat.bounded, canonical_mantissa.
      apply andb_true_intro. split; [apply Z.eqb_eq | apply Z.leb_le]; lia.
    + apply ltb_finite.
      destruct (Z.eq_dec e ey) as [Heq|Hne]; [right | left; lia].
      split; [exact Heq|].
      subst Y. rewrite Heq, Z.sub_diag, Z.pow_0_r, Z.mul_1_r in Hbound. lia.
  - exists (Pos.iter xO r d), ec. split; [reflexivity|]. split.
    + cbn [valid_binary]. unfold SpecFloat.bounded, canonical_mantissa.
      change (PosDef.Pos.iter xO r d) with (Pos.iter xO r d).
      rewrite digits_shift.
      replace (Zpos (digits2_pos r) + Zpos d + ec)
        with (Zpos (digits2_pos r) + e) by lia.
      apply andb_true_intro. split; [apply Z.eqb_eq | apply Z.leb_le]; lia.
    + apply ltb_finite. left. lia.
Qed.

Lemma two_pi_shape :
  Zpos (digits2_pos 7074237752028440) <= 53 /\
  emin B64.prec B64.emax <= -50 <= B64.emax - B64.prec /\
  2 ^ 52 <= 7074237752028440 <= 7 * 2 ^ 50.
Proof. vm_compute. repeat split; discriminate. Qed.

(** Reducing a bounded positive double modulo [2 * pi] gives a phase in
    canonical form. *)
Lemma pymod_reduced (B : Z) (x : spec_float) :
  bounded_by B x -> reduced_phase (B64.pymod x two_pi) = true.
Proof.
  rewrite two_pi_binary64.
  destruct x as [s|s| |s mx ex]; cbn [bounded_by]; try contradiction.
  - now intros ->.
  - intros (-> & _ & Hd & He).
    destruct two_pi_shape as (Hdy & [Hey Hmax] & _).
    destruct (fmod_valid mx ex 7074237752028440 (-50) Hd He Hdy Hey Hmax)
      as [Hz | (m & e & Hr & Hvalid & Hlt)].
    + unfold B64.pymod. rewrite Hz. reflexivity.
    + rewrite Hr in Hvalid, Hlt.
      replace (B64.pymod _ _) with (S754_finite false m e)
        by (unfold B64.pymod; now rewrite Hr).
      cbn [reduced_phase]. now rewrite two_pi_binary64, Hvalid, Hlt.
Qed.

(** A phase in canonical form is its own remainder. *)
Lemma pymod_fixed (p : spec_float) :
  reduced_phase p = true -> B64.pymod p two_pi = p.
Proof.
  unfold reduced_phase. rewrite two_pi_binary64.
  destruct p as [[|]|s| |[|] m e]; try discriminate; [reflexivity|].
  intros [Hvalid Hlt]%andb_prop.
  cbn [valid_binary] in Hvalid.
  unfold SpecFloat.bounded, canonical_mantissa in Hvalid.
  apply andb_prop in Hvalid as [Hcanon%Z.eqb_eq _].
  apply ltb_finite in Hlt.
  assert (Zpos (digits2_pos m) <= 53) as Hd
    by (unfold fexp, B64.prec, B64.emax, emin in Hcanon; lia).
  assert (Zpos m < 2 ^ 53) as Hm53.
  { apply Z.lt_le_trans with (2 ^ Zpos (digits2_pos m)).
    - apply digits_gt.
    - apply Z.pow_le_mono_r; lia. }
  assert (B64.fmod (S754_finite false m e)
                   (S754_finite false 7074237752028440 (-50))
          = S754_finite false m e) as Hfmod.
  { unfold B64.fmod. replace (Z.min e (-50)) with e by lia.
    rewrite Z.sub_diag, Z.pow_0_r, Z.mul_1_r.
    rewrite Z.mod_small.
    - rewrite Hcanon. unfold shl_align. now rewrite Z.sub_diag.
    - split; [lia|].
      destruct Hlt as [Hlt | [-> Hlt]].
      + apply Z.lt_le_trans with (7074237752028440 * 2 ^ 1); [lia|].
        apply Z.mul_le_mono_nonneg_l; [lia|].
        apply Z.pow_le_mono_r; lia.
      + rewrite Z.sub_diag. lia. }
  unfold B64.pymod. rewrite Hfmod. reflexivity.
Qed.

(** A phase in canonical form is below seven. *)
Lemma reduced_bounded (p : spec_float) :
  reduced_phase p = true -> bounded_by 7 p.
Proof.
  unfold reduced_phase. rewrite two_pi_binary64.
  destruct p as [[|]|s| |[|] m e]; try discriminate; [reflexivity|].
  intros [Hvalid Hlt]%andb_prop.
  cbn [valid_binary] in Hvalid.
  unfold SpecFloat.bounded, canonical_mantissa in Hvalid.
  apply andb_prop in Hvalid as [Hcanon%Z.eqb_eq _].
  apply ltb_finite in Hlt.
  assert (Zpos (digits2_pos m) <= 53 /\ emin B64.prec B64.emax <= e) as [Hd He]
    by (unfold fexp, B64.prec, B64.emax, emin in *; lia).
  assert (Zpos m < 2 ^ 53) as Hm53.
  { apply Z.lt_le_trans with (2 ^ Zpos (digits2_pos m)).
    - apply digits_gt.
    - apply Z.pow_le_mono_r; lia. }
  cbn [bounded_by]. split; [reflexivity|]. split; [|now split].
  split; [lia|]. split; [lia|].
  destruct Hlt as [Hlt | [-> Hlt]].
  - apply Z.le_trans with (7 * 2 ^ 51); [lia|].
    apply Z.mul_le_mono_nonneg_l; [lia|]. apply Z.pow_le_mono_r; lia.
  - cbn. lia.
Qed.

End Remainder.

(** *** Rounding errors in ticks *)

Section Ticks.
Local Open Scope Z_scope.

(** One stage of rounding: shifting to the canonical exponent either
    changes nothing or leaves the quotient by a power of two, which
    rounding to nearest moves up by at most one. *)
Lemma stage_error (m e : Z) :
  0 <= m ->
  let s := shr_fexp B64.prec B64.emax m e loc_Exact in
  let q := shr_m (fst s) in
  let m' := round_nearest_even q (loc_of_shr_record (fst s)) in
  let e' := snd s in
  (e' = e /\ q = m /\ m' = m) \/
  (e < e' /\ e' = fexp B64.prec B64.emax (Zdigits2 m + e) /\
   q * 2 ^ (e' - e) <= m < (q + 1) * 2 ^ (e' - e) /\ q <= m' <= q + 1).
Proof.
  intros Hm0. cbv zeta. unfold shr_fexp. cbn [shr_record_of_loc].
  set (mrs := {| shr_m := m; shr_r := false; shr_s := false |}).
  set (n := fexp B64.prec B64.emax (Zdigits2 m + e) - e).
  assert (shr_exact mrs) as Hex by now split.
  destruct (shr_spec mrs e n Hm0) as [Hstay Hshift].
  destruct (Z_le_gt_dec n 0) as [Hle|Hgt].
  - left. rewrite Hstay by exact Hle. cbn [fst snd].
    rewrite round_nearest_even_exact by exact Hex. now repeat split.
  - right. destruct Hshift as (Hdiv & Hexp & _); [lia|].
    rewrite Hexp. cbn [shr_m mrs] in Hdiv. rewrite Hdiv.
    replace (e + n - e) with n by lia.
    assert (0 < 2 ^ n) as Hpow by (apply Z.pow_pos_nonneg; lia).
    pose proof (Z.div_mod m (2 ^ n) ltac:(lia)) as Hdm.
    pose proof (Z.mod_pos_bound m (2 ^ n) Hpow) as Hmb.
    pose proof (round_nearest_even_bounds 0
                  (shr_m (fst (shr mrs e n)))
                  (loc_of_shr_record (fst (shr mrs e n)))) as Hround.
    rewrite Hdiv in Hround.
    split; [lia|]. split; [subst n; lia|]. split; [nia | exact Hround].
Qed.

Lemma within_fexp_le (B k m e : Z) :
  0 <= B < 2 ^ k -> 0 <= k ->
  within B m e -> fexp B64.prec B64.emax (Zdigits2 m + e) <= k - 53.
Proof.
  intros HB Hk (He & Hm0 & Hm).
  assert (Zdigits2 m <= k - e) as Hd.
  { apply Zdigits2_le; [|lia]. split; [lia|].
    apply Z.le_lt_trans with (B * 2 ^ (- e)); [exact Hm|].
    replace (k - e) with (k + - e) by lia. rewrite Z.pow_add_r by lia.
    apply Z.mul_lt_mono_pos_r; [apply Z.pow_pos_nonneg; lia | lia]. }
  unfold fexp, emin, B64.prec, B64.emax. lia.
Qed.

Lemma two_stage (mx q1 m1 q2 a b : Z) :
  0 < a -> 0 < b ->
  q1 * a <= mx < (q1 + 1) * a -> q1 <= m1 <= q1 + 1 ->
  q2 * b <= m1 < (q2 + 1) * b ->
  Z.abs (q2 * (b * a) - mx) <= 2 * (b * a).
Proof.
  intros Ha Hb Hq1 Hm1 Hq2.
  assert (q2 * (b * a) <= m1 * a) as H1 by nia.
  assert (m1 * a <= q2 * (b * a) + (b - 1) * a) as H2 by nia.
  assert (m1 * a - a <= mx) as H3 by nia.
  assert (mx < m1 * a + a) as H4 by nia.
  assert (a <= b * a) as H5 by nia.
  lia.
Qed.

(** Rounding a magnitude below [2^k] moves it by at most two units in
    the last place of [2^k]. *)
Lemma round_aux_ticks (B k mx ex : Z) :
  0 <= B < 2 ^ k -> 0 <= k <= 53 ->
  within B mx ex -> -1074 <= ex ->
  Z.abs (ticks (binary_round_aux B64.prec B64.emax false mx ex loc_Exact)
         - mx * 2 ^ (ex + 1074)) <= 2 ^ (k + 1022).
Proof.
  intros HB Hk Hin Hex.
  pose proof (within_fexp_le B k mx ex HB (proj1 Hk) Hin) as Hf1.
  pose proof (stage_error mx ex (proj1 (proj2 Hin))) as S1.
  pose proof (shr_fexp_within B64.prec B64.emax ltac:(cbv; discriminate)
                B k HB Hk mx ex Hin) as W1.
  unfold binary_round_aux.
  destruct (shr_fexp B64.prec B64.emax mx ex loc_Exact) as [mrs' e1].
  cbv zeta in S1. cbn [fst snd] in S1, W1.
  set (q1 := shr_m mrs') in *.
  set (m1 := round_nearest_even q1 (loc_of_shr_record mrs')) in *.
  pose proof (within_fexp_le B k m1 e1 HB (proj1 Hk) W1) as Hf2.
  pose proof (stage_error m1 e1 (proj1 (proj2 W1))) as S2.
  destruct (shr_fexp B64.prec B64.emax m1 e1 loc_Exact) as [mrs'' e2].
  cbv zeta in S2. cbn [fst snd] in S2.
  set (q2 := shr_m mrs'') in *.
  assert (ex <= e1 <= e2) as He12.
  { destruct S1 as [(H1 & _) | (H1 & _)], S2 as [(H2 & _) | (H2 & _)]; lia. }
  assert (e2 <= 0) as He2.
  { destruct W1 as (He1 & _).
    destruct S2 as [(H2 & _) | (_ & H2 & _)]; lia. }
  assert (0 <= q2) as Hq2.
  { destruct W1 as (_ & Hm10 & _).
    destruct S2 as [(_ & H2 & _) | (Hlt2 & _ & (Hlo & Hhi) & _)]; [lia|].
    assert (0 < 2 ^ (e2 - e1)) by (apply Z.pow_pos_nonneg; lia). nia. }
  assert (ticks match q2 with
                | 0 => S754_zero false
                | Zpos m =>
                    if e2 <=? B64.emax - B64.prec
                    then S754_finite false m e2 else S754_infinity false
                | Zneg _ => S754_nan
                end = q2 * 2 ^ (e2 + 1074)) as ->.
  { destruct q2 as [|m|m]; [reflexivity | | lia].
    replace (e2 <=? B64.emax - B64.prec) with true; [reflexivity|].
    symmetry. apply Z.leb_le. unfold B64.emax, B64.prec. lia. }
  set (c := 2 ^ (ex + 1074)).
  assert (0 < c) as Hc by (apply Z.pow_pos_nonneg; lia).
  set (a := 2 ^ (e1 - ex)). set (b := 2 ^ (e2 - e1)).
  assert (0 < a) as Ha by (apply Z.pow_pos_nonneg; lia).
  assert (0 < b) as Hb by (apply Z.pow_pos_nonneg; lia).
  assert (2 ^ (e2 + 1074) = b * a * c) as Hpow.
  { subst a b c. rewrite <- !Z.pow_add_r by lia. f_equal. lia. }
  rewrite Hpow.
  replace (q2 * (b * a * c) - mx * c) with ((q2 * (b * a) - mx) * c) by ring.
  rewrite Z.abs_mul, (Z.abs_eq c) by lia.
  destruct (Z.eq_dec e2 ex) as [Heq|Hne].
  - (* nothing was shifted *)
    assert (e1 = ex) as He1 by lia.
    destruct S1 as [(_ & _ & Hm1) | (Hlt1 & _)]; [|lia].
    destruct S2 as [(_ & Hq & _) | (Hlt2 & _)]; [|lia].
    replace (q2 * (b * a) - mx) with 0.
    + cbn. apply Z.pow_nonneg. lia.
    + subst a b. rewrite He1, Heq, !Z.sub_diag. cbn. lia.
  - assert (e2 <= k - 53) as He2k.
    { destruct S2 as [(He & _) | (_ & He & _)]; [|lia].
      destruct S1 as [(He' & _) | (_ & He' & _)]; lia. }
    assert (Z.abs (q2 * (b * a) - mx) <= 2 * (b * a)) as Habs.
    { apply two_stage with q1 m1; trivial.
      - destruct S1 as [(He & Hq & _) | (_ & _ & Hq & _)]; [|exact Hq].
        subst a. rewrite He, Z.sub_diag. cbn. lia.
      - destruct S1 as [(_ & Hq & Hm) | (_ & _ & _ & Hm)]; [lia | exact Hm].
      - destruct S2 as [(He & Hq & _) | (_ & _ & Hq & _)]; [|exact Hq].
        subst b. rewrite He, Z.sub_diag. cbn. lia. }
    apply Z.le_trans with (2 * (b * a) * c).
    + apply Z.mul_le_mono_nonneg_r; lia.
    + replace (2 * (b * a) * c) with (2 ^ 1 * (b * a * c))
        by (change (2 ^ 1) with 2; ring).
      rewrite <- Hpow, <- Z.pow_add_r by lia.
      apply Z.pow_le_mono_r; lia.
Qed.

Lemma shl_align_ticks (m : positive) (e e' : Z) :
  -1074 <= e -> -1074 <= e' ->
  -1074 <= snd (shl_align m e e') /\
  Zpos (fst (shl_align m e e')) * 2 ^ (snd (shl_align m e e') + 1074)
    = Zpos m * 2 ^ (e + 1074).
Proof.
  intros He He'.
  pose proof (shl_align_spec 53 0 ltac:(lia) m e e') as [Hle Hm].
  assert (-1074 <= snd (shl_align m e e')) as Hs.
  { unfold shl_align. destruct (e' - e) as [|d|d]; cbn [snd]; lia. }
  split; [exact Hs|].
  rewrite Hm, <- Z.mul_assoc, <- Z.pow_add_r by lia.
  do 2 f_equal. lia.
Qed.

Lemma round_ticks (B k : Z) (m : positive) (e : Z) :
  0 <= B < 2 ^ k -> 0 <= k <= 53 ->
  within B (Zpos m) e -> -1074 <= e ->
  Z.abs (ticks (binary_round B64.prec B64.emax false m e)
         - Zpos m * 2 ^ (e + 1074)) <= 2 ^ (k + 1022).
Proof.
  intros HB Hk (He & Hm0 & Hm) Hmin. unfold binary_round.
  pose proof (shl_align_spec 53 0 ltac:(lia) m e
                (fexp B64.prec B64.emax (Zpos (digits2_pos m) + e)))
    as [Hez Hmz].
  pose proof (shl_align_ticks m e
                (fexp B64.prec B64.emax (Zpos (digits2_pos m) + e)) Hmin
                ltac:(unfold fexp, emin, B64.prec, B64.emax; lia))
    as [Hlow Hval].
  destruct (shl_align _ _ _) as [mz ez]. cbn [fst snd] in *.
  rewrite <- Hval. apply round_aux_ticks with B; trivial.
  split; [lia|]. split; [lia|].
  rewrite Hmz.
  replace (- ez) with (- e + (e - ez)) by lia.
  rewrite Z.pow_add_r, Z.mul_assoc by lia.
  apply Z.mul_le_mono_nonneg_r; [apply Z.pow_nonneg; lia | exact Hm].
Qed.

(** Aligning a mantissa of at most 53 digits to its canonical exponent
    gives a canonical pair. *)
Lemma shl_align_canonical (m : positive) (e : Z) :
  Zpos (digits2_pos m) <= 53 -> -1074 <= e ->
  let mz := fst (shl_align m e (fexp B64.prec B64.emax (Zpos (digits2_pos m) + e))) in
  let ez := snd (shl_align m e (fexp B64.prec B64.emax (Zpos (digits2_pos m) + e))) in
  fexp B64.prec B64.emax (Zpos (digits2_pos mz) + ez) = ez /\
  ez <= e /\ Zpos (digits2_pos m) + e - 53 <= ez.
Proof.
  intros Hd He. cbv zeta.
  set (ec := fexp B64.prec B64.emax (Zpos (digits2_pos m) + e)).
  assert (ec <= e /\ Zpos (digits2_pos m) + e - 53 <= ec) as [Hec Hlow]
    by (subst ec; unfold fexp, emin, B64.prec, B64.emax; lia).
  unfold shl_align. destruct (ec - e) as [|d|d] eqn:Hshift; [| lia |];
    cbn [fst snd].
  - fold ec. lia.
  - change (PosDef.Pos.iter xO m d) with (Pos.iter xO m d).
    rewrite digits_shift.
    replace (Zpos (digits2_pos m) + Zpos d + ec)
      with (Zpos (digits2_pos m) + e) by lia.
    fold ec. lia.
Qed.

(** A canonical pair is rounded to itself. *)
Lemma round_aux_exact (m : positive) (e : Z) :
  fexp B64.prec B64.emax (Zpos (digits2_pos m) + e) = e ->
  e <= B64.emax - B64.prec ->
  binary_round_aux B64.prec B64.emax false (Zpos m) e loc_Exact
    = S754_finite false m e.
Proof.
  intros Hcanon Hmax. unfold binary_round_aux.
  pose proof (stage_error (Zpos m) e ltac:(lia)) as S1.
  destruct (shr_fexp B64.prec B64.emax (Zpos m) e loc_Exact) as [mrs' e1].
  cbv zeta in S1. cbn [fst snd Zdigits2] in S1.
  destruct S1 as [(-> & Hq & ->) | (Hlt & He & _)]; [|lia].
  pose proof (stage_error (Zpos m) e ltac:(lia)) as S2.
  destruct (shr_fexp B64.prec B64.emax (Zpos m) e loc_Exact) as [mrs'' e2].
  cbv zeta in S2. cbn [fst snd Zdigits2] in S2.
  destruct S2 as [(-> & -> & _) | (Hlt & He & _)]; [|lia].
  now rewrite (proj2 (Z.leb_le _ _) Hmax).
Qed.

(** [float(j)] is exact for an integer below [2^53]. *)
Lemma of_Z_exact (j : Z) :
  0 < j < 2 ^ 53 ->
  exists m e, B64.of_Z j = S754_finite false m e /\
              -52 <= e <= 0 /\ Zpos m = j * 2 ^ (- e) /\
              Zpos (digits2_pos m) <= 53.
Proof.
  intros Hj. destruct j as [|j|j]; try lia.
  unfold B64.of_Z, binary_normalize, binary_round.
  assert (Zpos (digits2_pos j) <= 53) as Hd by (apply digits_le; lia).
  pose proof (shl_align_canonical j 0 Hd ltac:(lia)) as (Hcanon & Hez & Hlow).
  pose proof (shl_align_spec 53 0 ltac:(lia) j 0
                (fexp B64.prec B64.emax (Zpos (digits2_pos j) + 0)))
    as [_ Hmz].
  destruct (shl_align _ _ _) as [mz ez]. cbn [fst snd] in *.
  rewrite round_aux_exact by (trivial; unfold B64.emax, B64.prec; lia).
  exists mz, ez. split; [reflexivity|]. split.
  - pose proof (Pos2Z.is_pos (digits2_pos j)). lia.
  - split; [now rewrite Hmz|].
    unfold fexp, emin, B64.prec, B64.emax in Hcanon. lia.
Qed.

Lemma mul_ticks (B J k j : Z) (y : spec_float) :
  0 <= j <= J -> J < 2 ^ 53 -> 0 <= B -> J * B < 2 ^ k -> 0 <= k <= 53 ->
  bounded_by B y ->
  match y with S754_finite _ _ e => -1022 <= e | _ => True end ->
  Z.abs (ticks (B64.mul (B64.of_Z j) y) - j * ticks y) <= 2 ^ (k + 1022).
Proof.
  intros Hj HJ HB HJB Hk Hy Hnormal.
  assert (0 <= 2 ^ (k + 1022)) as Hpos by (apply Z.pow_nonneg; lia).
  destruct (Z.eq_dec j 0) as [->|Hj0].
  { change (B64.of_Z 0) with (S754_zero false).
    replace (ticks (B64.mul (S754_zero false) y)) with 0; [lia|].
    destruct y as [s|s| |s m e]; try contradiction; reflexivity. }
  destruct (of_Z_exact j ltac:(lia)) as (mz & ez & -> & Hez & Hmz & _).
  destruct y as [s|s| |s my ey]; cbn [bounded_by] in Hy; try contradiction.
  { cbn [B64.mul SFmul ticks]. lia. }
  destruct Hy as (-> & (Hey & _ & Hmy) & _).
  unfold B64.mul, SFmul. cbn [xorb ticks].
  replace (j * (Zpos my * 2 ^ (ey + 1074)))
    with (Zpos (mz * my) * 2 ^ (ez + ey + 1074)).
  - apply round_aux_ticks with (J * B); [nia | exact Hk | | lia].
    split; [lia|]. split; [lia|].
    rewrite Pos2Z.inj_mul, Hmz.
    replace (- (ez + ey)) with (- ez + - ey) by lia.
    rewrite Z.pow_add_r by lia.
    replace (J * B * (2 ^ (- ez) * 2 ^ (- ey)))
      with ((J * 2 ^ (- ez)) * (B * 2 ^ (- ey))) by ring.
    assert (0 < 2 ^ (- ez)) by (apply Z.pow_pos_nonneg; lia).
    apply Z.mul_le_mono_nonneg; nia.
  - rewrite Pos2Z.inj_mul, Hmz.
    replace (ez + ey + 1074) with (ez + (ey + 1074)) by lia.
    replace (2 ^ (ey + 1074)) with (2 ^ (- ez) * 2 ^ (ez + (ey + 1074))).
    + ring.
    + rewrite <- Z.pow_add_r by lia. f_equal. lia.
Qed.

Lemma add_ticks (B1 B2 k : Z) (x y : spec_float) :
  0 <= B1 -> 0 <= B2 -> B1 + B2 < 2 ^ k -> 0 <= k <= 53 ->
  bounded_by B1 x -> bounded_by B2 y ->
  Z.abs (ticks (B64.add x y) - (ticks x + ticks y)) <= 2 ^ (k + 1022).
Proof.
  intros H1 H2 HB Hk Hx Hy.
  assert (0 <= 2 ^ (k + 1022)) as Hpos by (apply Z.pow_nonneg; lia).
  destruct x as [sx|sx| |sx mx ex], y as [sy|sy| |sy my ey];
    cbn [bounded_by] in Hx, Hy; try contradiction.
  - subst. cbn [B64.add SFadd ticks]. lia.
  - cbn [B64.add SFadd ticks]. lia.
  - cbn [B64.add SFadd ticks]. lia.
  - destruct Hx as (-> & (Hex & _ & Hmx) & _ & Hminx).
    destruct Hy as (-> & (Hey & _ & Hmy) & _ & Hminy).
    unfold emin, B64.prec, B64.emax in Hminx, Hminy.
    unfold B64.add, SFadd. cbv zeta.
    change IntDef.Z.min with Z.min.
    set (ez := Z.min ex ey).
    destruct (shl_align_down mx ex ez ltac:(subst ez; lia)) as [_ Hax].
    destruct (shl_align_down my ey ez ltac:(subst ez; lia)) as [_ Hay].
    cbn [cond_Zopp Z.add binary_normalize ticks].
    assert (ez <= 0 /\ -1074 <= ez) as [Hez Hezmin] by (subst ez; lia).
    assert (forall m e, ez <= e ->
               m * 2 ^ (e - ez) * 2 ^ (ez + 1074) = m * 2 ^ (e + 1074))
      as Hunit.
    { intros m e Hle. rewrite <- Z.mul_assoc, <- Z.pow_add_r by lia.
      do 2 f_equal. lia. }
    replace (Zpos mx * 2 ^ (ex + 1074) + Zpos my * 2 ^ (ey + 1074))
      with (Zpos (fst (shl_align mx ex ez) + fst (shl_align my ey ez))
            * 2 ^ (ez + 1074)).
    + apply round_ticks with (B1 + B2); [lia | exact Hk | | lia].
      split; [exact Hez|]. split; [lia|].
      rewrite Pos2Z.inj_add, Hax, Hay.
      assert (forall m e B, e <= 0 -> ez <= e -> m <= B * 2 ^ (- e) ->
                            m * 2 ^ (e - ez) <= B * 2 ^ (- ez)) as Hscale.
      { intros m e B He Hle Hm.
        replace (- ez) with (- e + (e - ez)) by lia.
        rewrite Z.pow_add_r, Z.mul_assoc by lia.
        apply Z.mul_le_mono_nonneg_r; [apply Z.pow_nonneg; lia | exact Hm]. }
      pose proof (Hscale _ _ _ Hex ltac:(subst ez; lia) Hmx).
      pose proof (Hscale _ _ _ Hey ltac:(subst ez; lia) Hmy).
      lia.
    + rewrite Pos2Z.inj_add, Hax, Hay, Z.mul_add_distr_r.
      rewrite !Hunit by (subst ez; lia). reflexivity.
Qed.

Lemma fmod_ticks (mx : positive) (ex : Z) (my : positive) (ey : Z) :
  -1074 <= ex -> -1074 <= ey ->
  let x := S754_finite false mx ex in
  let y := S754_finite false my ey in
  ticks (B64.fmod x y) = ticks x mod ticks y.
Proof.
  intros Hex Hey. cbv zeta. unfold B64.fmod. cbn [ticks].
  set (e := Z.min ex ey).
  set (X := Zpos mx * 2 ^ (ex - e)). set (Y := Zpos my * 2 ^ (ey - e)).
  assert (-1074 <= e /\ e <= ex /\ e <= ey) as (He & Hlex & Hley)
    by (subst e; lia).
  assert (0 < Y) as Hpos.
  { apply Z.mul_pos_pos; [lia|]. apply Z.pow_pos_nonneg; lia. }
  set (c := 2 ^ (e + 1074)).
  assert (0 < c) as Hc by (apply Z.pow_pos_nonneg; lia).
  assert (Zpos mx * 2 ^ (ex + 1074) = X * c) as ->.
  { subst X c. rewrite <- Z.mul_assoc, <- Z.pow_add_r by lia.
    do 2 f_equal. lia. }
  assert (Zpos my * 2 ^ (ey + 1074) = Y * c) as ->.
  { subst Y c. rewrite <- Z.mul_assoc, <- Z.pow_add_r by lia.
    do 2 f_equal. lia. }
  rewrite Z.mul_mod_distr_r by lia.
  pose proof (Z.mod_pos_bound X Y Hpos) as Hbound.
  destruct (X mod Y) as [|r|r] eqn:Hr; [reflexivity | | lia].
  pose proof (shl_align_ticks r e
                (fexp B64.prec B64.emax (Zpos (digits2_pos r) + e)) He
                ltac:(unfold fexp, emin, B64.prec, B64.emax; lia))
    as [_ Hval].
  destruct (shl_align _ _ _) as [m' e']. cbn [fst snd ticks] in *.
  exact Hval.
Qed.

Lemma pymod_ticks (B : Z) (x : spec_float) :
  bounded_by B x ->
  ticks (B64.pymod x two_pi) = ticks x mod ticks (two_pi (A := binary64)).
Proof.
  rewrite two_pi_binary64.
  destruct x as [s|s| |s mx ex]; cbn [bounded_by]; try contradiction.
  - intros ->. reflexivity.
  - intros (-> & _ & _ & He). unfold emin, B64.prec, B64.emax in He.
    rewrite <- (fmod_ticks mx ex 7074237752028440 (-50)) by lia.
    unfold B64.pymod.
    destruct (fmod_range mx ex 7074237752028440 (-50))
      as [Hz | (m & e & Hr & _)].
    + rewrite Hz. reflexivity.
    + rewrite Hr. reflexivity.
Qed.

Lemma digits_lower (m : positive) : 2 ^ (Zpos (digits2_pos m) - 1) <= Zpos m.
Proof.
  rewrite digits2_size.
  pose proof (Pos.size_le m) as Hle.
  assert (Zpos (2 ^ Pos.size m) <= Zpos m~0) as Hz by exact Hle.
  rewrite Pos2Z.inj_pow in Hz.
  change (Zpos m~0) with (2 * Zpos m) in Hz.
  replace (Zpos (Pos.size m)) with (1 + (Zpos (Pos.size m) - 1)) in Hz by lia.
  rewrite Z.pow_add_r in Hz by lia. change (2 ^ 1) with 2 in Hz. lia.
Qed.

(** On positive doubles in canonical form the comparison of binary64
    is the comparison of values. *)
Lemma ltb_ticks (mx : positive) (ex : Z) (my : positive) (ey : Z) :
  valid_binary B64.prec B64.emax (S754_finite false mx ex) = true ->
  valid_binary B64.prec B64.emax (S754_finite false my ey) = true ->
  B64.ltb (S754_finite false mx ex) (S754_finite false my ey)
    = (ticks (S754_finite false mx ex) <? ticks (S754_finite false my ey)).
Proof.
  cbn [valid_binary ticks]. unfold SpecFloat.bounded, canonical_mantissa.
  intros [Hx%Z.eqb_eq _]%andb_prop [Hy%Z.eqb_eq _]%andb_prop.
  unfold fexp, emin, B64.prec, B64.emax in Hx, Hy.
  pose proof (digits_gt mx) as Hxu. pose proof (digits_lower mx) as Hxl.
  pose proof (digits_gt my) as Hyu. pose proof (digits_lower my) as Hyl.
  assert (forall (m m' : positive) (e e' : Z),
             -1074 <= e < e' ->
             Zpos (digits2_pos m) <= 53 -> Zpos (digits2_pos m') = 53 ->
             Zpos m < 2 ^ Zpos (digits2_pos m) ->
             2 ^ (Zpos (digits2_pos m') - 1) <= Zpos m' ->
             Zpos m * 2 ^ (e + 1074) < Zpos m' * 2 ^ (e' + 1074)) as Hlt.
  { intros m m' e e' He Hd Hd' Hu Hl. rewrite Hd' in Hl.
    apply Z.lt_le_trans with (2 ^ 53 * 2 ^ (e + 1074)).
    - apply Z.mul_lt_mono_pos_r; [apply Z.pow_pos_nonneg; lia|].
      apply Z.lt_le_trans with (2 ^ Zpos (digits2_pos m)); [exact Hu|].
      apply Z.pow_le_mono_r; lia.
    - apply Z.le_trans with (2 ^ (53 - 1) * 2 ^ (e' + 1074)).
      + rewrite <- !Z.pow_add_r by lia. apply Z.pow_le_mono_r; lia.
      + apply Z.mul_le_mono_nonneg_r; [apply Z.pow_nonneg; lia | exact Hl]. }
  destruct (Z.ltb_spec (Zpos mx * 2 ^ (ex + 1074)) (Zpos my * 2 ^ (ey + 1074)))
    as [Hcmp|Hcmp].
  - apply ltb_finite.
    destruct (Z.lt_trichotomy ex ey) as [H|[H|H]]; [now left | right | exfalso].
    + split; [exact H|]. subst ey.
      apply Z.mul_lt_mono_pos_r in Hcmp; [exact Hcmp|].
      apply Z.pow_pos_nonneg; lia.
    + specialize (Hlt my mx ey ex). lia.
  - destruct (B64.ltb _ _) eqn:Hb; [exfalso | reflexivity].
    apply ltb_finite in Hb. destruct Hb as [H | [-> H]].
    + specialize (Hlt mx my ex ey). lia.
    + apply Z.mul_lt_mono_pos_r with (p := 2 ^ (ey + 1074)) in H; [lia|].
      apply Z.pow_pos_nonneg; lia.
Qed.

End Ticks.

(** *** The phase of a sample *)

Section Threading.
Local Open Scope Z_scope.

Variables (f : spec_float) (K D : Z).
Hypothesis HK : 3 <= K.
Hypothesis HD : 0 <= D.
Hypothesis HKD : K + D + 2 <= 53.
Hypothesis Hinc : increment_ok D f = true.

Lemma increment_bounded :
  bounded_by (2 ^ D) (increment (A := binary64) f) /\
  match increment (A := binary64) f with
  | S754_finite _ _ e => -1022 <= e
  | _ => True
  end.
Proof.
  unfold increment_ok in Hinc.
  destruct (increment f) as [s|s| |[|] m e]; try discriminate.
  apply andb_prop in Hinc as [[[Hlo%Z.leb_le Hhi%Z.leb_le]%andb_prop
                               Hm%Z.leb_le]%andb_prop Hd%Z.leb_le].
  split; [|exact Hlo]. cbn [bounded_by]. split; [reflexivity|].
  split; [split; [exact Hhi | split; [lia | exact Hm]]|].
  split; [exact Hd|]. unfold emin, B64.prec, B64.emax. lia.
Qed.

Lemma powers :
  0 < 2 ^ K /\ 0 < 2 ^ D /\ 7 <= 2 ^ K /\ 2 ^ K < 2 ^ 53 /\
  2 ^ K * 2 ^ D < 2 ^ (K + D + 2) /\
  2 ^ K + 2 ^ K * 2 ^ D < 2 ^ (K + D + 2).
Proof.
  assert (0 < 2 ^ K) as H1 by (apply Z.pow_pos_nonneg; lia).
  assert (0 < 2 ^ D) as H2 by (apply Z.pow_pos_nonneg; lia).
  assert (2 ^ 3 <= 2 ^ K) as H3 by (apply Z.pow_le_mono_r; lia).
  assert (2 ^ K < 2 ^ 53) as H4 by (apply Z.pow_lt_mono_r; lia).
  assert (2 ^ (K + D + 2) = 4 * (2 ^ K * 2 ^ D)) as H5.
  { rewrite !Z.pow_add_r by lia. change (2 ^ 2) with 4. ring. }
  change (2 ^ 3) with 8 in H3.
  repeat split; try lia; nia.
Qed.

(** The unreduced phase [q + j * increment] is off its exact value by
    at most [2^(K + D + 1025)] ticks, that is [2^(K + D - 49)]. *)
Lemma unreduced_ticks (q : spec_float) (j : Z) :
  bounded_by (2 ^ K) q -> 0 <= j <= 2 ^ K ->
  let U := B64.add q (B64.mul (B64.of_Z j) (increment f)) in
  bounded_by (2 ^ K + 2 ^ K * 2 ^ D) U /\
  Z.abs (ticks U - (ticks q + j * ticks (increment (A := binary64) f)))
    <= 2 ^ (K + D + 1025).
Proof.
  intros Hq Hj U. subst U.
  destruct powers as (HpK & HpD & H7 & H53 & Hmul & Hadd).
  destruct increment_bounded as [HbD Hnormal].
  set (delta := increment f) in *.
  assert (bounded_by (2 ^ K * 2 ^ D) (B64.mul (B64.of_Z j) delta)) as Hbm.
  { apply mul_bounded with (K + D + 2); try lia; trivial.
    apply of_Z_bounded with 53; lia. }
  pose proof (mul_ticks (2 ^ D) (2 ^ K) (K + D + 2) j delta Hj H53
                ltac:(lia) Hmul ltac:(lia) HbD Hnormal) as Hem.
  pose proof (add_ticks (2 ^ K) (2 ^ K * 2 ^ D) (K + D + 2) q _
                ltac:(lia) ltac:(lia) Hadd ltac:(lia) Hq Hbm) as Hea.
  split.
  - apply add_bounded with (K + D + 2); try lia; trivial.
  - replace (K + D + 1025) with (1 + (K + D + 2 + 1022)) by lia.
    rewrite Z.pow_add_r by lia. change (2 ^ 1) with 2. lia.
Qed.

Lemma phase_at_ticks (q : spec_float) (j : Z) :
  bounded_by (2 ^ K) q -> 0 <= j <= 2 ^ K ->
  reduced_phase (phase_at f q j) = true /\
  exists eps,
    Z.abs eps <= 2 ^ (K + D + 1025) /\
    ticks (phase_at f q j)
      = (ticks q + j * ticks (increment (A := binary64) f) + eps)
        mod ticks (two_pi (A := binary64)).
Proof.
  intros Hq Hj.
  destruct (unreduced_ticks q j Hq Hj) as [Hb He]. cbv zeta in Hb, He.
  unfold phase_at. cbn [fadd fmul frem of_int binary64].
  split.
  - eapply pymod_reduced, Hb.
  - eexists (ticks _ - (ticks q + j * ticks (increment f))).
    split; [exact He|].
    erewrite pymod_ticks by exact Hb. f_equal. lia.
Qed.

End Threading.

Section Levels.
Local Open Scope Z_scope.

Lemma two_pi_ticks :
  ticks (two_pi (A := binary64)) = 2 * ticks (np_pi (A := binary64)) /\
  0 < ticks (np_pi (A := binary64)).
Proof. vm_compute. split; reflexivity. Qed.

Lemma level_ticks (r : spec_float) :
  reduced_phase r = true ->
  level r = if ticks r <? ticks (np_pi (A := binary64))
            then half else B64.opp half.
Proof.
  intros Hr. unfold level. cbn [flt fneg binary64].
  replace (B64.ltb r np_pi) with (ticks r <? ticks (np_pi (A := binary64)));
    [reflexivity|].
  unfold reduced_phase in Hr.
  destruct r as [[|]|s| |[|] m e]; try discriminate.
  - vm_compute. reflexivity.
  - apply andb_prop in Hr as [Hvalid _].
    rewrite np_pi_double. symmetry. apply ltb_ticks; [exact Hvalid|].
    vm_compute. reflexivity.
Qed.

Lemma reduced_ticks (r : spec_float) :
  reduced_phase r = true ->
  0 <= ticks r < ticks (two_pi (A := binary64)).
Proof.
  intros Hr. unfold reduced_phase in Hr.
  destruct r as [[|]|s| |[|] m e]; try discriminate.
  - vm_compute. split; [discriminate | reflexivity].
  - apply andb_prop in Hr as [Hvalid Hlt].
    rewrite two_pi_binary64 in *.
    rewrite ltb_ticks in Hlt by (trivial; vm_compute; reflexivity).
    apply Z.ltb_lt in Hlt. split; [|exact Hlt].
    cbn [ticks]. apply Z.mul_nonneg_nonneg; [lia|]. apply Z.pow_nonneg. lia.
Qed.

(** A phase that is clear of the boundaries keeps its level when it is
    moved by less than the tolerance. *)
Lemma level_stable (r1 r2 : spec_float) (d tol : Z) :
  reduced_phase r1 = true -> reduced_phase r2 = true ->
  ticks r1 = (ticks r2 + d) mod ticks (two_pi (A := binary64)) ->
  Z.abs d <= tol ->
  clear_of_boundary tol r2 = true ->
  level r1 = level r2.
Proof.
  intros H1 H2 Hmod Hd Hclear.
  rewrite (level_ticks r1 H1), (level_ticks r2 H2).
  destruct two_pi_ticks as [HM Hpi]. rewrite HM in Hmod.
  set (h := ticks (np_pi (A := binary64))) in *.
  unfold clear_of_boundary in Hclear. rewrite HM in Hclear. fold h in Hclear.
  apply orb_prop in Hclear as [Hlow | Hhigh].
  - apply andb_prop in Hlow as [Ha%Z.leb_le Hb%Z.ltb_lt].
    rewrite Z.mod_small in Hmod by lia.
    replace (ticks r1 <? h) with true by (symmetry; apply Z.ltb_lt; lia).
    replace (ticks r2 <? h) with true by (symmetry; apply Z.ltb_lt; lia).
    reflexivity.
  - apply andb_prop in Hhigh as [Ha%Z.leb_le Hb%Z.ltb_lt].
    rewrite Z.mod_small in Hmod by lia.
    replace (ticks r1 <? h) with false by (symmetry; apply Z.ltb_ge; lia).
    replace (ticks r2 <? h) with false by (symmetry; apply Z.ltb_ge; lia).
    reflexivity.
Qed.

End Levels.

(** *** Blocks against one call *)

Section Threaded.
Local Open Scope Z_scope.

Variables (f p : spec_float) (K D : Z).
Hypothesis HK : 3 <= K.
Hypothesis HD : 0 <= D.
Hypothesis HKD : K + D + 2 <= 53.
Hypothesis Hinc : increment_ok D f = true.
Hypothesis Hp : bounded_by (2 ^ K) p.

Lemma reduced_in_range (q : spec_float) :
  reduced_phase q = true -> bounded_by (2 ^ K) q.
Proof.
  intros Hq. apply bounded_by_mono with 7.
  - destruct (powers K D HK HD HKD) as (_ & _ & H7 & _). exact H7.
  - now apply reduced_bounded.
Qed.

(** Rendering the remaining blocks from a stored phase [q] that is off
    the exact phase by [dq] ticks: a sample agrees with the level of the
    phase one call computes for it, unless that phase is within the
    tolerance of a boundary. *)
Lemma threaded_levels (blocks : list nat) :
  forall (q : spec_float) (N c dq : Z),
    bounded_by (2 ^ K) q ->
    0 <= c -> Z.abs dq <= c * 2 ^ (K + D + 1025) ->
    ticks q mod ticks (two_pi (A := binary64))
      = (ticks p + N * ticks (increment (A := binary64) f) + dq)
        mod ticks (two_pi (A := binary64)) ->
    0 <= N -> N + Z.of_nat (list_sum blocks) <= 2 ^ K ->
    forall (j : nat) (d : spec_float),
      (j < list_sum blocks)%nat ->
      clear_of_boundary ((c + Z.of_nat (length blocks) + 1) * 2 ^ (K + D + 1025))
                        (phase_at f p (N + Z.of_nat j)) = true ->
      nth j (fst (render_blocks f q blocks)) d
        = level (phase_at f p (N + Z.of_nat j)).
Proof.
  set (E := 2 ^ (K + D + 1025)).
  set (M := ticks (two_pi (A := binary64))).
  set (delta := ticks (increment (A := binary64) f)).
  assert (0 < E) as HE by (apply Z.pow_pos_nonneg; lia).
  induction blocks as [|n rest IH]; intros q N c dq Hq Hc Hdq Hinv HN Htot j d Hj Hclear.
  - cbn in Hj. lia.
  - cbn [render_blocks].
    pose proof (wave_length (A := binary64) f q n) as Hlen.
    pose proof (new_phase_is (A := binary64) f q n) as Hnew.
    pose proof (wave_nth (A := binary64) f q n) as Hnth.
    destruct (generate_square_wave f q n) as [wave new_phase].
    cbn [fst snd] in Hlen, Hnew, Hnth.
    destruct (render_blocks f new_phase rest) as [waves last_phase] eqn:Hrest.
    cbn [fst].
    change (list_sum (n :: rest)) with (n + list_sum rest)%nat in Hj, Htot.
    cbn [length] in Hclear.
    destruct (Nat.lt_ge_cases j n) as [Hin | Hout].
    + rewrite app_nth1 by lia. rewrite Hnth by exact Hin.
      destruct (phase_at_ticks f K D HK HD HKD Hinc q (Z.of_nat j) Hq
                  ltac:(lia)) as (Hr1 & e1 & He1 & Ht1).
      destruct (phase_at_ticks f K D HK HD HKD Hinc p (N + Z.of_nat j) Hp
                  ltac:(lia)) as (Hr2 & e2 & He2 & Ht2).
      apply level_stable with (dq + e1 - e2)
          ((c + Z.of_nat (S (length rest)) + 1) * E); trivial.
      * fold M delta in Ht1, Ht2, Hinv |- *. rewrite Ht1, Ht2.
        rewrite Z.add_mod_idemp_l by (subst M; destruct two_pi_ticks; lia).
        rewrite <- Z.add_assoc, <- Z.add_mod_idemp_l
          by (subst M; destruct two_pi_ticks; lia).
        rewrite Hinv.
        rewrite Z.add_mod_idemp_l by (subst M; destruct two_pi_ticks; lia).
        f_equal. lia.
      * fold E in He1, He2, Hdq. nia.
    + rewrite app_nth2 by lia. rewrite Hlen.
      destruct (phase_at_ticks f K D HK HD HKD Hinc q (Z.of_nat n) Hq
                  ltac:(lia)) as (Hr & e & He & Ht).
      rewrite <- Hnew in Hr, Ht.
      specialize (IH new_phase (N + Z.of_nat n) (c + 1) (dq + e)).
      rewrite Hrest in IH. cbn [fst] in IH.
      replace (N + Z.of_nat j) with (N + Z.of_nat n + Z.of_nat (j - n)) by lia.
      apply IH.
      * now apply reduced_in_range.
      * lia.
      * fold E in He, Hdq |- *. nia.
      * fold M delta in Ht, Hinv |- *. rewrite Ht.
        rewrite Z.mod_mod by (subst M; destruct two_pi_ticks; lia).
        rewrite <- Z.add_assoc, <- Z.add_mod_idemp_l
          by (subst M; destruct two_pi_ticks; lia).
        rewrite Hinv.
        rewrite Z.add_mod_idemp_l by (subst M; destruct two_pi_ticks; lia).
        f_equal. lia.
      * lia.
      * lia.
      * lia.
      * replace (N + Z.of_nat n + Z.of_nat (j - n)) with (N + Z.of_nat j)
          by lia.
        replace (c + 1 + Z.of_nat (length rest) + 1)
          with (c + Z.of_nat (S (length rest)) + 1) by lia.
        exact Hclear.
Qed.

(** Blocks against one call, in binary64. *)
Lemma threaded_agrees (blocks : list nat) (j : nat) (d : spec_float) :
  Z.of_nat (list_sum blocks) <= 2 ^ K ->
  (j < list_sum blocks)%nat ->
  clear_of_boundary ((Z.of_nat (length blocks) + 1) * 2 ^ (K + D + 1025))
                    (phase_at f p (Z.of_nat j)) = true ->
  nth j (fst (render_blocks f p blocks)) d
    = nth j (fst (generate_square_wave f p (list_sum blocks))) d.
Proof.
  intros Htot Hj Hclear.
  rewrite (wave_nth (A := binary64)) by exact Hj.
  assert (ticks p mod ticks (two_pi (A := binary64))
          = (ticks p + 0 * ticks (increment (A := binary64) f) + 0)
            mod ticks (two_pi (A := binary64))) as Hinv
    by (f_equal; lia).
  exact (threaded_levels blocks p 0 0 0 Hp (Z.le_refl 0) (Z.le_refl 0) Hinv
           (Z.le_refl 0) Htot j d Hj Hclear).
Qed.

End Threaded.

(** C1 (amended).  In exact arithmetic, for every frequency, starting
    phase and splitting into blocks, the blocks rendered with the phase
    threaded through concatenate to the samples of one call for the total
    count.  In any arithmetic the concatenation has the total length and
    its first block is the prefix of the one-call rendering.  In
    binary64, for a frequency whose increment is a normal double of at
    most [2^D] radians, a starting phase in [[0, 2^K]] and at most [2^K]
    samples in all, sample [j] of the blocks equals sample [j] of the
    one call whenever the phase the one call computes for it is farther
    than [(number of blocks + 1) * 2^(K + D - 49)] radians from [0],
    [pi] and [2 pi]; only a sample within that rounding error of a
    boundary can differ, as sample 1350 of the note G4 does.  And the
    render callback threads the phase exactly so: while one channel
    sounds, the capture buffer grows by the blocks of [render_blocks]. *)
Theorem phase_continuity :
  (forall (f p : R) (blocks : list nat),
      fst (render_blocks f p blocks)
        = fst (generate_square_wave f p (list_sum blocks))) /\
  (forall (F : Type) (A : Arith F) (f p : F) (n : nat) (rest : list nat),
      length (fst (render_blocks f p (n :: rest))) = list_sum (n :: rest) /\
      firstn n (fst (render_blocks f p (n :: rest)))
        = firstn n (fst (generate_square_wave f p (list_sum (n :: rest))))) /\
  (forall (f p : spec_float) (K D : Z) (blocks : list nat) (j : nat)
          (d : spec_float),
      (3 <= K)%Z -> (0 <= D)%Z -> (K + D + 2 <= 53)%Z ->
      increment_ok D f = true ->
      bounded_by (2 ^ K) p ->
      (Z.of_nat (list_sum blocks) <= 2 ^ K)%Z ->
      j < list_sum blocks ->
      clear_of_boundary ((Z.of_nat (length blocks) + 1) * tolerance K D)
                        (phase_at f p (Z.of_nat j)) = true ->
      nth j (fst (render_blocks f p blocks)) d
        = nth j (fst (generate_square_wave f p (list_sum blocks))) d) /\
  (forall (g : Globals) (blocks : list nat),
      active (CH1 g) = true ->
      B64.ltb B64.zero (frequency (CH1 g)) = true ->
      active (CH2 g) = false ->
      WAV_BUFFER (render_session g blocks)
        = WAV_BUFFER g
          ++ fst (render_blocks (frequency (CH1 g)) (phase (CH1 g)) blocks)).
Proof.
  split; [intros f p blocks; apply render_blocks_exact|]. split; [|split].
  - intros F A f p n rest. split.
    + apply render_blocks_length.
    + rewrite render_blocks_first.
      change (list_sum (n :: rest)) with (n + list_sum rest).
      now rewrite wave_prefix.
  - intros f p K D blocks j d HK HD HKD Hinc Hp Htot Hj Hclear.
    now apply (threaded_agrees f p K D).
  - intros g blocks H1 Hf H2. now apply render_session_single.
Qed.

(** The note G4 from phase 0 in two blocks of 1024 frames, sample 1074:
    the fiftieth sample of the second block is [-0.5], as in one call of
    2048, where an oscillator restarted at phase 0 would give the [+0.5]
    of sample 50. *)
Lemma phase_continuity_witness :
  let f := B64.lit 39200 100 in
  let blocks := [1024; 1024] in
  increment_ok 0 f = true /\
  bounded_by (2 ^ 11) B64.zero /\
  clear_of_boundary ((Z.of_nat (length blocks) + 1) * tolerance 11 0)
                    (phase_at f B64.zero 1074) = true /\
  nth 1074 (fst (render_blocks f B64.zero blocks)) B64.zero
    = nth 1074 (fst (generate_square_wave f B64.zero 2048)) B64.zero /\
  nth 1074 (fst (generate_square_wave f B64.zero 2048)) B64.zero
    = B64.opp half /\
  nth 50 (fst (generate_square_wave f B64.zero 1024)) B64.zero = half.
Proof.
  cbv zeta.
  assert (increment_ok 0 (B64.lit 39200 100) = true) as Hinc
    by (vm_compute; reflexivity).
  assert (bounded_by (2 ^ 11) B64.zero) as Hp by reflexivity.
  assert (clear_of_boundary
            ((Z.of_nat (length [1024; 1024]) + 1) * tolerance 11 0)
            (phase_at (B64.lit 39200 100) B64.zero (Z.of_nat 1074)) = true)
    as Hclear by (vm_compute; reflexivity).
  split; [exact Hinc|]. split; [exact Hp|]. split; [exact Hclear|].
  split; [|split; vm_compute; reflexivity].
  apply (proj1 (proj2 (proj2 phase_continuity))
           (B64.lit 39200 100) B64.zero 11%Z 0%Z [1024; 1024] 1074 B64.zero);
    trivial; try lia.
  - vm_compute. discriminate.
  - vm_compute. lia.
Defined.

(** ** Duty cycle *)

(** *** Counting over an initial segment of the naturals *)




(** *** Exact arithmetic: one period in half turns *)



Section HalfTurns.
Local Open Scope R_scope.



End HalfTurns.




Section OnePeriod.
Local Open Scope R_scope.

Variables (f p : R) (n : nat).
Hypothesis Hf : 0 < f.
Hypothesis Hlow : (INR n - 1) * f < 44100.
Hypothesis Hhigh : 44100 < (INR n + 1) * f.

(** The starting phase and the phase of sample [k], in half turns. *)
Let r : R := Rrem p (2 * PI) / PI.
Let h (k : nat) : R := r + INR k * (f / 22050).

(** The first half turn met is a positive one ([sigma]) or a negative
    one; [s] is where it ends. *)
Let sigma : bool := Rltb r 1.
Let s : R := if sigma then 1 else 2.











End OnePeriod.

(** *** Binary64: the fourteen notes *)


(** *** Binary64 against the exact oscillator *)


(** The exact oscillator of the realised frequency, started at the
    realised phase, has the phases of the doubles without their rounding
    errors. *)
Section Bridge.
Local Open Scope R_scope.



End Bridge.

Section DutyBinary64.
Local Open Scope Z_scope.

Variables (f p : spec_float) (K D : Z).
Hypothesis HK : 3 <= K.
Hypothesis HD : 0 <= D.
Hypothesis HKD : K + D + 2 <= 53.
Hypothesis Hinc : increment_ok D f = true.
Hypothesis Hp : bounded_by (2 ^ K) p.








Variable n : nat.
Hypothesis Hn : Z.of_nat n <= 2 ^ K.
Hypothesis Hlow :
  (Z.of_nat n - 1) * ticks (increment (A := binary64) f)
    < ticks (two_pi (A := binary64)).
Hypothesis Hhigh :
  ticks (two_pi (A := binary64))
    < (Z.of_nat n + 1) * ticks (increment (A := binary64) f).


End DutyBinary64.




(** * Further properties of the code *)

(** ** The render callback *)

Lemma contribution_length (ch : ChannelState) (frames : nat) :
  length (contribution ch frames) = frames.
Proof.
  unfold contribution. apply mix_channel_length.
  unfold np_zeros. apply repeat_length.
Qed.

Lemma add_zero_level (o : spec_float) :
  In o [B64.zero; half; B64.opp half] ->
  B64.to_f32 (B64.add o B64.zero) = o.
Proof.
  cbn [In]. intros [<- | [<- | [<- | []]]]; vm_compute; reflexivity.
Qed.

Lemma iadd_silence (output : list spec_float) :
  (forall o, In o output -> In o [B64.zero; half; B64.opp half]) ->
  iadd output (np_zeros (length output)) = output.
Proof.
  unfold iadd, np_zeros.
  induction output as [|o rest IH]; intros Hin; [reflexivity|].
  cbn [length repeat combine map fst snd].
  rewrite add_zero_level by (apply Hin; now left).
  f_equal. apply IH. intros x Hx. apply Hin. now right.
Qed.

Lemma mix_channel_iadd (ch : ChannelState) (output : list spec_float)
    (frames : nat) :
  length output = frames ->
  (forall o, In o output -> In o [B64.zero; half; B64.opp half]) ->
  snd (mix_channel ch output frames) = iadd output (contribution ch frames).
Proof.
  intros Hlen Hin. unfold contribution, mix_channel.
  destruct (active ch && _).
  - pose proof (wave_length (A := binary64) (frequency ch) (phase ch) frames)
      as Hw.
    pose proof (wave_amplitude (A := binary64) (frequency ch) (phase ch) frames)
      as Ha.
    destruct (generate_square_wave _ _ _) as [wave new_phase].
    cbn [fst snd] in *. rewrite <- Hw.
    now rewrite iadd_zeros.
  - cbn [snd]. rewrite <- Hlen. now rewrite iadd_silence.
Qed.

(** X1.  The block a render call writes and captures is the sample-wise
    [float32] sum of what each channel alone adds to silence, and the
    clip that follows changes none of its samples. *)
Theorem mixing_is_sum (g : Globals) (frames : nat) :
  let mixed := iadd (contribution (CH1 g) frames) (contribution (CH2 g) frames) in
  WAV_BUFFER (fst (audio_callback g frames)) = WAV_BUFFER g ++ mixed /\
  snd (audio_callback g frames) = map (fun x => [x]) mixed /\
  map (np_clip minus_one one) mixed = mixed.
Proof.
  intros mixed.
  assert (snd (mix_channel (CH2 g) (contribution (CH1 g) frames) frames) = mixed)
    as Hmix.
  { apply mix_channel_iadd.
    - apply contribution_length.
    - intros o. apply mix_channel_first. }
  assert (map (np_clip minus_one one) mixed = mixed) as Hclip.
  { rewrite <- (map_id mixed) at 2. apply map_ext_in.
    intros x Hx. apply clip_level. rewrite <- Hmix in Hx.
    eapply mix_channel_second; [|exact Hx].
    intros o. apply mix_channel_first. }
  destruct (audio_callback_block g frames) as [Hbuf Hout].
  unfold rendered_block in Hbuf, Hout.
  fold (contribution (CH1 g) frames) in Hbuf, Hout.
  rewrite Hmix, Hclip in Hbuf, Hout. now split.
Qed.

Lemma mix_channel_frame (ch : ChannelState) (output : list spec_float)
    (frames : nat) :
  let ch' := fst (mix_channel ch output frames) in
  active ch' = active ch /\ frequency ch' = frequency ch /\
  (active ch = false -> ch' = ch).
Proof.
  unfold mix_channel. destruct (active ch) eqn:Ha; cbn [andb].
  - destruct (B64.ltb _ _).
    + destruct (generate_square_wave _ _ _) as [wave new_phase].
      cbn. repeat split; discriminate.
    + cbn. repeat split; assumption.
  - now cbn.
Qed.

Lemma audio_callback_channels (g : Globals) (frames : nat) :
  CH1 (fst (audio_callback g frames))
    = fst (mix_channel (CH1 g) (np_zeros frames) frames) /\
  CH2 (fst (audio_callback g frames))
    = fst (mix_channel (CH2 g) (contribution (CH1 g) frames) frames) /\
  QUIT_FLAG (fst (audio_callback g frames)) = QUIT_FLAG g.
Proof.
  unfold audio_callback, contribution.
  destruct (mix_channel (CH1 g) _ _) as [ch1 out1].
  destruct (mix_channel (CH2 g) _ _) as [ch2 out2].
  now cbn.
Qed.

(** X2.  A render call changes nothing but the phases and the capture
    buffer: it keeps [active], [frequency] and the quit flag, it keeps
    an inactive channel whole, and the [frames] rows it writes to
    [outdata] are, in order, the samples it appends to the buffer. *)
Theorem render_frame (g : Globals) (frames : nat) :
  let g' := fst (audio_callback g frames) in
  active (CH1 g') = active (CH1 g) /\
  frequency (CH1 g') = frequency (CH1 g) /\
  active (CH2 g') = active (CH2 g) /\
  frequency (CH2 g') = frequency (CH2 g) /\
  QUIT_FLAG g' = QUIT_FLAG g /\
  (active (CH1 g) = false -> CH1 g' = CH1 g) /\
  (active (CH2 g) = false -> CH2 g' = CH2 g) /\
  length (snd (audio_callback g frames)) = frames /\
  Forall (fun row => length row = 1) (snd (audio_callback g frames)) /\
  concat (snd (audio_callback g frames))
    = skipn (length (WAV_BUFFER g)) (WAV_BUFFER g').
Proof.
  intros g'. subst g'.
  destruct (audio_callback_channels g frames) as (-> & -> & ->).
  destruct (mix_channel_frame (CH1 g) (np_zeros frames) frames) as (? & ? & ?).
  destruct (mix_channel_frame (CH2 g) (contribution (CH1 g) frames) frames)
    as (? & ? & ?).
  destruct (audio_callback_block g frames) as [-> ->].
  repeat (split; [assumption || reflexivity|]).
  split; [|split].
  - now rewrite length_map, rendered_block_length.
  - apply Forall_forall. now intros row [x [<- _]]%in_map_iff.
  - rewrite skipn_app, skipn_all, Nat.sub_diag. cbn [skipn app].
    induction (rendered_block g frames) as [|x l IH]; [reflexivity|].
    cbn. now rewrite IH.
Qed.

Lemma silent_block (g : Globals) (frames : nat) :
  active (CH1 g) = false -> active (CH2 g) = false ->
  rendered_block g frames = np_zeros frames.
Proof.
  intros H1 H2. unfold rendered_block.
  rewrite (proj1 (silent_channel (CH1 g) H1)).
  rewrite (proj1 (silent_channel (CH2 g) H2)). cbn [snd].
  unfold np_zeros. induction frames as [|n IH]; [reflexivity|].
  cbn [repeat map]. now rewrite IH.
Qed.

Lemma zeros_pcm (n : nat) :
  map to_pcm (np_zeros n) = repeat (Some 0%Z) n.
Proof.
  unfold np_zeros. induction n as [|n IH]; [reflexivity|].
  cbn [repeat map]. now rewrite IH.
Qed.

Lemma silent_session (blocks : list nat) (g : Globals) :
  active (CH1 g) = false -> active (CH2 g) = false ->
  CH1 (render_session g blocks) = CH1 g /\
  CH2 (render_session g blocks) = CH2 g /\
  WAV_BUFFER (render_session g blocks)
    = WAV_BUFFER g ++ np_zeros (list_sum blocks).
Proof.
  revert g. induction blocks as [|frames rest IH]; intros g H1 H2.
  - cbn [render_session list_sum np_zeros repeat].
    now rewrite app_nil_r.
  - cbn [render_session].
    destruct (audio_callback_channels g frames) as (Hc1 & Hc2 & _).
    destruct (mix_channel_frame (CH1 g) (np_zeros frames) frames)
      as (_ & _ & Hk1).
    destruct (mix_channel_frame (CH2 g) (contribution (CH1 g) frames) frames)
      as (_ & _ & Hk2).
    rewrite (Hk1 H1) in Hc1. rewrite (Hk2 H2) in Hc2.
    destruct (audio_callback_block g frames) as [Hbuf _].
    destruct (IH (fst (audio_callback g frames))) as (E1 & E2 & E3).
    + now rewrite Hc1.
    + now rewrite Hc2.
    + rewrite E1, E2, E3, Hc1, Hc2, Hbuf, silent_block by assumption.
      split; [reflexivity|]. split; [reflexivity|].
      rewrite <- app_assoc. f_equal.
      change (list_sum (frames :: rest)) with (frames + list_sum rest).
      unfold np_zeros. now rewrite repeat_app.
Qed.

(** X3.  While no channel is active, render calls capture digital
    silence and leave both channels as they are: after any number of
    blocks the buffer has grown by that many zeros, which flush writes
    as zeros. *)
Theorem silence_is_stable (g : Globals) (blocks : list nat) :
  active (CH1 g) = false -> active (CH2 g) = false ->
  CH1 (render_session g blocks) = CH1 g /\
  CH2 (render_session g blocks) = CH2 g /\
  WAV_BUFFER (render_session g blocks)
    = WAV_BUFFER g ++ np_zeros (list_sum blocks) /\
  map to_pcm (np_zeros (list_sum blocks))
    = repeat (Some 0%Z) (list_sum blocks).
Proof.
  intros H1 H2.
  destruct (silent_session blocks g H1 H2) as (E1 & E2 & E3).
  repeat split; trivial. apply zeros_pcm.
Qed.

Lemma silence_is_stable_witness :
  active (CH1 Globals_init) = false /\
  active (CH2 Globals_init) = false /\
  WAV_BUFFER (render_session Globals_init [2; 1])
    = [B64.zero; B64.zero; B64.zero].
Proof.
  split; [reflexivity|]. split; [reflexivity|].
  exact (proj1 (proj2 (proj2 (silence_is_stable Globals_init [2; 1]
                                eq_refl eq_refl)))).
Defined.

(** ** Key events *)

Lemma handle_key_event_phase (channel : ChannelState)
    (notes_dict : list (string * spec_float)) (event : Gb.KeyboardEvent) :
  phase (Gb.handle_key_event channel notes_dict event) = phase channel.
Proof.
  unfold Gb.handle_key_event.
  destruct (String.eqb _ "down").
  - now destruct (dict_get _ _).
  - destruct (String.eqb _ "up"); [|reflexivity].
    now destruct (dict_in _ _).
Qed.

Lemma on_press_phase (g : Globals) (key : Gb2.Key) :
  phase (CH1 (Gb2.on_press g key)) = phase (CH1 g) /\
  phase (CH2 (Gb2.on_press g key)) = phase (CH2 g).
Proof.
  unfold Gb2.on_press. destruct key as [[char|]|special]; auto.
  destruct (dict_get CHANNEL1_NOTES _); auto.
  destruct (dict_get CHANNEL2_NOTES _); auto.
  now destruct (String.eqb _ _).
Qed.

Lemma on_release_phase (g : Globals) (key : Gb2.Key) :
  phase (CH1 (fst (Gb2.on_release g key))) = phase (CH1 g) /\
  phase (CH2 (fst (Gb2.on_release g key))) = phase (CH2 g).
Proof.
  unfold Gb2.on_release. cbn [fst]. destruct key as [[char|]|special]; auto.
  destruct (dict_in _ CHANNEL1_NOTES); auto.
  now destruct (dict_in _ CHANNEL2_NOTES).
Qed.

Lemma key_event_phase (g : Globals) (a : Action) :
  (forall frames, a <> Render frames) ->
  phase (CH1 (perform g a)) = phase (CH1 g) /\
  phase (CH2 (perform g a)) = phase (CH2 g).
Proof.
  intros Hkey. destruct a as [frames|event|q|key|key]; cbn [perform].
  - now elim (Hkey frames).
  - cbn. now rewrite !handle_key_event_phase.
  - unfold Gb.main_loop_step. now destruct q.
  - apply on_press_phase.
  - apply on_release_phase.
Qed.

(** X4.  Key events never touch a phase or the capture buffer: after any
    session without a render call, both phases and the buffer are what
    they were. *)
Theorem key_events_keep_phase (g : Globals) (actions : list Action) :
  rendered_frames actions = [] ->
  phase (CH1 (session g actions)) = phase (CH1 g) /\
  phase (CH2 (session g actions)) = phase (CH2 g) /\
  WAV_BUFFER (session g actions) = WAV_BUFFER g.
Proof.
  revert g. induction actions as [|a rest IH]; intros g Hnone.
  - now cbn.
  - cbn [session fold_left]. fold (session (perform g a) rest).
    assert (forall frames, a <> Render frames) as Hkey.
    { intros frames ->. discriminate Hnone. }
    assert (rendered_frames rest = []) as Hrest.
    { destruct a; [now elim (Hkey frames) | | | |]; exact Hnone. }
    destruct (IH (perform g a) Hrest) as (-> & -> & ->).
    destruct (key_event_phase g a Hkey) as [-> ->].
    now rewrite key_event_buffer.
Qed.

Lemma key_events_keep_phase_witness :
  let g := {| CH1 := {| active := false; frequency := B64.zero; phase := half |};
              CH2 := ChannelState_init; WAV_BUFFER := [half];
              QUIT_FLAG := false |} in
  let actions := [KeyboardHook {| Gb.event_type := "down"; Gb.name := "a" |};
                  Press (Gb2.KeyCode (Some "Z"%string));
                  Release (Gb2.KeyCode (Some "a"%string)); Poll true] in
  rendered_frames actions = [] /\
  phase (CH1 (session g actions)) = half /\
  WAV_BUFFER (session g actions) = [half].
Proof.
  intros g actions.
  split; [reflexivity|].
  destruct (key_events_keep_phase g actions eq_refl) as (H1 & _ & H3).
  split; [exact H1 | exact H3].
Defined.

Lemma notes_disjoint_left (k : string) (v : spec_float) :
  dict_get CHANNEL1_NOTES k = Some v -> dict_get CHANNEL2_NOTES k = None.
Proof.
  intros H1. destruct (dict_get CHANNEL2_NOTES k) as [w|] eqn:H2; [|reflexivity].
  apply notes_disjoint in H2. congruence.
Qed.

(** X5.  A key event changes at most one channel, in both scripts: the
    two note maps share no key, so of the two hooks of gb.py at most one
    acts. *)
Theorem one_channel_per_event :
  (forall g event,
      CH1 (Gb.hooks g event) = CH1 g \/ CH2 (Gb.hooks g event) = CH2 g) /\
  (forall g key,
      CH1 (Gb2.on_press g key) = CH1 g \/ CH2 (Gb2.on_press g key) = CH2 g) /\
  (forall g key,
      CH1 (fst (Gb2.on_release g key)) = CH1 g \/
      CH2 (fst (Gb2.on_release g key)) = CH2 g).
Proof.
  split; [|split].
  - intros g event. cbn [Gb.hooks CH1 CH2].
    destruct (dict_get CHANNEL1_NOTES (Gb.name event)) as [v|] eqn:H1.
    + right. apply handle_key_event_unmapped.
      now apply notes_disjoint_left with v.
    + left. now apply handle_key_event_unmapped.
  - intros g key. unfold Gb2.on_press.
    destruct key as [[char|]|special]; auto.
    destruct (dict_get CHANNEL1_NOTES _); [now right | left].
    destruct (dict_get CHANNEL2_NOTES _); [reflexivity|].
    now destruct (String.eqb _ _).
  - intros g key. unfold Gb2.on_release. cbn [fst].
    destruct key as [[char|]|special]; auto.
    destruct (dict_in _ CHANNEL1_NOTES); [now right | left].
    now destruct (dict_in _ CHANNEL2_NOTES).
Qed.

Lemma handle_key_event_twice (channel : ChannelState)
    (notes_dict : list (string * spec_float)) (event : Gb.KeyboardEvent) :
  Gb.handle_key_event (Gb.handle_key_event channel notes_dict event)
                      notes_dict event
    = Gb.handle_key_event channel notes_dict event.
Proof.
  unfold Gb.handle_key_event.
  destruct (String.eqb _ "down").
  - now destruct (dict_get _ _).
  - destruct (String.eqb _ "up"); [|reflexivity].
    now destruct (dict_in _ _).
Qed.

(** X6.  Handling the same event twice is handling it once: the
    repeated key-down events of a held key leave the channel, its phase
    included, as the first one left it. *)
Theorem repeated_event :
  (forall channel notes_dict event,
      Gb.handle_key_event (Gb.handle_key_event channel notes_dict event)
                          notes_dict event
        = Gb.handle_key_event channel notes_dict event) /\
  (forall g event, Gb.hooks (Gb.hooks g event) event = Gb.hooks g event) /\
  (forall g key, Gb2.on_press (Gb2.on_press g key) key = Gb2.on_press g key) /\
  (forall g key,
      Gb2.on_release (fst (Gb2.on_release g key)) key = Gb2.on_release g key).
Proof.
  split; [exact handle_key_event_twice|]. split; [|split].
  - intros g event. unfold Gb.hooks. cbn [CH1 CH2 WAV_BUFFER QUIT_FLAG].
    now rewrite !handle_key_event_twice.
  - intros g key. unfold Gb2.on_press.
    destruct key as [[char|]|special]; trivial.
    destruct (dict_get CHANNEL1_NOTES _) as [f1|] eqn:H1; [reflexivity|].
    destruct (dict_get CHANNEL2_NOTES _) as [f2|] eqn:H2; [reflexivity|].
    now destruct (String.eqb _ _).
  - intros g key. unfold Gb2.on_release. cbn [fst].
    destruct key as [[char|]|special]; trivial.
    destruct (dict_in _ CHANNEL1_NOTES) eqn:H1; [reflexivity|].
    now destruct (dict_in _ CHANNEL2_NOTES).
Qed.

Lemma lower_ascii_twice (c : ascii) :
  Gb2.lower_ascii (Gb2.lower_ascii c) = Gb2.lower_ascii c.
Proof.
  destruct c as [[] [] [] [] [] [] [] []]; vm_compute; reflexivity.
Qed.

Lemma lower_twice (s : string) : Gb2.lower (Gb2.lower s) = Gb2.lower s.
Proof.
  induction s as [|c rest IH]; [reflexivity|].
  cbn [Gb2.lower]. now rewrite lower_ascii_twice, IH.
Qed.

Lemma note_keys_lower :
  forallb (fun k => String.eqb (Gb2.lower k) k)
          (map fst CHANNEL1_NOTES ++ map fst CHANNEL2_NOTES) = true.
Proof. vm_compute. reflexivity. Qed.

(** X7.  2gb.py folds the case of a key's character before looking it
    up, so a key acts as its lower-case form; gb.py looks the event's
    name up as it is, and an event whose name is not in lower case
    changes nothing. *)
Theorem key_case :
  (forall s, Gb2.lower (Gb2.lower s) = Gb2.lower s) /\
  (forall g char,
      Gb2.on_press g (Gb2.KeyCode (Some (Gb2.lower char)))
        = Gb2.on_press g (Gb2.KeyCode (Some char))) /\
  (forall g char,
      Gb2.on_release g (Gb2.KeyCode (Some (Gb2.lower char)))
        = Gb2.on_release g (Gb2.KeyCode (Some char))) /\
  (forall g event,
      Gb2.lower (Gb.name event) <> Gb.name event -> Gb.hooks g event = g).
Proof.
  split; [exact lower_twice|]. split; [|split].
  - intros g char. unfold Gb2.on_press. now rewrite lower_twice.
  - intros g char. unfold Gb2.on_release. now rewrite lower_twice.
  - intros g event Hcase.
    assert (forall notes : list (string * spec_float),
               incl (map fst notes)
                    (map fst CHANNEL1_NOTES ++ map fst CHANNEL2_NOTES) ->
               dict_get notes (Gb.name event) = None) as Hnone.
    { intros notes Hincl.
      destruct (dict_get notes (Gb.name event)) as [v|] eqn:Hget; [|reflexivity].
      apply dict_get_key, Hincl in Hget.
      pose proof note_keys_lower as Hlow. rewrite forallb_forall in Hlow.
      apply Hlow, String.eqb_eq in Hget. contradiction. }
    unfold Gb.hooks.
    rewrite !handle_key_event_unmapped.
    + now destruct g.
    + apply Hnone. apply incl_appr, incl_refl.
    + apply Hnone. apply incl_appl, incl_refl.
Qed.

Lemma key_case_witness :
  let event := {| Gb.event_type := "down"; Gb.name := "A" |} in
  Gb2.lower (Gb.name event) <> Gb.name event /\
  Gb.hooks Globals_init event = Globals_init /\
  Gb2.on_press Globals_init (Gb2.KeyCode (Some "A"%string))
    = Gb2.on_press Globals_init (Gb2.KeyCode (Some "a"%string)).
Proof.
  intros event.
  assert (Gb2.lower (Gb.name event) <> Gb.name event) as Hcase
    by (vm_compute; discriminate).
  split; [exact Hcase|]. split.
  - exact (proj2 (proj2 (proj2 key_case)) Globals_init event Hcase).
  - symmetry. exact (proj1 (proj2 key_case) Globals_init "A"%string).
Defined.



(** ** The states a session can reach *)

Lemma dict_get_value {V : Type} (d : list (string * V)) (k : string) (v : V) :
  dict_get d k = Some v -> In v (map snd d).
Proof.
  unfold dict_get. destruct (find _ d) as [[k' v']|] eqn:Hfind; [|discriminate].
  intros [= <-]. apply find_some in Hfind as [Hin _].
  apply in_map_iff. now exists (k', v').
Qed.

Lemma notes_sound :
  forallb (fun v => B64.ltb B64.zero v && increment_ok 0 v)
          (map snd CHANNEL1_NOTES ++ map snd CHANNEL2_NOTES) = true.
Proof. vm_compute. reflexivity. Qed.

Lemma handle_key_event_note_state (channel : ChannelState)
    (notes_dict : list (string * spec_float)) (event : Gb.KeyboardEvent) :
  note_state notes_dict channel ->
  note_state notes_dict (Gb.handle_key_event channel notes_dict event).
Proof.
  intros [Hfreq Hact]. unfold Gb.handle_key_event.
  destruct (String.eqb _ "down").
  - destruct (dict_get _ _) as [v|] eqn:Hget; [|now split].
    apply dict_get_value in Hget. split; cbn [frequency active]; auto.
  - destruct (String.eqb _ "up"); [|now split].
    destruct (dict_in _ _); [|now split].
    split; cbn [frequency active]; [exact Hfreq | discriminate].
Qed.

Lemma mix_channel_note_state (notes_dict : list (string * spec_float))
    (ch : ChannelState) (output : list spec_float) (frames : nat) :
  note_state notes_dict ch ->
  note_state notes_dict (fst (mix_channel ch output frames)).
Proof.
  destruct (mix_channel_frame ch output frames) as (Ha & Hf & _).
  unfold note_state. now rewrite Ha, Hf.
Qed.

Lemma perform_note_state (g : Globals) (a : Action) :
  note_state CHANNEL1_NOTES (CH1 g) /\ note_state CHANNEL2_NOTES (CH2 g) ->
  note_state CHANNEL1_NOTES (CH1 (perform g a)) /\
  note_state CHANNEL2_NOTES (CH2 (perform g a)).
Proof.
  intros [H1 H2]. destruct a as [frames|event|q|key|key]; cbn [perform].
  - destruct (audio_callback_channels g frames) as (-> & -> & _).
    split; now apply mix_channel_note_state.
  - cbn [Gb.hooks CH1 CH2]. split; now apply handle_key_event_note_state.
  - unfold Gb.main_loop_step. now destruct q.
  - unfold Gb2.on_press. destruct key as [[char|]|special]; try now split.
    destruct (dict_get CHANNEL1_NOTES _) as [v|] eqn:G1.
    + apply dict_get_value in G1. split; [|exact H2].
      split; cbn [CH1 Gb2.activate frequency active]; auto.
    + destruct (dict_get CHANNEL2_NOTES _) as [v|] eqn:G2.
      * apply dict_get_value in G2. split; [exact H1|].
        split; cbn [CH2 Gb2.activate frequency active]; auto.
      * now destruct (String.eqb _ _).
  - unfold Gb2.on_release. cbn [fst].
    destruct key as [[char|]|special]; try now split.
    destruct (dict_in _ CHANNEL1_NOTES).
    + split; [|exact H2]. destruct H1 as [Hf _].
      split; cbn [CH1 Gb2.deactivate frequency active];
        [exact Hf | discriminate].
    + destruct (dict_in _ CHANNEL2_NOTES); [|now split].
      split; [exact H1|]. destruct H2 as [Hf _].
      split; cbn [CH2 Gb2.deactivate frequency active];
        [exact Hf | discriminate].
Qed.

Lemma session_note_state (actions : list Action) (g : Globals) :
  note_state CHANNEL1_NOTES (CH1 g) /\ note_state CHANNEL2_NOTES (CH2 g) ->
  note_state CHANNEL1_NOTES (CH1 (session g actions)) /\
  note_state CHANNEL2_NOTES (CH2 (session g actions)).
Proof.
  revert g. induction actions as [|a rest IH]; intros g Hg; [exact Hg|].
  cbn [session fold_left]. fold (session (perform g a) rest).
  now apply IH, perform_note_state.
Qed.

Lemma init_note_state :
  note_state CHANNEL1_NOTES (CH1 Globals_init) /\
  note_state CHANNEL2_NOTES (CH2 Globals_init).
Proof. split; (split; [now left | discriminate]). Qed.

Lemma note_sound (v : spec_float) :
  In v (map snd CHANNEL1_NOTES) \/ In v (map snd CHANNEL2_NOTES) ->
  B64.ltb B64.zero v = true /\ increment_ok 0 v = true.
Proof.
  intros Hin. pose proof notes_sound as Hall.
  rewrite forallb_forall in Hall.
  apply andb_prop, Hall, in_or_app, Hin.
Qed.

(** X9.  In every state a session reaches from the initial one, the
    frequency of a channel is [0.0] or a note of its own map, and an
    active channel holds a note: the test [frequency > 0] of the render
    callback never fails for an active channel, so a channel sounds
    exactly while it is active. *)
Theorem reachable_frequencies (actions : list Action) :
  let g := session Globals_init actions in
  note_state CHANNEL1_NOTES (CH1 g) /\
  note_state CHANNEL2_NOTES (CH2 g) /\
  (active (CH1 g) && B64.ltb B64.zero (frequency (CH1 g)) = active (CH1 g)) /\
  (active (CH2 g) && B64.ltb B64.zero (frequency (CH2 g)) = active (CH2 g)).
Proof.
  cbv zeta.
  destruct (session_note_state actions Globals_init init_note_state)
    as [H1 H2].
  split; [exact H1|]. split; [exact H2|]. split.
  - destruct (active (CH1 _)) eqn:Ha; [|reflexivity].
    destruct H1 as [_ H1]. cbn [andb].
    apply (note_sound _ (or_introl (H1 Ha))).
  - destruct (active (CH2 _)) eqn:Ha; [|reflexivity].
    destruct H2 as [_ H2]. cbn [andb].
    apply (note_sound _ (or_intror (H2 Ha))).
Qed.

Lemma mix_channel_reduced (ch : ChannelState) (output : list spec_float)
    (frames : nat) :
  (active ch = true ->
   In (frequency ch) (map snd CHANNEL1_NOTES) \/
   In (frequency ch) (map snd CHANNEL2_NOTES)) ->
  reduced_phase (phase ch) = true ->
  (Z.of_nat frames <= max_frames)%Z ->
  reduced_phase (phase (fst (mix_channel ch output frames))) = true.
Proof.
  intros Hnote Hp Hframes. unfold mix_channel.
  destruct (active ch) eqn:Ha; cbn [andb]; [|exact Hp].
  destruct (B64.ltb _ _); [|exact Hp].
  pose proof (new_phase_is (A := binary64) (frequency ch) (phase ch) frames)
    as Hnew.
  destruct (generate_square_wave _ _ _) as [wave new_phase].
  cbn [fst snd phase] in *. rewrite Hnew.
  destruct (note_sound _ (Hnote eq_refl)) as [_ Hinc].
  apply (phase_at_ticks (frequency ch) 40 0 ltac:(lia) ltac:(lia) ltac:(lia)
           Hinc (phase ch) (Z.of_nat frames)).
  - apply (reduced_in_range 40 0); trivial; lia.
  - unfold max_frames in Hframes. lia.
Qed.

Lemma perform_reduced (g : Globals) (a : Action) :
  note_state CHANNEL1_NOTES (CH1 g) /\ note_state CHANNEL2_NOTES (CH2 g) ->
  (forall frames, a = Render frames -> (Z.of_nat frames <= max_frames)%Z) ->
  reduced_phase (phase (CH1 g)) = true /\
  reduced_phase (phase (CH2 g)) = true ->
  reduced_phase (phase (CH1 (perform g a))) = true /\
  reduced_phase (phase (CH2 (perform g a))) = true.
Proof.
  intros [[_ N1] [_ N2]] Hframes [H1 H2].
  destruct a as [frames|event|q|key|key].
  - cbn [perform].
    destruct (audio_callback_channels g frames) as (-> & -> & _).
    specialize (Hframes frames eq_refl).
    split; apply mix_channel_reduced; auto.
  - destruct (key_event_phase g (KeyboardHook event)) as [-> ->];
      [discriminate | now split].
  - destruct (key_event_phase g (Poll q)) as [-> ->];
      [discriminate | now split].
  - destruct (key_event_phase g (Press key)) as [-> ->];
      [discriminate | now split].
  - destruct (key_event_phase g (Release key)) as [-> ->];
      [discriminate | now split].
Qed.

Lemma session_reduced (actions : list Action) (g : Globals) :
  note_state CHANNEL1_NOTES (CH1 g) /\ note_state CHANNEL2_NOTES (CH2 g) ->
  Forall (fun frames => (Z.of_nat frames <= max_frames)%Z)
         (rendered_frames actions) ->
  reduced_phase (phase (CH1 g)) = true /\
  reduced_phase (phase (CH2 g)) = true ->
  reduced_phase (phase (CH1 (session g actions))) = true /\
  reduced_phase (phase (CH2 (session g actions))) = true.
Proof.
  revert g. induction actions as [|a rest IH]; intros g Hn Hframes Hg;
    [exact Hg|].
  cbn [session fold_left]. fold (session (perform g a) rest).
  apply IH.
  - now apply perform_note_state.
  - destruct a; cbn [rendered_frames flat_map app] in Hframes;
      fold (rendered_frames rest) in Hframes; trivial.
    now inversion Hframes.
  - apply perform_reduced; trivial.
    intros frames ->. cbn [rendered_frames flat_map app] in Hframes.
    now inversion Hframes.
Qed.

(** X10.  In every state a session reaches from the initial one with
    blocks of at most [2^40] frames, the phase of each channel is [+0.0]
    or a positive double in canonical form below [2 * pi]: never a NaN,
    never negative, never [2 * pi] itself. *)
Theorem reachable_phases (actions : list Action) :
  Forall (fun frames => (Z.of_nat frames <= max_frames)%Z)
         (rendered_frames actions) ->
  let g := session Globals_init actions in
  reduced_phase (phase (CH1 g)) = true /\
  reduced_phase (phase (CH2 g)) = true /\
  B64.leb B64.zero (phase (CH1 g)) = true /\
  B64.ltb (phase (CH1 g)) two_pi = true /\
  B64.leb B64.zero (phase (CH2 g)) = true /\
  B64.ltb (phase (CH2 g)) two_pi = true.
Proof.
  intros Hframes g.
  destruct (session_reduced actions Globals_init init_note_state Hframes)
    as [H1 H2]; [now split|]. fold g in H1, H2.
  assert (forall p, reduced_phase p = true ->
             B64.leb B64.zero p = true /\ B64.ltb p two_pi = true) as Hrange.
  { intros p Hp. unfold reduced_phase in Hp.
    destruct p as [[|]|s| |[|] m e]; try discriminate.
    - split; vm_compute; reflexivity.
    - apply andb_prop in Hp as [_ Hlt]. now split. }
  destruct (Hrange _ H1) as [? ?], (Hrange _ H2) as [? ?].
  repeat split; assumption.
Qed.

Lemma reachable_phases_witness :
  let actions := [Press (Gb2.KeyCode (Some "g"%string)); Render 1024;
                  Render 1024] in
  Forall (fun frames => (Z.of_nat frames <= max_frames)%Z)
         (rendered_frames actions) /\
  reduced_phase (phase (CH1 (session Globals_init actions))) = true.
Proof.
  cbv zeta.
  assert (Forall (fun frames => (Z.of_nat frames <= max_frames)%Z)
            (rendered_frames [Press (Gb2.KeyCode (Some "g"%string));
                              Render 1024; Render 1024])) as Hframes.
  { cbn [rendered_frames flat_map app].
    repeat constructor; vm_compute; discriminate. }
  split; [exact Hframes|].
  exact (proj1 (reachable_phases _ Hframes)).
Defined.

(** ** The stored phase *)

(** X11.  A stored phase is the phase of the next sample: from a phase
    in canonical form, the phase of sample 0 is the stored phase itself,
    exactly; so a call for zero samples returns the phase it was given,
    and the first sample of every block has the level of the phase the
    previous block returned. *)
Theorem stored_phase_is_next (f p : spec_float) (D : Z) :
  increment_ok D f = true ->
  reduced_phase p = true ->
  phase_at f p 0 = p /\
  generate_square_wave f p 0 = ([], p) /\
  (forall n d, nth 0 (fst (generate_square_wave f p (S n))) d = level p).
Proof.
  intros Hinc Hp.
  assert (phase_at f p 0 = p) as Hzero.
  { unfold phase_at. cbn [fadd fmul frem of_int binary64].
    assert (B64.add p (B64.mul (B64.of_Z 0) (increment f)) = p) as ->.
    { change (B64.of_Z 0) with (S754_zero false).
      unfold increment_ok in Hinc.
      destruct (increment f) as [s|s| |[|] m e]; try discriminate.
      cbn [B64.mul SFmul xorb]. unfold reduced_phase in Hp.
      now destruct p as [[|]|s| |[|] m' e']. }
    now apply pymod_fixed. }
  split; [exact Hzero|]. split.
  - pose proof (new_phase_is (A := binary64) f p 0) as Hnew.
    pose proof (wave_length (A := binary64) f p 0) as Hlen.
    destruct (generate_square_wave f p 0) as [wave new_phase].
    cbn [fst snd] in *. rewrite Hnew. change (Z.of_nat 0) with 0%Z.
    rewrite Hzero. destruct wave; [reflexivity | discriminate].
  - intros n d. rewrite (wave_nth (A := binary64)) by lia.
    change (Z.of_nat 0) with 0%Z. now rewrite Hzero.
Qed.

Lemma stored_phase_is_next_witness :
  let f := B64.lit 44000 100 in
  let p := snd (generate_square_wave f B64.zero 1024) in
  increment_ok 0 f = true /\
  reduced_phase p = true /\
  generate_square_wave f p 0 = ([], p).
Proof.
  cbv zeta.
  assert (increment_ok 0 (B64.lit 44000 100) = true) as Hinc
    by (vm_compute; reflexivity).
  assert (reduced_phase
            (snd (generate_square_wave (B64.lit 44000 100) B64.zero 1024))
          = true) as Hp by (vm_compute; reflexivity).
  split; [exact Hinc|]. split; [exact Hp|].
  exact (proj1 (proj2 (stored_phase_is_next _ _ 0%Z Hinc Hp))).
Defined.
